(** * ai-digital backend: a shallow embedding and its verified properties

    The development follows the Python sources under [backend/]:
    - [utils/markdown_parser.py]   (modules [MarkdownParser], [MarkdownSyntax])
    - [services/embedder.py], [database/embedding_cache.py] (module [Embedder])
    - [database/vector_store.py]   (module [VectorStore])
    - [services/indexer.py]        (modules [Indexer], [ChunkIds])
    - [services/retriever.py]      (modules [Retriever], [Citations], [Answer])

    Conventions.
    - A Python [str] is a list of Unicode code points ([pystr]); string
      literals are written as UTF-8 Rocq strings and decoded by [py].
    - Python integers are [Z]; [-1] is the "not found" value of [rfind].
    - Python floats that carry scores are modelled by exact rationals [Q]:
      the properties below are about which values are multiplied, compared
      and sorted, not about rounding.
    - Calls into libraries outside the repository (sha256, FAISS, the
      embedding HTTP endpoint, [str.lower]/[str.upper]) are Section
      variables. *)

From Stdlib Require Import ZArith NArith List String Ascii QArith Lia Permutation Sorted.
From Stdlib Require Import Decimal DecimalNat.
From stdpp Require Import base option list sorting gmap.
Import ListNotations.

Local Open Scope Z_scope.

(** ** Python strings *)

Definition pystr := list N.

Fixpoint bytes_of (s : string) : list N :=
  match s with
  | EmptyString => []
  | String a s' => N_of_ascii a :: bytes_of s'
  end.

(** UTF-8 decoding of well-formed input (the literals of this file). *)
Fixpoint utf8_decode (bs : list N) : pystr :=
  match bs with
  | [] => []
  | b0 :: r0 =>
    if (b0 <? 128)%N then b0 :: utf8_decode r0
    else if (b0 <? 224)%N then
      match r0 with
      | b1 :: r1 => ((b0 - 192) * 64 + (b1 - 128))%N :: utf8_decode r1
      | _ => [b0]
      end
    else if (b0 <? 240)%N then
      match r0 with
      | b1 :: b2 :: r2 =>
        ((b0 - 224) * 4096 + (b1 - 128) * 64 + (b2 - 128))%N :: utf8_decode r2
      | _ => [b0]
      end
    else
      match r0 with
      | b1 :: b2 :: b3 :: r3 =>
        ((b0 - 240) * 262144 + (b1 - 128) * 4096 + (b2 - 128) * 64 + (b3 - 128))%N
          :: utf8_decode r3
      | _ => [b0]
      end
  end.

Definition py (s : string) : pystr := utf8_decode (bytes_of s).

(** [len(s)] *)
Definition len {A} (s : list A) : Z := Z.of_nat (length s).

(** Equality of strings, [a == b]. *)
Fixpoint str_eqb (a b : pystr) : bool :=
  match a, b with
  | [], [] => true
  | x :: a', y :: b' => (x =? y)%N && str_eqb a' b'
  | _, _ => false
  end.

(** [s.startswith(p)] *)
Fixpoint starts_with (p s : pystr) : bool :=
  match p, s with
  | [], _ => true
  | x :: p', y :: s' => (x =? y)%N && starts_with p' s'
  | _ :: _, [] => false
  end.

(** Index normalisation of slices: a negative index counts from the end,
    and the result is clamped to [0, n]. *)
Definition clamp_index (n i : Z) : Z :=
  if i <? 0 then Z.max 0 (i + n) else Z.min i n.

(** [s[i:j]] *)
Definition slice {A} (s : list A) (i j : Z) : list A :=
  let a := clamp_index (len s) i in
  let b := clamp_index (len s) j in
  firstn (Z.to_nat (b - a)) (skipn (Z.to_nat a) s).

(** [str.isspace] on one code point: the characters removed by
    [str.strip()] and matched by [\s] in [re]. *)
Definition is_space (c : N) : bool :=
  ((9 <=? c) && (c <=? 13) || (28 <=? c) && (c <=? 32)
   || (c =? 133) || (c =? 160) || (c =? 5760)
   || (8192 <=? c) && (c <=? 8202)
   || (c =? 8232) || (c =? 8233) || (c =? 8239) || (c =? 8287)
   || (c =? 12288))%N.

Fixpoint lstrip (s : pystr) : pystr :=
  match s with
  | c :: s' => if is_space c then lstrip s' else s
  | [] => []
  end.

Definition rstrip (s : pystr) : pystr := rev (lstrip (rev s)).

(** [s.strip()] *)
Definition strip (s : pystr) : pystr := rstrip (lstrip s).

(** Candidates [lo + n - 1], ..., [lo], highest first. *)
Fixpoint rfind_from (s sub : pystr) (lo : Z) (n : nat) : Z :=
  match n with
  | O => -1
  | S n' =>
    if starts_with sub (skipn (Z.to_nat (lo + Z.of_nat n')) s)
    then lo + Z.of_nat n'
    else rfind_from s sub lo n'
  end.

(** [s.rfind(sub, start, end)] for a non-empty [sub]: the highest index
    [i] with [start <= i], [i + len(sub) <= end] and
    [s[i:i+len(sub)] == sub], or [-1]. *)
Definition rfind (s sub : pystr) (start end_ : Z) : Z :=
  let n := len s in
  let e := if end_ >? n then n else if end_ <? 0 then Z.max 0 (end_ + n) else end_ in
  let b := if start <? 0 then Z.max 0 (start + n) else start in
  rfind_from s sub b (Z.to_nat (e - len sub - b + 1)).

(** [s.split(sep)] for a non-empty [sep]; [skip] counts the characters of
    a separator that are still to be dropped, [cur] is the current piece
    in reverse. *)
Fixpoint split_go (sep s cur : pystr) (skip : nat) : list pystr :=
  match s with
  | [] => [rev cur]
  | c :: s' =>
    match skip with
    | S k => split_go sep s' cur k
    | O =>
      if starts_with sep s
      then rev cur :: split_go sep s' [] (length sep - 1)
      else split_go sep s' (c :: cur) 0
    end
  end.

Definition split (s sep : pystr) : list pystr := split_go sep s [] 0.

Definition NL2 : pystr := [10; 10]%N.
Definition SPACE : pystr := [32]%N.

(** ** utils/markdown_parser.py *)

Module MarkdownParser.

(** A chunk is the triple [(chunk_text, start_pos, end_pos)]. *)
Definition chunk : Type := pystr * Z * Z.

(** The delimiter list of [_split_large_text], in the order of the loop. *)
Definition delimiters : list pystr :=
  [py "。"; py "！"; py "？"; NL2; py "."; py "!"; py "?"].

(** The [for delimiter in ...] loop: [best_pos] starts at [-1] and is
    replaced whenever [pos > best_pos]. *)
Definition best_delimiter_pos (text : pystr) (search_start search_end : Z) : Z :=
  fold_left
    (fun best_pos delimiter =>
       let pos := rfind text delimiter search_start search_end in
       if pos >? best_pos then pos else best_pos)
    delimiters (-1).

(** The value of [end] computed in one iteration that begins at [start]. *)
Definition chunk_end (text : pystr) (start chunk_size min_chunk_size : Z) : Z :=
  let text_len := len text in
  let ideal_end := Z.min (start + chunk_size) text_len in
  if ideal_end >=? text_len then text_len
  else
    let search_start := Z.max (start + min_chunk_size) (ideal_end - 200) in
    let search_end := ideal_end in
    let best_pos := best_delimiter_pos text search_start search_end in
    if negb (best_pos =? -1) then best_pos + 1
    else
      let space_pos := rfind text SPACE search_start search_end in
      if negb (space_pos =? -1) then space_pos + 1
      else ideal_end.

(** Loop state of [_split_large_text]: the variables [start] and [chunks]. *)
Record loop_state : Type := LoopState { ls_start : Z; ls_chunks : list chunk }.

Inductive outcome : Type :=
| Continue (s : loop_state)
| Break (chunks : list chunk).

(** [chunks[-1][1] - start_offset if chunks else -1] *)
Definition last_emitted_start (chunks : list chunk) (start_offset : Z) : Z :=
  match last chunks with
  | Some (_, s, _) => s - start_offset
  | None => -1
  end.

(** One pass through the body of the [while] loop. *)
Definition split_body (text : pystr) (start_offset chunk_size overlap min_chunk_size : Z)
    (s : loop_state) : outcome :=
  let start := ls_start s in
  let end_ := chunk_end text start chunk_size min_chunk_size in
  let chunk_text := strip (slice text start end_) in
  let chunks :=
    if len chunk_text >=? min_chunk_size
    then ls_chunks s ++ [(chunk_text, start_offset + start, start_offset + end_)]
    else ls_chunks s in
  let start1 := end_ - overlap in
  let start2 :=
    if start1 <=? last_emitted_start chunks start_offset then end_ else start1 in
  if len text - start2 <? min_chunk_size
  then Break chunks
  else Continue (LoopState start2 chunks).

(** The [while start < text_len] loop; [None] when [fuel] iterations did
    not reach the exit. *)
Fixpoint split_loop (fuel : nat) (text : pystr)
    (start_offset chunk_size overlap min_chunk_size : Z) (s : loop_state)
    : option (list chunk) :=
  if ls_start s <? len text then
    match fuel with
    | O => None
    | S fuel' =>
      match split_body text start_offset chunk_size overlap min_chunk_size s with
      | Break chunks => Some chunks
      | Continue s' =>
        split_loop fuel' text start_offset chunk_size overlap min_chunk_size s'
      end
    end
  else Some (ls_chunks s).

Definition _split_large_text (fuel : nat) (text : pystr)
    (start_offset chunk_size overlap min_chunk_size : Z) : option (list chunk) :=
  split_loop fuel text start_offset chunk_size overlap min_chunk_size (LoopState 0 []).

(** The block that disposes of the accumulated text once it has at least
    [min_chunk_size] characters.  [len(t) > chunk_size * 1.5] compares an
    integer with a float; it is written here on integers. *)
Definition emit_accumulated (fuel : nat) (chunks : list chunk)
    (accumulated_text : pystr) (accumulated_start chunk_size overlap min_chunk_size : Z)
    : option (list chunk) :=
  if len accumulated_text >=? min_chunk_size then
    if 2 * len accumulated_text >? 3 * chunk_size then
      sub_chunks ← _split_large_text fuel accumulated_text accumulated_start
                     chunk_size overlap min_chunk_size;
      Some (chunks ++ sub_chunks)
    else
      Some (chunks ++ [(accumulated_text, accumulated_start,
                        accumulated_start + len accumulated_text)])
  else Some chunks.

(** The [for paragraph in paragraphs] loop followed by the final block. *)
Fixpoint paragraph_loop (fuel : nat) (paragraphs : list pystr)
    (chunk_size overlap min_chunk_size : Z)
    (chunks : list chunk) (current_pos : Z)
    (accumulated_text : pystr) (accumulated_start : Z) : option (list chunk) :=
  match paragraphs with
  | [] =>
    match accumulated_text with
    | [] => Some chunks
    | _ :: _ =>
      emit_accumulated fuel chunks accumulated_text accumulated_start
        chunk_size overlap min_chunk_size
    end
  | paragraph0 :: rest =>
    let paragraph := strip paragraph0 in
    match paragraph with
    | [] =>
      paragraph_loop fuel rest chunk_size overlap min_chunk_size
        chunks (current_pos + 2) accumulated_text accumulated_start
    | _ :: _ =>
      match accumulated_text with
      | [] =>
        paragraph_loop fuel rest chunk_size overlap min_chunk_size
          chunks (current_pos + len paragraph + 2) paragraph current_pos
      | _ :: _ =>
        let test_text := accumulated_text ++ NL2 ++ paragraph in
        if len test_text >? chunk_size then
          chunks' ← emit_accumulated fuel chunks accumulated_text accumulated_start
                      chunk_size overlap min_chunk_size;
          paragraph_loop fuel rest chunk_size overlap min_chunk_size
            chunks' (current_pos + len paragraph + 2) paragraph current_pos
        else
          paragraph_loop fuel rest chunk_size overlap min_chunk_size
            chunks (current_pos + len paragraph + 2) test_text accumulated_start
      end
    end
  end.

(** [MarkdownParser.chunk_content]; [fuel] bounds each run of the inner
    [while] loop. *)
Definition chunk_content (fuel : nat) (content : pystr)
    (chunk_size overlap min_chunk_size : Z) : option (list chunk) :=
  if len content <? chunk_size then
    match strip content with
    | _ :: _ => Some [(content, 0, len content)]
    | [] => Some []
    end
  else
    paragraph_loop fuel (split content NL2) chunk_size overlap min_chunk_size
      [] 0 [] 0.

End MarkdownParser.

(** The rule of the specification for the same step, used to compare it
    with [best_delimiter_pos]: the delimiters are tried in priority order
    and the first one that occurs in the window decides the cut. *)
Module SplitterSpec.

Fixpoint first_delimiter_pos (text : pystr) (search_start search_end : Z)
    (ds : list pystr) : Z :=
  match ds with
  | [] => -1
  | d :: ds' =>
    let pos := rfind text d search_start search_end in
    if negb (pos =? -1) then pos
    else first_delimiter_pos text search_start search_end ds'
  end.

Definition chunk_end_by_priority (text : pystr) (start chunk_size min_chunk_size : Z) : Z :=
  let text_len := len text in
  let ideal_end := Z.min (start + chunk_size) text_len in
  if ideal_end >=? text_len then text_len
  else
    let search_start := Z.max (start + min_chunk_size) (ideal_end - 200) in
    let best_pos :=
      first_delimiter_pos text search_start ideal_end MarkdownParser.delimiters in
    if negb (best_pos =? -1) then best_pos + 1
    else
      let space_pos := rfind text SPACE search_start ideal_end in
      if negb (space_pos =? -1) then space_pos + 1
      else ideal_end.

End SplitterSpec.

(** Texts on which the splitter is run below. *)
Module ParserExample.
Import MarkdownParser.

(** An ideographic full stop at index 2 and an ASCII full stop at index 5. *)
Definition two_stops : pystr := py "ab。cd.efghijklmnop".

(** One paragraph: five letters, four spaces, a full stop, ten letters. *)
Definition stuck_text : pystr := py "abcde    .xxxxxxxxxx".

(** The loop state after the first pass over [stuck_text]. *)
Definition stuck_state : loop_state :=
  LoopState 5 [(py "abcde    .", 0, 10)].

End ParserExample.

(** ** Sorting and enumeration

    [list.sort] and [sorted] are stable.  On keys that are totally
    ordered every stable sort returns the same list, so the model is an
    insertion sort; [before x y] says that the key of [x] comes strictly
    before the key of [y] in the requested order. *)

Section StableSort.
Context {A : Type}.
Variable before : A -> A -> bool.

Fixpoint insert_sorted (x : A) (l : list A) : list A :=
  match l with
  | [] => [x]
  | y :: l' => if before y x then y :: insert_sorted x l' else x :: l
  end.

Definition stable_sort (l : list A) : list A := foldr insert_sorted [] l.

(** [x] is not strictly after [y] in the requested order. *)
Definition not_after (x y : A) : Prop := before y x = false.
End StableSort.

(** [enumerate(l, n)] *)
Fixpoint enumerate_from {A} (n : nat) (l : list A) : list (nat * A) :=
  match l with
  | [] => []
  | x :: l' => (n, x) :: enumerate_from (S n) l'
  end.

Definition enumerate {A} (l : list A) : list (nat * A) := enumerate_from 0 l.

(** ** services/embedder.py and database/embedding_cache.py *)

Module Embedder.

(** An embedding; [List[float]]. *)
Definition vector : Type := list Q.

(** What one POST to [/v1/embeddings] can lead to inside the [try]
    block of [_embed_batch]. *)
Inductive response : Type :=
| Ok200 (data : list (Z * vector))  (* [result['data']]: [index], [embedding] *)
| Status429                         (* HTTPStatusError, status code 429 *)
| StatusOther                       (* HTTPStatusError, any other code *)
| TimedOut                          (* httpx.TimeoutException *)
| Failed.                           (* any other exception *)

Inductive error : Type :=
| HTTPStatusError
| TimeoutException
| OtherException
| RuntimeError
| IndexError
| ValueError.

(** How a call of a coroutine ends. *)
Inductive outcome (A : Type) : Type :=
| Returned (a : A)
| Raised (e : error)
| Unfinished.                   (* some task has not reached its end *)

Arguments Returned {A} a.
Arguments Raised {A} e.
Arguments Unfinished {A}.

Section WithEnvironment.
(** The type of content hashes, and
    [hashlib.sha256(text.encode('utf-8')).hexdigest()]. *)
Context {H : Type} `{Countable H}.
Variable _compute_hash : pystr -> H.
(** The remote endpoint: its answer to the [n]-th request of the run
    (counted from 0) with the given [input]. *)
Variable server : nat -> list pystr -> response.
(** [self.model] and [self.batch_size] *)
Variable model : pystr.
Variable batch_size : Z.

(** The table [embedding_cache], primary key [(content_hash, model)],
    and the log of the [input] fields posted so far. *)
Record world : Type := World {
  cache : gmap (H * pystr) vector;
  requests : list (list pystr)
}.

(** State and exceptions. *)
Definition M (A : Type) : Type := world -> (error + A) * world.

Definition ret {A} (a : A) : M A := fun w => (inr a, w).
Definition raise {A} (e : error) : M A := fun w => (inl e, w).
Definition bind {A B} (m : M A) (k : A -> M B) : M B :=
  fun w =>
    match m w with
    | (inl e, w') => (inl e, w')
    | (inr a, w') => k a w'
    end.

Notation "x <- m ;; k" := (bind m (fun x => k))
  (at level 100, m at next level, right associativity).

(** *** EmbeddingCache *)

Definition cache_key (text : pystr) : H * pystr := (_compute_hash text, model).

(** [get_batch]: one row lookup per hash, in the order of the input;
    [None] marks a miss. *)
Definition get_batch (texts : list pystr) : M (list (option vector)) :=
  fun w => (inr (map (fun t => cache w !! cache_key t) texts), w).

(** [INSERT OR REPLACE] row by row over [zip(texts, embeddings)]. *)
Fixpoint insert_rows (rows : list (pystr * vector))
    (c : gmap (H * pystr) vector) : gmap (H * pystr) vector :=
  match rows with
  | [] => c
  | (t, e) :: rows' => insert_rows rows' (<[cache_key t := e]> c)
  end.

Definition set_batch (texts : list pystr) (embeddings : list vector) : M unit :=
  fun w => (inr tt, World (insert_rows (zip texts embeddings) (cache w)) (requests w)).

(** *** EmbedderService *)

(** [self.client.post("/v1/embeddings", json={model, input})] *)
Definition post (texts : list pystr) : M response :=
  fun w => (inr (server (length (requests w)) texts),
            World (cache w) (requests w ++ [texts])).

(** [[item['embedding'] for item in sorted(data, key=index)]] *)
Definition extract_embeddings (data : list (Z * vector)) : list vector :=
  map snd (stable_sort (fun a b => fst a <? fst b) data).

(** The [for attempt in range(max_retries)] loop; [todo] counts the
    attempts that are left. *)
Fixpoint embed_batch_loop (texts : list pystr) (max_retries attempt todo : nat)
    : M (list vector) :=
  match todo with
  | O => raise RuntimeError
  | S todo' =>
    r <- post texts ;;
    match r with
    | Ok200 data => ret (extract_embeddings data)
    | Status429 => embed_batch_loop texts max_retries (S attempt) todo'
    | StatusOther =>
      if (attempt =? max_retries - 1)%nat then raise HTTPStatusError
      else embed_batch_loop texts max_retries (S attempt) todo'
    | TimedOut =>
      if (attempt =? max_retries - 1)%nat then raise TimeoutException
      else embed_batch_loop texts max_retries (S attempt) todo'
    | Failed =>
      if (attempt =? max_retries - 1)%nat then raise OtherException
      else embed_batch_loop texts max_retries (S attempt) todo'
    end
  end.

Definition _embed_batch (texts : list pystr) : M (list vector) :=
  embed_batch_loop texts 3 0 3.

(** [emb is None] *)
Definition is_none {B} (o : option B) : bool :=
  match o with None => true | Some _ => false end.

(** [[i for i, emb in enumerate(cached) if emb is None]] *)
Definition uncached_indices_of (cached : list (option vector)) : list nat :=
  map fst (List.filter (fun p => is_none (snd p)) (enumerate cached)).

(** [for i, idx in enumerate(uncached_indices): result[idx] = new[i]] *)
Fixpoint assign_new (todo : list (nat * nat)) (new_embeddings : list vector)
    (result : list (option vector)) : error + list (option vector) :=
  match todo with
  | [] => inr result
  | (i, idx) :: todo' =>
    match new_embeddings !! i with
    | None => inl IndexError
    | Some e =>
      if (idx <? length result)%nat
      then assign_new todo' new_embeddings (<[idx := Some e]> result)
      else inl IndexError
    end
  end.

Definition lift {A} (r : error + A) : M A := fun w => (r, w).

Definition _embed_batch_with_cache (texts : list pystr) : M (list (option vector)) :=
  cached_embeddings <- get_batch texts ;;
  let uncached_indices := uncached_indices_of cached_embeddings in
  match mapM (fun i => texts !! i) uncached_indices with
  | None => raise IndexError
  | Some uncached_texts =>
    match uncached_texts with
    | [] => ret cached_embeddings
    | _ :: _ =>
      new_embeddings <- _embed_batch uncached_texts ;;
      _ <- set_batch uncached_texts new_embeddings ;;
      lift (assign_new (enumerate uncached_indices) new_embeddings cached_embeddings)
    end
  end.

(** [range(0, stop, step)] for [0 < step]. *)
Definition range_step (stop step : Z) : list Z :=
  map (fun j => Z.of_nat j * step) (seq 0 (Z.to_nat ((stop + step - 1) / step))).

(** [[texts[i:i + batch_size] for i in range(0, len(texts), batch_size)]] *)
Definition batches_of (texts : list pystr) : error + list (list pystr) :=
  if batch_size =? 0 then inl ValueError
  else if batch_size <? 0 then inr []
  else inr (map (fun i => slice texts i (i + batch_size))
                (range_step (len texts) batch_size)).

(** *** Concurrent tasks

    [embed_texts] creates one task [embed_with_semaphore(batch, i)] per
    batch.  A task runs until it awaits, and the event loop then resumes
    any task that can go on.  The states are the points at which a task
    is suspended; a step takes a task from one such point to the next. *)
Inductive task_state : Type :=
| Waiting                       (* at [async with semaphore] *)
| Acquired                      (* holds a slot, awaits [cache.get_batch] *)
| Posting (cached_embeddings : list (option vector))
          (uncached_texts : list pystr) (attempt : nat)
                                (* in [_embed_batch], awaits the POST *)
| Storing (cached_embeddings : list (option vector))
          (uncached_texts : list pystr) (new_embeddings : list vector)
                                (* awaits [cache.set_batch] *)
| Done (r : error + list (option vector)).

(** [getattr(settings.embedding, 'max_concurrent', 6)] *)
Variable max_concurrent : nat.

(** The default of [_embed_batch]. *)
Definition max_retries : nat := 3.

Definition task_step (free_slot : bool) (batch : list pystr) (s : task_state)
    (w : world) : task_state * world :=
  match s with
  | Waiting => (if free_slot then Acquired else Waiting, w)
  | Acquired =>
    let cached_embeddings := map (fun t => cache w !! cache_key t) batch in
    match mapM (fun i => batch !! i) (uncached_indices_of cached_embeddings) with
    | None => (Done (inl IndexError), w)
    | Some [] => (Done (inr cached_embeddings), w)
    | Some uncached_texts => (Posting cached_embeddings uncached_texts 0, w)
    end
  | Posting cached_embeddings uncached_texts attempt =>
    let again (e : error) :=
      if (attempt =? max_retries - 1)%nat then Done (inl e)
      else Posting cached_embeddings uncached_texts (S attempt) in
    (match server (length (requests w)) uncached_texts with
     | Ok200 data => Storing cached_embeddings uncached_texts (extract_embeddings data)
     | Status429 => again RuntimeError
     | StatusOther => again HTTPStatusError
     | TimedOut => again TimeoutException
     | Failed => again OtherException
     end,
     World (cache w) (requests w ++ [uncached_texts]))
  | Storing cached_embeddings uncached_texts new_embeddings =>
    (Done (assign_new (enumerate (uncached_indices_of cached_embeddings))
             new_embeddings cached_embeddings),
     World (insert_rows (zip uncached_texts new_embeddings) (cache w)) (requests w))
  | Done r => (Done r, w)
  end.

(** A task on its own: from the slot to the end takes at most five steps. *)
Definition task_alone (batch : list pystr) (w : world) : task_state * world :=
  let step := fun sw : task_state * world => task_step true batch (fst sw) (snd sw) in
  step (step (step (step (step (Acquired, w))))).

Definition is_done (s : task_state) : bool :=
  match s with Done _ => true | _ => false end.

Definition holds_slot (s : task_state) : bool :=
  match s with Acquired | Posting _ _ _ | Storing _ _ _ => true | _ => false end.

(** The tasks of one call, and the indices of the finished ones in the
    order in which they finished. *)
Record pool : Type := Pool {
  states : list task_state;
  finished : list nat
}.

(** The event loop resumes task [i]. *)
Definition pool_step (batches : list (list pystr)) (i : nat) (p : pool) (w : world)
    : pool * world :=
  match states p !! i, batches !! i with
  | Some s, Some batch =>
    let free_slot :=
      (length (List.filter holds_slot (states p)) <? max_concurrent)%nat in
    let (s', w') := task_step free_slot batch s w in
    (Pool (<[i := s']> (states p))
          (if is_done s' && negb (is_done s) then finished p ++ [i] else finished p),
     w')
  | _, _ => (p, w)
  end.

Fixpoint run_pool (batches : list (list pystr)) (schedule : list nat) (p : pool)
    (w : world) : pool * world :=
  match schedule with
  | [] => (p, w)
  | i :: schedule' =>
    let (p', w') := pool_step batches i p w in
    run_pool batches schedule' p' w'
  end.

(** The results [(batch_idx, embeddings)] in completion order; the
    first exception among them is the one that [await] raises. *)
Fixpoint completed_results (sts : list task_state) (order : list nat)
    : error + list (nat * list (option vector)) :=
  match order with
  | [] => inr []
  | i :: order' =>
    match sts !! i with
    | Some (Done (inr embeddings)) =>
      match completed_results sts order' with
      | inl e => inl e
      | inr others => inr ((i, embeddings) :: others)
      end
    | Some (Done (inl e)) => inl e
    | _ => completed_results sts order'
    end
  end.

(** [asyncio.gather]: the results in the order of the task list. *)
Definition gathered {B} (n : nat) (completed : list (nat * B)) : list (nat * B) :=
  omap (fun i => find (fun r => (fst r =? i)%nat) completed) (seq 0 n).

(** [results.sort(key=lambda x: x[0])] and the flattening loop. *)
Definition assemble {B} (results : list (nat * list B)) : list B :=
  concat (map snd (stable_sort (fun a b => (fst a <? fst b)%nat) results)).

(** [embed_texts].  [schedule] lists the tasks in the order in which the
    event loop resumes them.  With [show_progress] the results are
    collected in completion order ([as_completed]), otherwise in task
    order ([gather]); they are sorted by batch index either way. *)
Definition embed_texts (schedule : list nat) (texts : list pystr)
    (show_progress : bool) (w : world) : outcome (list (option vector)) * world :=
  match batches_of texts with
  | inl e => (Raised e, w)
  | inr batches =>
    let n := length batches in
    let (p, w') := run_pool batches schedule (Pool (replicate n Waiting) []) w in
    match completed_results (states p) (finished p) with
    | inl e => (Raised e, w')
    | inr completed =>
      if (length completed =? n)%nat then
        let results := if show_progress then completed else gathered n completed in
        (Returned (assemble results), w')
      else (Unfinished, w')
    end
  end.

(** [embed_query]: [embeddings[0]]. *)
Definition embed_query (schedule : list nat) (query : pystr) (w : world)
    : outcome (option vector) * world :=
  match embed_texts schedule [query] false w with
  | (Returned (e :: _), w') => (Returned e, w')
  | (Returned [], w') => (Raised IndexError, w')
  | (Raised e, w') => (Raised e, w')
  | (Unfinished, w') => (Unfinished, w')
  end.

End WithEnvironment.

End Embedder.

(** Reference notions for the embedding client, in the words of the
    specification. *)
Module EmbedderSpec.
Import Embedder.

(** The entries a server sends for the vectors [vs]: the [i]-th vector
    tagged with [index = i]. *)
Definition indexed (vs : list vector) : list (Z * vector) :=
  map (fun p => (Z.of_nat (fst p), snd p)) (enumerate vs).

(** Hits and fresh vectors stitched back into input order: a hit keeps
    its cached vector, each miss takes the next fresh vector. *)
Fixpoint stitch (cached : list (option vector)) (fresh : list vector)
    : list (option vector) :=
  match cached with
  | [] => []
  | Some v :: cached' => Some v :: stitch cached' fresh
  | None :: cached' =>
    match fresh with
    | e :: fresh' => Some e :: stitch cached' fresh'
    | [] => None :: stitch cached' []
    end
  end.

Definition count_none (cached : list (option vector)) : nat :=
  length (List.filter is_none cached).

Section WithCache.
Context {H : Type} `{Countable H}.
Variable _compute_hash : pystr -> H.
Variable model : pystr.

(** The cache answers for [texts], and the texts that miss. *)
Definition cached_of (c : gmap (H * pystr) vector) (texts : list pystr)
    : list (option vector) :=
  map (fun t => c !! cache_key _compute_hash model t) texts.

Definition misses_of (c : gmap (H * pystr) vector) (texts : list pystr)
    : list pystr :=
  List.filter (fun t => is_none (c !! cache_key _compute_hash model t)) texts.

(** The vector a text is expected to get: the cached one if there is
    one, else the one the service computes, [emb]. *)
Definition expected (emb : pystr -> vector) (c : gmap (H * pystr) vector)
    (t : pystr) : vector :=
  default (emb t) (c !! cache_key _compute_hash model t).

(** The cache never contradicts the expected vectors of the texts
    [universe], and it has only grown since [c0]. *)
Definition cache_inv (emb : pystr -> vector) (universe : list pystr)
    (c0 c : gmap (H * pystr) vector) : Prop :=
  forall t, In t universe ->
    match c !! cache_key _compute_hash model t with
    | Some v => v = expected emb c0 t
    | None => c0 !! cache_key _compute_hash model t = None
    end.

(** What a suspended task holds agrees with the vectors expected for
    its batch. *)
Definition task_ok (emb : pystr -> vector) (universe : list pystr)
    (c0 : gmap (H * pystr) vector) (batch : list pystr) (s : task_state) : Prop :=
  let holds cached ts :=
    stitch cached (map emb ts) = map (fun t => Some (expected emb c0 t)) batch /\
    count_none cached = length ts /\
    Forall (fun m => In m universe /\ c0 !! cache_key _compute_hash model m = None) ts in
  match s with
  | Waiting => True
  | Acquired => True
  | Posting cached ts _ => holds cached ts
  | Storing cached ts new_embeddings => new_embeddings = map emb ts /\ holds cached ts
  | Done r => r = inr (map (fun t => Some (expected emb c0 t)) batch)
  end.

(** The same for all tasks of a call, with the book-keeping of the
    finished ones. *)
Definition pool_ok (emb : pystr -> vector) (universe : list pystr)
    (c0 : gmap (H * pystr) vector) (batches : list (list pystr)) (p : pool) : Prop :=
  length (states p) = length batches /\
  (forall i s b, states p !! i = Some s -> batches !! i = Some b ->
                 task_ok emb universe c0 b s) /\
  NoDup (finished p) /\
  (forall i, In i (finished p) <-> exists r, states p !! i = Some (Done r)).
End WithCache.

(** How the retry loop ends after [k] requests with the input [texts],
    of which the first was request [n]: a value returned is read off
    the last answer, which is a 200; an exception follows a last answer
    that is none, or no request at all. *)
Definition last_answer (server : nat -> list pystr -> response)
    (texts : list pystr) (n k : nat) (r : error + list vector) : Prop :=
  match r with
  | inr fresh =>
    exists k' data, k = S k' /\ server (n + k')%nat texts = Ok200 data /\
                    fresh = extract_embeddings data
  | inl _ =>
    k = 0%nat \/
    exists k', k = S k' /\ forall data, server (n + k')%nat texts <> Ok200 data
  end.

(** A service that answers every request with the vectors [emb] of its
    inputs, each tagged with its index, in any order. *)
Definition faithful (server : nat -> list pystr -> response)
    (emb : pystr -> vector) : Prop :=
  forall n ts, exists data,
    server n ts = Ok200 data /\ Permutation data (indexed (map emb ts)).

End EmbedderSpec.

(** A small environment on which the client can be run: the hash of a
    text is the text itself, the service embeds a text as its length and
    lists its [data] entries in reverse order. *)
Module EmbedderExample.
Import Embedder EmbedderSpec.

Definition hash (t : pystr) : pystr := t.
Definition emb (t : pystr) : vector := [inject_Z (len t)].
Definition server (n : nat) (ts : list pystr) : response :=
  Ok200 (rev (indexed (map emb ts))).
Definition model : pystr := py "embedding-model".
Definition texts : list pystr := [py "a"; py "bb"; py "ccc"].

Definition w_empty : @world pystr _ _ := World ∅ [].

(** [T0 = "a"] and [T2 = "ccc"] are cached, [T1 = "bb"] is not. *)
Definition w_cached : @world pystr _ _ :=
  World (<[(hash (py "ccc"), model) := [inject_Z 30]]>
           (<[(hash (py "a"), model) := [inject_Z 10]]> ∅)) [].

End EmbedderExample.

(** ** models/document.py *)

Inductive source_kind : Type := Local | Web.

Record DocumentChunk : Type := {
  dc_chunk_id : pystr;
  dc_document_id : pystr;
  dc_content : pystr;
  dc_chunk_index : Z;
  dc_start_pos : Z;
  dc_end_pos : Z;
  dc_embedding : option Embedder.vector
}.

Record SearchResult : Type := {
  sr_content : pystr;
  sr_file_path : pystr;
  sr_title : pystr;
  sr_score : Q;
  sr_source : source_kind;
  sr_chunk_id : option pystr;
  sr_tags : list pystr;
  sr_backlinks : list pystr;
  sr_created_at : option Z;
  sr_url : option pystr
}.

(** ** database/vector_store.py *)

Module VectorStore.
Import Embedder.

Inductive error : Type :=
| AttributeError      (* [self.index] is [None] *)
| ValueError          (* [np.array]: the embeddings do not form a float matrix *)
| AssertionError      (* FAISS: wrong dimension, or [k] not positive *)
| IndexError
| FileNotFoundError.

(** The object: [self.index] with the rows it holds, and [self.chunk_ids]. *)
Record store : Type := Store {
  index : option (list vector);
  chunk_ids : list pystr
}.

(** The two files next to each other on disk: the FAISS index and the
    pickled id list. *)
Record disk : Type := Disk {
  index_file : option (list vector);
  mapping_file : option (list pystr)
}.

Section WithFaiss.
(** [self.dimension] *)
Variable dimension : nat.
(** [faiss.normalize_L2] on one row of the float32 matrix. *)
Variable normalize_L2 : vector -> vector.
(** [IndexFlatIP.search(query, k)] over the stored rows: [k] pairs of
    score and position, position [-1] where there is no result. *)
Variable index_search : list vector -> vector -> Z -> list (Q * Z).

(** [__init__] *)
Definition init : store := Store None [].

Definition create_index (st : store) : store := Store (Some []) [].

(** [self.index.ntotal] *)
Definition ntotal (rows : list vector) : Z := len rows.

(** [add_vectors]: the new state, or the exception raised; the fields
    are assigned only after [self.index.add] went through. *)
Definition add_vectors (st : store) (chunks : list DocumentChunk) : error + store :=
  match chunks with
  | [] => inr st
  | _ :: _ =>
    match (mapM dc_embedding chunks : option (list vector)) with
    | None => inl ValueError
    | Some vectors =>
      if negb (forallb (fun v => (length v =? length (hd [] vectors))%nat) vectors)
      then inl ValueError
      else
        match index st with
        | None => inl AttributeError
        | Some rows =>
          if forallb (fun v => (length v =? dimension)%nat) vectors
          then inr (Store (Some (rows ++ map normalize_L2 vectors))
                          (chunk_ids st ++ map dc_chunk_id chunks))
          else inl AssertionError
        end
    end
  end.

(** [l[i]] with Python's negative indices. *)
Definition getitem {A} (l : list A) (i : Z) : option A :=
  if i <? 0 then
    if i + len l <? 0 then None else l !! Z.to_nat (i + len l)
  else l !! Z.to_nat i.

(** The loop that builds [results] in [search]. *)
Fixpoint collect (ids : list pystr) (found : list (Q * Z))
    : error + list (pystr * Q) :=
  match found with
  | [] => inr []
  | (score, idx) :: found' =>
    if negb (idx =? -1) && (idx <? len ids) then
      match getitem ids idx with
      | None => inl IndexError
      | Some cid =>
        match collect ids found' with
        | inl e => inl e
        | inr rest => inr ((cid, score) :: rest)
        end
      end
    else collect ids found'
  end.

(** [search].  [self.index.search(query, k)] asserts, in this order,
    that the row [query] has the dimension of the index, which
    [create_index] makes with [self.dimension], and that [k] is
    positive; [np.array] and [normalize_L2] take a row of any length. *)
Definition search (st : store) (query_vector : vector) (top_k : Z)
    : error + list (pystr * Q) :=
  match index st with
  | None => inr []
  | Some rows =>
    if ntotal rows =? 0 then inr []
    else
      let k := Z.min top_k (ntotal rows) in
      if negb (length query_vector =? dimension)%nat then inl AssertionError
      else if k <=? 0 then inl AssertionError
      else collect (chunk_ids st) (index_search rows (normalize_L2 query_vector) k)
  end.

(** [save]: nothing is written without an index. *)
Definition save (st : store) (d : disk) : disk :=
  match index st with
  | None => d
  | Some rows => Disk (Some rows) (Some (chunk_ids st))
  end.

(** [load]: the returned flag, or the exception of [open], and the
    state afterwards. *)
Definition load (st : store) (d : disk) : (error + bool) * store :=
  match index_file d with
  | None => (inr false, st)
  | Some rows =>
    match mapping_file d with
    | None => (inl FileNotFoundError, Store (Some rows) (chunk_ids st))
    | Some ids => (inr true, Store (Some rows) ids)
    end
  end.

Definition is_empty (st : store) : bool :=
  match index st with
  | None => true
  | Some rows => ntotal rows =? 0
  end.

Definition get_size (st : store) : Z :=
  match index st with
  | Some rows => ntotal rows
  | None => 0
  end.

(** Calls that the indexer makes on the store. *)
Inductive op : Type :=
| OpCreate
| OpAdd (chunks : list DocumentChunk).

(** The state after a call; an exception leaves it as it was. *)
Definition step (st : store) (o : op) : store :=
  match o with
  | OpCreate => create_index st
  | OpAdd chunks =>
    match add_vectors st chunks with
    | inr st' => st'
    | inl _ => st
    end
  end.

Definition run (ops : list op) (st : store) : store := fold_left step ops st.

End WithFaiss.

End VectorStore.

(** ** services/indexer.py: [load_index] *)

Module Indexer.

Inductive log_level : Type := INFO | WARNING | ERROR.

(** How a call of [load_index] ends: the value it returns to its caller
    or the exception it lets through, the level of the line it writes to
    the log, and the store afterwards. *)
Record load_index_end : Type := LoadIndexEnd {
  returned : VectorStore.error + unit;
  logged : list log_level;
  store_after : VectorStore.store
}.

(** [load_index]: the flag of [self.vector_store.load()] decides the
    line that is logged and goes no further; the method returns [None]
    on both branches. *)
Definition load_index (st : VectorStore.store) (d : VectorStore.disk) : load_index_end :=
  match VectorStore.load st d with
  | (inl e, st') => LoadIndexEnd (inl e) [] st'
  | (inr success, st') => LoadIndexEnd (inr tt) [if success then INFO else ERROR] st'
  end.

End Indexer.

(** ** services/retriever.py *)

Module Retriever.
Import Embedder.

(** [a < b] and [a >= b] on scores. *)
Definition Qltb (a b : Q) : bool := negb (Qle_bool b a).
Definition Qgeb (a b : Q) : bool := Qle_bool b a.

(** [settings.search.time_decay] *)
Record TimeDecayConfig : Type := {
  recent_months : Z;
  recent_boost : Q;
  old_years : Z;
  old_penalty : Q
}.

(** What [_get_chunk_data_with_context] returns for a chunk. *)
Record chunk_data : Type := {
  cd_content : pystr;
  cd_extended_content : pystr;
  cd_file_path : pystr;
  cd_title : pystr;
  cd_tags : list pystr;
  cd_backlinks : list pystr;
  cd_created_at : option Z;
  cd_modified_at : option Z
}.

(** An item returned by the web search adapter; a key may be absent. *)
Record web_item : Type := {
  wi_title : option pystr;
  wi_url : option pystr;
  wi_snippet : option pystr;
  wi_content : option pystr
}.

(** The stop words of [_calculate_title_boost]. *)
Definition stopwords : list pystr :=
  map py ["的"; "了"; "和"; "是"; "在"; "有"; "我"; "你"; "他"; "她"; "它";
          "the"; "a"; "an"; "and"; "or"; "but"; "in"; "on"; "at"; "to"; "for";
          "告诉"; "笔记"; "中"; "哪些"; "相关"; "信息"; "关于"; "有关"; "么"; "吗"]%string.

(** The class [[\s，。！？、]] *)
Definition is_separator (c : N) : bool :=
  (is_space c || (c =? 65292) || (c =? 12290) || (c =? 65281) || (c =? 65311)
   || (c =? 12289))%N.

(** [re.split(r'[\s，。！？、]+', s)]: the pieces between maximal runs
    of separators, empty pieces at the ends included. *)
Fixpoint re_split_go (s cur : pystr) (in_run : bool) : list pystr :=
  match s with
  | [] => [rev cur]
  | c :: s' =>
    if is_separator c then
      if in_run then re_split_go s' cur true
      else rev cur :: re_split_go s' [] true
    else re_split_go s' (c :: cur) false
  end.

Definition re_split (s : pystr) : list pystr := re_split_go s [] false.

(** [s.isascii()] *)
Definition isascii (s : pystr) : bool := forallb (fun c => (c <? 128)%N) s.

(** [sub in s] *)
Fixpoint contains (sub s : pystr) : bool :=
  starts_with sub s ||
  match s with
  | [] => false
  | _ :: s' => contains sub s'
  end.

Definition mem (w : pystr) (l : list pystr) : bool := existsb (str_eqb w) l.

(** [set.add] *)
Definition set_add (w : pystr) (kws : list pystr) : list pystr :=
  if mem w kws then kws else kws ++ [w].

(** The guarded [query_keywords.add(word)] of the n-gram branch. *)
Definition add_word (word : pystr) (kws : list pystr) : list pystr :=
  if negb (mem word stopwords) && negb (isascii word) then set_add word kws else kws.

(** [for i in range(len(token))]: [t] is [token[i:]]. *)
Fixpoint add_ngrams (t : pystr) (kws : list pystr) : list pystr :=
  match t with
  | [] => kws
  | _ :: t' =>
    let kws2 := if (2 <=? length t)%nat then add_word (firstn 2 t) kws else kws in
    let kws3 := if (3 <=? length t)%nat then add_word (firstn 3 t) kws2 else kws2 in
    add_ngrams t' kws3
  end.

(** The body of [for token in tokens]. *)
Definition add_token (kws : list pystr) (token0 : pystr) : list pystr :=
  let token := strip token0 in
  match token with
  | [] => kws
  | _ :: _ =>
    if isascii token && (2 <=? length token)%nat then
      if negb (mem token stopwords) then set_add token kws else kws
    else add_ngrams token kws
  end.

(** [query_keywords] for the lower-cased query. *)
Definition keywords (query_lower : pystr) : list pystr :=
  fold_left add_token (re_split query_lower) [].

(** [matched_count] *)
Definition matched_count (kws : list pystr) (title_lower : pystr) : nat :=
  length (List.filter (fun keyword => contains keyword title_lower) kws).

Section WithCase.
(** [str.lower] *)
Variable lower : pystr -> pystr.

Definition _calculate_title_boost (query title : pystr) : Q :=
  match title, query with
  | [], _ => 1%Q
  | _, [] => 1%Q
  | _ :: _, _ :: _ =>
    let query_lower := lower query in
    let title_lower := lower title in
    let query_keywords := keywords query_lower in
    match query_keywords with
    | [] => 1%Q
    | _ :: _ =>
      let coverage :=
        (inject_Z (Z.of_nat (matched_count query_keywords title_lower))
         / inject_Z (Z.of_nat (length query_keywords)))%Q in
      (1 + coverage)%Q
    end
  end.
End WithCase.

(** Microseconds in [timedelta(days=d)]. *)
Definition days (d : Z) : Z := d * 86400000000.

(** [_calculate_time_decay]; [now] is [datetime.now()], times are in
    microseconds. *)
Definition _calculate_time_decay (cfg : TimeDecayConfig) (now : Z)
    (modified_at : option Z) : Q :=
  match modified_at with
  | None => 1%Q
  | Some m =>
    let delta := now - m in
    if delta <? days (recent_months cfg * 30) then recent_boost cfg
    else if delta >? days (old_years cfg * 365) then old_penalty cfg
    else 1%Q
  end.

(** [results.sort(key=lambda x: x.score, reverse=True)] *)
Definition sort_by_score (results : list SearchResult) : list SearchResult :=
  stable_sort (fun a b => Qltb (sr_score b) (sr_score a)) results.

Section WithServices.
Variable lower : pystr -> pystr.
(** [self.time_decay_config], [self.similarity_threshold], [datetime.now()] *)
Variable time_decay_config : TimeDecayConfig.
Variable similarity_threshold : Q.
Variable now : Z.
(** The metadata store read by [_get_chunk_data_with_context], with
    the configured context window. *)
Variable _get_chunk_data_with_context : pystr -> option chunk_data.
(** [self.web_search.search(query, max_results)] *)
Variable web_search : pystr -> Z -> list web_item.
(** [self.dimension] and FAISS, as in [VectorStore]. *)
Variable dimension : nat.
Variable normalize_L2 : vector -> vector.
Variable index_search : list vector -> vector -> Z -> list (Q * Z).

(** The result built for one hit that passes both tests. *)
Definition local_result (query chunk_id : pystr) (similarity_score : Q)
    (cd : chunk_data) : SearchResult :=
  let time_weight := _calculate_time_decay time_decay_config now (cd_modified_at cd) in
  let title_boost := _calculate_title_boost lower query (cd_title cd) in
  let final_score := (similarity_score * time_weight * title_boost)%Q in
  {| sr_content := cd_extended_content cd;
     sr_file_path := cd_file_path cd;
     sr_title := cd_title cd;
     sr_score := final_score;
     sr_source := Local;
     sr_chunk_id := Some chunk_id;
     sr_tags := cd_tags cd;
     sr_backlinks := cd_backlinks cd;
     sr_created_at := cd_created_at cd;
     sr_url := None |}.

(** [for chunk_id, similarity_score in vector_results] *)
Fixpoint score_hits (query : pystr) (vector_results : list (pystr * Q))
    (results : list SearchResult) : list SearchResult :=
  match vector_results with
  | [] => results
  | (chunk_id, similarity_score) :: rest =>
    match _get_chunk_data_with_context chunk_id with
    | Some cd =>
      if Qgeb similarity_score similarity_threshold
      then score_hits query rest
             (results ++ [local_result query chunk_id similarity_score cd])
      else score_hits query rest results
    | None => score_hits query rest results
    end
  end.

(** [results[:top_k]] for [0 < top_k] *)
Definition take_top {A} (top_k : Z) (l : list A) : list A := firstn (Z.to_nat top_k) l.

(** [local_search]; [query_vector] is the value of
    [await self.embedder.embed_query(query)], which is only requested
    when [top_k > 0]. *)
Definition local_search (st : VectorStore.store) (query : pystr)
    (query_vector : vector) (top_k : Z) : VectorStore.error + list SearchResult :=
  if top_k <=? 0 then inr []
  else
    match VectorStore.search dimension normalize_L2 index_search st query_vector
            (top_k * 3) with
    | inl e => inl e
    | inr [] => inr []
    | inr vector_results =>
      inr (take_top top_k (sort_by_score (score_hits query vector_results [])))
    end.

(** [item.get('content', '') or item.get('snippet', '')] *)
Definition item_content (item : web_item) : pystr :=
  match default [] (wi_content item) with
  | [] => default [] (wi_snippet item)
  | c => c
  end.

Definition web_result (item : web_item) : SearchResult :=
  {| sr_content := item_content item;
     sr_file_path := [];
     sr_title := default [] (wi_title item);
     sr_score := 0.5%Q;
     sr_source := Web;
     sr_chunk_id := None;
     sr_tags := [];
     sr_backlinks := [];
     sr_created_at := None;
     sr_url := Some (default [] (wi_url item)) |}.

(** [web_search_async] *)
Definition web_search_async (query : pystr) (top_k : Z) : list SearchResult :=
  map web_result (web_search query top_k).

(** [hybrid_search] from the two budgets on: [local_k] and [network_k]
    are the integers [int(20 * local_ratio)] and
    [int(20 * (1 - local_ratio))], computed in floating point by the
    caller side of this definition. *)
Definition hybrid_search (st : VectorStore.store) (query : pystr)
    (query_vector : vector) (local_k network_k : Z)
    : VectorStore.error + list SearchResult :=
  match (if local_k >? 0 then local_search st query query_vector local_k else inr []) with
  | inl e => inl e
  | inr local_results =>
    let web_results :=
      if network_k >? 0 then web_search_async query network_k else [] in
    let all_results := local_results ++ web_results in
    inr (sort_by_score all_results)
  end.

End WithServices.

(** [str.lower] and [str.upper], exact on Basic Latin and the Latin-1
    Supplement (code points up to U+00FF); code points above are left as
    they are, which is what Python does for uncased scripts such as CJK. *)
Definition lower_cp (c : N) : list N :=
  (if (65 <=? c) && (c <=? 90) then [c + 32]
   else if (192 <=? c) && (c <=? 222) && negb (c =? 215) then [c + 32]
   else [c])%N.

Definition upper_cp (c : N) : list N :=
  (if (97 <=? c) && (c <=? 122) then [c - 32]
   else if (224 <=? c) && (c <=? 254) && negb (c =? 247) then [c - 32]
   else if c =? 223 then [83; 83]
   else if c =? 181 then [924]
   else if c =? 255 then [376]
   else [c])%N.

Definition py_lower (s : pystr) : pystr := flat_map lower_cp s.
Definition py_upper (s : pystr) : pystr := flat_map upper_cp s.

End Retriever.

(** Reference notions for the store and the retriever. *)
Module RetrieverSpec.
Import Embedder Retriever.

(** The index holds as many vectors as the id list has entries. *)
Definition counts_agree (st : VectorStore.store) : Prop :=
  VectorStore.get_size st = len (VectorStore.chunk_ids st).

Section WithServices.
Variable lower : pystr -> pystr.
Variable time_decay_config : TimeDecayConfig.
Variable similarity_threshold : Q.
Variable now : Z.
Variable _get_chunk_data_with_context : pystr -> option chunk_data.

(** The hits that survive: those whose chunk is known and whose raw
    similarity reaches the threshold, each with its result, in the
    order of the hits. *)
Definition survivors (query : pystr) (hits : list (pystr * Q)) : list SearchResult :=
  omap (fun hit : pystr * Q =>
          match _get_chunk_data_with_context (fst hit) with
          | Some cd =>
            if Qgeb (snd hit) similarity_threshold
            then Some (local_result lower time_decay_config now query
                         (fst hit) (snd hit) cd)
            else None
          | None => None
          end) hits.
End WithServices.

(** Descending by score. *)
Definition descending (l : list SearchResult) : Prop :=
  StronglySorted (fun a b => (sr_score b <= sr_score a)%Q) l.

(** The results of the local side, the front part of [all_results]. *)
Definition local_side (r : SearchResult) : bool :=
  match sr_source r with Local => true | Web => false end.

End RetrieverSpec.

(** An environment on which the retriever can be run. *)
Module RetrieverExample.
Import Embedder Retriever.

Definition cfg : TimeDecayConfig :=
  {| recent_months := 3; recent_boost := 1.5%Q; old_years := 1; old_penalty := 0.8%Q |}.

Definition note (title : pystr) (modified_at : Z) : chunk_data :=
  {| cd_content := py "text"; cd_extended_content := py "text with context";
     cd_file_path := title; cd_title := title; cd_tags := []; cd_backlinks := [];
     cd_created_at := None; cd_modified_at := Some modified_at |}.

(** Three chunks: a recent note on Logseq, a note of middle age, and a
    chunk id without metadata. *)
Definition metadata (chunk_id : pystr) : option chunk_data :=
  if str_eqb chunk_id (py "d1_chunk_0") then Some (note (py "Logseq tips") (days 990))
  else if str_eqb chunk_id (py "d2_chunk_0") then Some (note (py "Cooking") (days 800))
  else None.

Definition now : Z := days 1000.

Definition page : web_item :=
  {| wi_title := Some (py "Logseq docs"); wi_url := Some (py "https://logseq.com");
     wi_snippet := Some (py "snippet"); wi_content := None |}.

Definition web (query : pystr) (max_results : Z) : list web_item := [page].

(** A store with three rows, and a stand-in for FAISS that reports
    fixed scores for them. *)
Definition st : VectorStore.store :=
  VectorStore.Store (Some [[1%Q]; [1%Q]; [1%Q]])
    [py "d1_chunk_0"; py "d2_chunk_0"; py "gone_chunk_0"].

Definition faiss (rows : list vector) (q : vector) (k : Z) : list (Q * Z) :=
  [(0.9%Q, 2); (0.7%Q, 1); (0.5%Q, 0); (0%Q, -1)].

Definition query : pystr := py "Logseq usage".

(** The result expected for the one surviving hit, [d2_chunk_0] with
    similarity 0.7. *)
Definition cooking : SearchResult :=
  local_result py_lower cfg now query (py "d2_chunk_0") 0.7%Q
    (note (py "Cooking") (days 800)).

Definition chunk (cid : pystr) (e : vector) : DocumentChunk :=
  {| dc_chunk_id := cid; dc_document_id := py "d"; dc_content := py "c";
     dc_chunk_index := 0; dc_start_pos := 0; dc_end_pos := 1;
     dc_embedding := Some e |}.

(** The same notes some years later, when the note on cooking is old,
    and a stand-in for FAISS that finds both. *)
Definition archive (chunk_id : pystr) : option chunk_data :=
  if str_eqb chunk_id (py "d1_chunk_0") then Some (note (py "Logseq tips") (days 990))
  else if str_eqb chunk_id (py "d2_chunk_0") then Some (note (py "Cooking") (days 100))
  else None.

Definition faiss_both (rows : list vector) (q : vector) (k : Z) : list (Q * Z) :=
  [(0.8%Q, 0); (0.6%Q, 1); (0%Q, -1)].

(** Their results: [0.8 * 1.5 * 1.5] for the recent note whose title
    matches, [0.6 * 0.8 * 1] for the old one. *)
Definition tips : SearchResult :=
  local_result py_lower cfg now query (py "d1_chunk_0") 0.8%Q
    (note (py "Logseq tips") (days 990)).

Definition cooking_old : SearchResult :=
  local_result py_lower cfg now query (py "d2_chunk_0") 0.6%Q
    (note (py "Cooking") (days 100)).

End RetrieverExample.

(** ** utils/markdown_parser.py: further notions *)

(** Notions in which the chunking properties are stated. *)
Module ChunkingSpec.
Import MarkdownParser.

(** Only white space. *)
Definition blank (s : pystr) : Prop := Forall (fun c => is_space c = true) s.

(** A chunk whose text has at least [mn] characters. *)
Definition long_enough (mn : Z) (c : chunk) : Prop := mn <= len (fst (fst c)).

(** Characters of the pieces, with one separator counted per piece. *)
Definition weight (sep : pystr) (ps : list pystr) : nat :=
  list_sum (map (fun p => length p + length sep)%nat ps).

(** A chunk starts at a position that is not negative and spans at
    least as many positions as its text has characters. *)
Definition span_ok (c : chunk) : Prop :=
  let '(t, a, b) := c in 0 <= a /\ len t <= b - a.

End ChunkingSpec.

(** Contents on which the chunking is run below. *)
Module ChunkingExample.

(** Two paragraphs and a short rest. *)
Definition two_paragraphs : pystr :=
  py "alpha beta." ++ NL2 ++ py "gamma delta." ++ NL2 ++ py "xy".

(** One paragraph of 65 characters. *)
Definition long_paragraph : pystr :=
  py "One two three. Four five six seven. Eight nine ten eleven twelve.".

(** Blanks, tabs and line feeds. *)
Definition white : pystr := [32; 32; 10; 10; 32; 9; 32; 10; 10]%N.

End ChunkingExample.

(** ** utils/markdown_parser.py: links and tags *)

Module MarkdownSyntax.

(** The longest prefix of [s] whose characters satisfy [p], and the
    rest: what a greedy [[...]+] consumes when nothing after it makes
    it give characters back. *)
Fixpoint span (p : N -> bool) (s : pystr) : pystr * pystr :=
  match s with
  | c :: s' =>
    if p c then let (a, b) := span p s' in (c :: a, b) else ([], s)
  | [] => ([], [])
  end.

(** [pattern.findall(s)] for a pattern with one group whose matches are
    not empty.  [m at_start s] is the match that begins at the head of
    [s], as its group and its length; [at_start] tells whether the head
    of [s] is the beginning of the whole string.  After a match the
    search goes on behind it: [skip] counts the characters of the match
    that are still to be passed. *)
Fixpoint findall_go (m : bool -> pystr -> option (pystr * nat))
    (at_start : bool) (s : pystr) (skip : nat) : list pystr :=
  match s with
  | [] => []
  | _ :: s' =>
    match skip with
    | S k => findall_go m false s' k
    | O =>
      match m at_start s with
      | Some (g, n) => g :: findall_go m false s' (n - 1)
      | None => findall_go m false s' 0
      end
    end
  end.

Definition findall (m : bool -> pystr -> option (pystr * nat)) (s : pystr)
    : list pystr :=
  findall_go m true s 0.

Definition LBRACKET : N := 91.
Definition RBRACKET : N := 93.
Definition HASH : N := 35.

(** [BACKLINK_PATTERN = \[\[([^\]]+)\]\]] at the head of [s].  The class
    excludes [']'], so the group is the whole run up to the next [']'],
    and the match exists when that run is not empty and ["]]"] follows. *)
Definition match_backlink (at_start : bool) (s : pystr) : option (pystr * nat) :=
  match s with
  | c0 :: c1 :: s' =>
    if ((c0 =? LBRACKET) && (c1 =? LBRACKET))%N then
      let (name, rest) := span (fun c => negb (c =? RBRACKET)%N) s' in
      match name, rest with
      | _ :: _, d0 :: d1 :: _ =>
        if ((d0 =? RBRACKET) && (d1 =? RBRACKET))%N
        then Some (name, (length name + 4)%nat)
        else None
      | _, _ => None
      end
    else None
  | _ => None
  end.

(** The class [[a-zA-Z0-9_一-龥]]. *)
Definition is_tag_char (c : N) : bool :=
  ((97 <=? c) && (c <=? 122) || (65 <=? c) && (c <=? 90)
   || (48 <=? c) && (c <=? 57) || (c =? 95)
   || (19968 <=? c) && (c <=? 40869))%N.

(** The rest of [TAG_PATTERN] after [(?:^|\s)]: [#] and the group. *)
Definition match_hash_tag (s : pystr) (before : nat) : option (pystr * nat) :=
  match s with
  | c :: s' =>
    if (c =? HASH)%N then
      match fst (span is_tag_char s') with
      | [] => None
      | tag => Some (tag, (before + 1 + length tag)%nat)
      end
    else None
  | [] => None
  end.

(** [TAG_PATTERN = (?:^|\s)#([a-zA-Z0-9_一-龥]+)] at the head of
    [s]: first the alternative [^], which holds only at the beginning of
    the string, then the alternative [\s]. *)
Definition match_tag (at_start : bool) (s : pystr) : option (pystr * nat) :=
  match (if at_start then match_hash_tag s 0 else None) with
  | Some r => Some r
  | None =>
    match s with
    | c :: s' => if is_space c then match_hash_tag s' 1 else None
    | [] => None
    end
  end.

(** [extract_backlinks] and [extract_tags] return [list(set(matches))]:
    the distinct matches, in an order that Python does not fix.  They
    are modelled by the set. *)
Definition extract_backlinks (content : pystr) : gset pystr :=
  list_to_set (findall match_backlink content).

Definition extract_tags (content : pystr) : gset pystr :=
  list_to_set (findall match_tag content).

End MarkdownSyntax.

(** A note on which the two patterns are run below. *)
Module SyntaxExample.
Definition note : pystr := py "#todo see [[Page A]] and [[B]] #bug-1".
End SyntaxExample.

(** ** services/embedder.py: further notions *)

Module ClientSpec.
Import Embedder.

(** The exception with which [_embed_batch] ends when the last attempt
    got the response [r]; a 429 at the last attempt leaves the loop and
    reaches the final [raise RuntimeError]. *)
Definition last_error (r : response) : error :=
  match r with
  | Ok200 _ => RuntimeError
  | Status429 => RuntimeError
  | StatusOther => HTTPStatusError
  | TimedOut => TimeoutException
  | Failed => OtherException
  end.

Definition is_ok (r : response) : bool :=
  match r with Ok200 _ => true | _ => false end.

(** The number of responses before the first 200. *)
Fixpoint failed_attempts (answers : list response) : nat :=
  match answers with
  | r :: answers' => if is_ok r then 0%nat else S (failed_attempts answers')
  | [] => 0%nat
  end.

(** The book-keeping of the finished tasks: each is listed once, and
    the listed ones are those that reached their end. *)
Definition book_ok (p : pool) : Prop :=
  NoDup (finished p) /\
  forall i, In i (finished p) <-> exists r, states p !! i = Some (Done r).

(** A task that has not posted anything: it waits, looks up the cache,
    or has ended with the answers [out] of the cache. *)
Definition quiet (out : list (option vector)) (s : task_state) : Prop :=
  s = Waiting \/ s = Acquired \/ s = Done (inr out).

Section WithCache.
Context {H : Type} `{Countable H}.
Variable _compute_hash : pystr -> H.
Variable model : pystr.

(** The texts of a task that is past the cache lookup are in the cache
    or among the texts it posts; those of a finished task are in the
    cache. *)
Definition covered (c : gmap (H * pystr) vector) (batch : list pystr)
    (s : task_state) : Prop :=
  let cached t := is_Some (c !! cache_key _compute_hash model t) in
  match s with
  | Waiting | Acquired => True
  | Posting _ ts _ | Storing _ ts _ => forall t, In t batch -> cached t \/ In t ts
  | Done _ => forall t, In t batch -> cached t
  end.
End WithCache.

End ClientSpec.

(** A service that answers every request with the vector of its first
    text only. *)
Module ClientExample.
Import Embedder EmbedderSpec EmbedderExample.

Definition short_server (n : nat) (ts : list pystr) : response :=
  Ok200 (indexed (map emb (firstn 1 ts))).

(** The cache of [w_cached], after two requests that went out before. *)
Definition cached_texts : list pystr := [py "a"; py "ccc"].

Definition other_model : pystr := py "another-model".

End ClientExample.

(** ** database/vector_store.py: further notions *)

Module VectorStoreSpec.
Import Embedder.

(** What the result loop of [search] keeps of the pairs that FAISS
    reports: for each pair whose position is a position of the id list,
    the id at that position with the score, in the order of the pairs. *)
Definition hits (ids : list pystr) (found : list (Q * Z)) : list (pystr * Q) :=
  omap (fun hit : Q * Z =>
          if (0 <=? snd hit) && (snd hit <? len ids)
          then (fun cid => (cid, fst hit)) <$> ids !! Z.to_nat (snd hit)
          else None) found.

End VectorStoreSpec.

(** ** Chunk ids: services/indexer.py and services/retriever.py *)

Module ChunkIds.

(** The digits of a decimal number, most significant first. *)
Fixpoint uint_cps (u : Decimal.uint) : pystr :=
  match u with
  | Decimal.Nil => []
  | Decimal.D0 u' => 48%N :: uint_cps u'
  | Decimal.D1 u' => 49%N :: uint_cps u'
  | Decimal.D2 u' => 50%N :: uint_cps u'
  | Decimal.D3 u' => 51%N :: uint_cps u'
  | Decimal.D4 u' => 52%N :: uint_cps u'
  | Decimal.D5 u' => 53%N :: uint_cps u'
  | Decimal.D6 u' => 54%N :: uint_cps u'
  | Decimal.D7 u' => 55%N :: uint_cps u'
  | Decimal.D8 u' => 56%N :: uint_cps u'
  | Decimal.D9 u' => 57%N :: uint_cps u'
  end.

(** [str(idx)] for the index of [enumerate], which is not negative. *)
Definition str_of_nat (idx : nat) : pystr := uint_cps (Nat.to_uint idx).

Definition CHUNK_SEP : pystr := py "_chunk_".

(** [chunk_id = f"{doc_id}_chunk_{idx}"] in [_chunk_document], and
    [ctx_id] in [_get_chunk_data_with_context]. *)
Definition make_chunk_id (doc_id : pystr) (idx : nat) : pystr :=
  doc_id ++ CHUNK_SEP ++ str_of_nat idx.

(** [s.rsplit(sep, 1)] for a non-empty [sep]: the string is cut at the
    last occurrence of [sep], if there is one. *)
Definition rsplit1 (s sep : pystr) : list pystr :=
  let pos := rfind s sep 0 (len s) in
  if pos =? -1 then [s]
  else [slice s 0 pos; slice s (pos + len sep) (len s)].

(** [chunk_id.rsplit('_chunk_', 1)] in [_get_chunk_data] and
    [_get_chunk_data_with_context]. *)
Definition split_chunk_id (chunk_id : pystr) : list pystr :=
  rsplit1 chunk_id CHUNK_SEP.

Definition is_digit (c : N) : bool := ((48 <=? c) && (c <=? 57))%N.

End ChunkIds.

(** ** services/retriever.py: citations and the streamed answer *)

Module Citations.
Import Embedder Retriever.

(** A Python [dict] with [str] keys: the items in insertion order.
    Assigning to a key that is present keeps its place. *)
Fixpoint dict_get {V} (key : pystr) (d : list (pystr * V)) : option V :=
  match d with
  | [] => None
  | (k, v) :: d' => if str_eqb k key then Some v else dict_get key d'
  end.

Fixpoint dict_set {V} (key : pystr) (v : V) (d : list (pystr * V)) : list (pystr * V) :=
  match d with
  | [] => [(key, v)]
  | (k, v0) :: d' =>
    if str_eqb k key then (k, v) :: d' else (k, v0) :: dict_set key v d'
  end.

(** [key = result.url if result.source == "web" else result.file_path],
    and [None] where [if not key: continue] skips the result. *)
Definition citation_key (result : SearchResult) : option pystr :=
  match (match sr_source result with
         | Web => sr_url result
         | Local => Some (sr_file_path result)
         end) with
  | Some (c :: key) => Some (c :: key)
  | _ => None
  end.

(** The body of [for result in results]; [file_map] maps a key to
    [(result, max_score)]. *)
Definition file_map_step (file_map : list (pystr * (SearchResult * Q)))
    (result : SearchResult) : list (pystr * (SearchResult * Q)) :=
  match citation_key result with
  | None => file_map
  | Some key =>
    match dict_get key file_map with
    | Some (_, max_score) =>
      if Qltb max_score (sr_score result)
      then dict_set key (result, sr_score result) file_map
      else file_map
    | None => dict_set key (result, sr_score result) file_map
    end
  end.

(** [[item[0] for item in sorted(file_map.values(), key=lambda x: x[1],
    reverse=True)]] *)
Definition unique_results (results : list SearchResult) : list SearchResult :=
  map fst (stable_sort (fun a b : SearchResult * Q => Qltb (snd b) (snd a))
             (map snd (fold_left file_map_step results []))).

(** A citation: the dict with [id], [title], [source] and, for a local
    result, [file_path], [tags] and [created_at] (the time whose
    [isoformat()] is stored, or [None]), for any other result [url]. *)
Inductive citation : Type :=
| LocalCitation (id : nat) (title file_path : pystr) (tags : list pystr)
    (created_at : option Z)
| OtherCitation (id : nat) (title : pystr) (source : source_kind) (url : option pystr).

Definition citation_id (c : citation) : nat :=
  match c with
  | LocalCitation id _ _ _ _ => id
  | OtherCitation id _ _ _ => id
  end.

Definition cite (numbered : nat * SearchResult) : citation :=
  let (idx, result) := numbered in
  match sr_source result with
  | Local =>
    LocalCitation idx (sr_title result) (sr_file_path result) (sr_tags result)
      (sr_created_at result)
  | Web => OtherCitation idx (sr_title result) (sr_source result) (sr_url result)
  end.

(** [format_citations] *)
Definition format_citations (results : list SearchResult) : list citation :=
  map cite (enumerate_from 1 (unique_results results)).

(** The state of [file_map] once the results [seen] have been
    processed: the keys are distinct; each entry holds a result seen
    with that key, with its score, and no result seen with that key has
    a higher score; every key seen has an entry. *)
Definition file_map_ok (seen : list SearchResult)
    (file_map : list (pystr * (SearchResult * Q))) : Prop :=
  NoDup (map fst file_map) /\
  (forall k r s, In (k, (r, s)) file_map ->
     citation_key r = Some k /\ s = sr_score r /\ In r seen /\
     forall r', In r' seen -> citation_key r' = Some k -> (sr_score r' <= s)%Q) /\
  (forall r k, In r seen -> citation_key r = Some k -> In k (map fst file_map)).

End Citations.

Module Answer.
Import Embedder Retriever.

Section WithLLM.
(** [self.llm.generate_answer(query, local_dicts, web_dicts)]: the
    answer, or [None] when the call raises. *)
Variable generate_answer :
  pystr -> list SearchResult -> list SearchResult -> option pystr.
(** [self.llm._fallback_answer(query, local_dicts, web_dicts)] *)
Variable _fallback_answer :
  pystr -> list SearchResult -> list SearchResult -> pystr.

Definition is_local (r : SearchResult) : bool :=
  match sr_source r with Local => true | Web => false end.

Definition is_web (r : SearchResult) : bool :=
  match sr_source r with Web => true | Local => false end.

(** The pieces [answer[i:i + chunk_size]] for
    [i in range(0, len(answer), chunk_size)]. *)
Definition pieces (answer : pystr) (chunk_size : Z) : list pystr :=
  map (fun i => slice answer i (i + chunk_size)) (range_step (len answer) chunk_size).

(** [format_answer]: the strings that the generator yields, in order. *)
Definition format_answer (query : pystr) (results : list SearchResult) : list pystr :=
  let local_dicts := List.filter is_local results in
  let web_dicts := List.filter is_web results in
  match generate_answer query local_dicts web_dicts with
  | Some answer => pieces answer 10
  | None => [_fallback_answer query local_dicts web_dicts]
  end.

End WithLLM.
End Answer.

(** ** services/retriever.py: the keywords of the title boost *)

Module KeywordSpec.
Import Retriever.

(** A keyword as the extraction admits it: at least two characters,
    not a stop word, and of two or three characters unless it is an
    ASCII token. *)
Definition keyword_ok (k : pystr) : Prop :=
  (2 <= length k)%nat /\ mem k stopwords = false /\
  (isascii k = false -> (length k <= 3)%nat).

Definition keywords_ok (kws : list pystr) : Prop :=
  NoDup kws /\ Forall keyword_ok kws.

End KeywordSpec.

(* ================================================================== *)
(** * Verified properties *)
(* ================================================================== *)

(** ** Facts about the string primitives *)

Module StrFacts.

Lemma len_nonneg {A} (s : list A) : 0 <= len s.
Proof. unfold len. lia. Qed.

Lemma len_app {A} (a b : list A) : len (a ++ b) = len a + len b.
Proof. unfold len. rewrite length_app. lia. Qed.

Lemma lstrip_head s c r : lstrip s = c :: r -> is_space c = false.
Proof.
  induction s as [|a s IH]; simpl; [discriminate|].
  destruct (is_space a) eqn:Ha; [exact IH|].
  intros [= <- _]. exact Ha.
Qed.

Lemma lstrip_fixed c r : is_space c = false -> lstrip (c :: r) = c :: r.
Proof. intros H. simpl. now rewrite H. Qed.

Lemma lstrip_idem s : lstrip (lstrip s) = lstrip s.
Proof.
  induction s as [|a s IH]; simpl; [reflexivity|].
  destruct (is_space a) eqn:Ha; [exact IH|].
  now apply lstrip_fixed.
Qed.

(** Stripping on the left keeps everything from a non-space character on. *)
Lemma lstrip_keeps_tail a c b :
  is_space c = false -> exists a', lstrip (a ++ c :: b) = a' ++ c :: b.
Proof.
  intros Hc. induction a as [|x a IH]; simpl.
  - exists []. now rewrite Hc.
  - destruct (is_space x); [exact IH|]. now exists (x :: a).
Qed.

Lemma rstrip_idem s : rstrip (rstrip s) = rstrip s.
Proof. unfold rstrip. now rewrite rev_involutive, lstrip_idem. Qed.

(** A stripped string is empty or begins with a non-space character. *)
Lemma strip_head s : strip s = [] \/ exists c r, strip s = c :: r /\ is_space c = false.
Proof.
  unfold strip, rstrip.
  destruct (lstrip s) as [|c r] eqn:E; [now left|].
  right. pose proof (lstrip_head _ _ _ E) as Hc.
  simpl rev.
  destruct (lstrip_keeps_tail (rev r) c [] Hc) as [a' Ha'].
  rewrite Ha'. rewrite rev_app_distr. simpl. eauto.
Qed.

Lemma strip_idem s : strip (strip s) = strip s.
Proof.
  destruct (strip_head s) as [E | (c & r & E & Hc)].
  - rewrite E. reflexivity.
  - unfold strip at 1. rewrite E, (lstrip_fixed _ _ Hc), <- E.
    unfold strip. apply rstrip_idem.
Qed.

(** [rfind] answers [-1] or a position inside the window. *)
Lemma rfind_from_range s sub lo n :
  rfind_from s sub lo n = -1 \/
  (lo <= rfind_from s sub lo n < lo + Z.of_nat n).
Proof.
  induction n as [|n IH]; [now left|].
  cbn [rfind_from].
  destruct (starts_with sub (skipn (Z.to_nat (lo + Z.of_nat n)) s)).
  - right. lia.
  - destruct IH as [IH | IH]; [now left | right; lia].
Qed.

Lemma rfind_range s sub a b :
  0 <= a -> 0 <= b ->
  rfind s sub a b = -1 \/ (a <= rfind s sub a b /\ rfind s sub a b + len sub <= b).
Proof.
  intros Ha Hb. unfold rfind.
  assert (E : (a <? 0) = false) by lia. rewrite E.
  match goal with |- context [rfind_from s sub a ?n] =>
    destruct (rfind_from_range s sub a n) as [H | H]; [now left | right] end.
  pose proof (len_nonneg s).
  destruct (b >? len s) eqn:E1; [|destruct (b <? 0) eqn:E2]; lia.
Qed.

(** Non-negative bounds: a slice is a [firstn] of a [skipn]. *)
Lemma slice_nonneg {A} (l : list A) a b :
  0 <= a <= b ->
  slice l a b = firstn (Z.to_nat (b - a)) (skipn (Z.to_nat a) l).
Proof.
  intros Hab. unfold slice, clamp_index.
  assert (Ea : (a <? 0) = false) by lia.
  assert (Eb : (b <? 0) = false) by lia.
  rewrite Ea, Eb.
  destruct (Z_le_gt_dec (len l) a) as [Hge | Hlt].
  - rewrite !skipn_all2 by (unfold len in *; lia). now rewrite !firstn_nil.
  - replace (Z.min a (len l)) with a by lia.
    destruct (Z_le_gt_dec b (len l)) as [Hb | Hb].
    + now replace (Z.min b (len l)) with b by lia.
    + replace (Z.min b (len l)) with (len l) by lia.
      rewrite !firstn_all2; try reflexivity;
        rewrite length_skipn; unfold len in *; lia.
Qed.

Lemma slice_all {A} (l : list A) b : len l <= b -> slice l 0 b = l.
Proof.
  intros Hb. pose proof (len_nonneg l).
  rewrite slice_nonneg by lia. simpl.
  apply firstn_all2. unfold len in *. lia.
Qed.

End StrFacts.

(** ** Properties of the chunker *)

Module ParserProofs.
Import MarkdownParser ParserExample StrFacts.

(** Small-file protection, without reference to the fuel: a text shorter
    than [chunk_size] yields one chunk that spans it, unless nothing is
    left after stripping, in which case no chunk is produced. *)
Lemma chunk_content_small fuel content chunk_size overlap min_chunk_size :
  len content < chunk_size ->
  chunk_content fuel content chunk_size overlap min_chunk_size =
    Some (match strip content with
          | [] => []
          | _ :: _ => [(content, 0, len content)]
          end).
Proof.
  intros H. unfold chunk_content.
  assert (E : (len content <? chunk_size) = true) by lia. rewrite E.
  now destruct (strip content).
Qed.

(** C2 (amended): for every cleaned text, i.e. every result [strip raw]
    of the final step of [clean_content], that is non-empty and strictly
    shorter than [chunk_size], [chunk_content] returns exactly the one
    chunk [(text, 0, len text)]. *)
Theorem chunk_content_small_cleaned fuel raw chunk_size overlap min_chunk_size :
  let content := strip raw in
  content <> [] ->
  len content < chunk_size ->
  chunk_content fuel content chunk_size overlap min_chunk_size =
    Some [(content, 0, len content)].
Proof.
  intros content Hne Hlt.
  rewrite chunk_content_small by exact Hlt.
  unfold content. rewrite strip_idem.
  fold content. now destruct content.
Qed.

(** C2, the empty document: it is shorter than [chunk_size], and no
    chunk is produced for it. *)
Lemma chunk_content_empty_no_chunk :
  len (py "") < 300 /\
  chunk_content 1 (py "") 300 80 100 = Some [] /\
  chunk_content 1 (py "") 300 80 100 <> Some [(py "", 0, len (py ""))].
Proof. split; [reflexivity | split; [reflexivity | discriminate]]. Qed.

Lemma chunk_content_small_cleaned_witness :
  chunk_content 0 (strip (py "  Logseq notes ")) 300 80 100 =
    Some [(py "Logseq notes", 0, 12)].
Proof.
  apply (chunk_content_small_cleaned 0 (py "  Logseq notes ") 300 80 100).
  - discriminate.
  - reflexivity.
Defined.

(** The scenario of the specification: 240 characters, [chunk_size = 300]. *)
Lemma chunk_content_240 fuel raw :
  len (strip raw) = 240 ->
  chunk_content fuel (strip raw) 300 80 100 = Some [(strip raw, 0, 240)].
Proof.
  intros H.
  rewrite chunk_content_small by lia. rewrite strip_idem.
  destruct (strip raw); [discriminate | now rewrite H].
Qed.

(** *** The choice of the cut *)

Section FoldMax.
Variable f : pystr -> Z.

Local Abbreviation keep_best :=
  (fold_left (fun (best : Z) (d : pystr) => if f d >? best then f d else best)).

Lemma fold_pick_ge ds init :
  init <= keep_best ds init /\
  Forall (fun d => f d <= keep_best ds init) ds.
Proof.
  revert init. induction ds as [|d ds IH]; intros init; simpl.
  - split; [lia | constructor].
  - destruct (IH (if f d >? init then f d else init)) as [H1 H2].
    assert (init <= (if f d >? init then f d else init) /\
            f d <= (if f d >? init then f d else init))
      by (destruct (f d >? init) eqn:E; lia).
    split; [lia|]. constructor; [lia | exact H2].
Qed.

Lemma fold_pick_attained ds init :
  keep_best ds init = init \/
  Exists (fun d => keep_best ds init = f d) ds.
Proof.
  revert init. induction ds as [|d ds IH]; intros init; simpl; [now left|].
  destruct (IH (if f d >? init then f d else init)) as [H | H].
  - rewrite H. destruct (f d >? init); [right; now left | now left].
  - right. now right.
Qed.
End FoldMax.

(** What the delimiter loop computes: the highest position at which any
    of the seven delimiters ends a match inside the window; the order of
    the list plays no part. *)
Lemma best_delimiter_pos_max text a b :
  Forall (fun d => rfind text d a b <= best_delimiter_pos text a b) delimiters /\
  (best_delimiter_pos text a b = -1 \/
   Exists (fun d => best_delimiter_pos text a b = rfind text d a b) delimiters).
Proof.
  unfold best_delimiter_pos. split.
  - apply (fold_pick_ge (fun d => rfind text d a b)).
  - apply (fold_pick_attained (fun d => rfind text d a b)).
Qed.

(** C1: on [two_stops] the window [2, 10) of the first iteration holds
    both an ideographic full stop (index 2) and a later ASCII full stop
    (index 5).  The code cuts after the later one, [end = 6]; taking the
    delimiters in priority order cuts after the first, [end = 3]. *)
Theorem chunk_end_ignores_priority :
  rfind two_stops (py "。") 2 10 = 2 /\
  rfind two_stops (py ".") 2 10 = 5 /\
  chunk_end two_stops 0 10 2 = 6 /\
  SplitterSpec.chunk_end_by_priority two_stops 0 10 2 = 3 /\
  _split_large_text 3 two_stops 0 10 0 2 =
    Some [(py "ab。cd.", 0, 6); (py "efghijklmn", 6, 16); (py "op", 16, 18)].
Proof. repeat split; vm_compute; reflexivity. Qed.

(** *** The loop *)

Lemma split_loop_unfold fuel text off cs ov mn s :
  split_loop fuel text off cs ov mn s =
  if ls_start s <? len text then
    match fuel with
    | O => None
    | S fuel' =>
      match split_body text off cs ov mn s with
      | Break chunks => Some chunks
      | Continue s' => split_loop fuel' text off cs ov mn s'
      end
    end
  else Some (ls_chunks s).
Proof. destruct fuel; reflexivity. Qed.

(** A state that the body maps to itself, inside the text, is never left. *)
Lemma split_loop_fixed_state text off cs ov mn s :
  ls_start s < len text ->
  split_body text off cs ov mn s = Continue s ->
  forall fuel, split_loop fuel text off cs ov mn s = None.
Proof.
  intros Hlt Hfix fuel. induction fuel as [|fuel IH];
    rewrite split_loop_unfold;
    assert (E : (ls_start s <? len text) = true) by lia; rewrite E.
  - reflexivity.
  - rewrite Hfix. exact IH.
Qed.

(** C9: on the paragraph [stuck_text] the loop does not exit, with
    [chunk_size = 10], [overlap = 5], [min_chunk_size = 2].  The first pass
    emits [text[0:10]] and moves to [start = 5]; there the cut falls
    after the full stop at index 9, the piece [text[5:10]] strips to one
    character and is dropped, and [end - overlap = 5] is past the start
    of the last emitted chunk (0), so [start] stays 5 for ever. *)
Theorem split_large_text_does_not_exit :
  split_body stuck_text 0 10 5 2 (LoopState 0 []) = Continue stuck_state /\
  split_body stuck_text 0 10 5 2 stuck_state = Continue stuck_state /\
  (forall fuel, _split_large_text fuel stuck_text 0 10 5 2 = None) /\
  (forall fuel, chunk_content fuel stuck_text 10 5 2 = None).
Proof.
  assert (H0 : split_body stuck_text 0 10 5 2 (LoopState 0 []) = Continue stuck_state)
    by (vm_compute; reflexivity).
  assert (H1 : split_body stuck_text 0 10 5 2 stuck_state = Continue stuck_state)
    by (vm_compute; reflexivity).
  assert (H2 : forall fuel, _split_large_text fuel stuck_text 0 10 5 2 = None).
  { intros [|fuel]; [reflexivity|].
    unfold _split_large_text. rewrite split_loop_unfold.
    change (ls_start (LoopState 0 []) <? len stuck_text) with true.
    cbv iota. rewrite H0.
    apply split_loop_fixed_state; [reflexivity | exact H1]. }
  repeat split; try assumption.
  intros fuel.
  change (chunk_content fuel stuck_text 10 5 2)
    with (sub_chunks ← _split_large_text fuel stuck_text 0 10 5 2;
          Some ([] ++ sub_chunks)).
  now rewrite H2.
Qed.

(** The same happens with [overlap >= chunk_size]: eight spaces and a
    letter, [chunk_size = overlap = 4], [min_chunk_size = 1]. *)
Lemma split_large_text_does_not_exit_overlap_4 fuel :
  _split_large_text fuel (py "        x") 0 4 4 1 = None.
Proof.
  unfold _split_large_text.
  apply split_loop_fixed_state; [reflexivity | vm_compute; reflexivity].
Qed.

(** What does hold of the loop: only pieces of at least [min_chunk_size]
    characters are emitted. *)
Lemma split_body_chunks text off cs ov mn s :
  Forall (fun c : chunk => mn <= len (fst (fst c))) (ls_chunks s) ->
  match split_body text off cs ov mn s with
  | Break chunks => Forall (fun c : chunk => mn <= len (fst (fst c))) chunks
  | Continue s' => Forall (fun c : chunk => mn <= len (fst (fst c))) (ls_chunks s')
  end.
Proof.
  intros H. unfold split_body.
  set (e := chunk_end text (ls_start s) cs mn).
  set (t := strip (slice text (ls_start s) e)).
  assert (Hc : Forall (fun c : chunk => mn <= len (fst (fst c)))
                 (if len t >=? mn then ls_chunks s ++ [(t, off + ls_start s, off + e)]
                  else ls_chunks s)).
  { destruct (len t >=? mn) eqn:E; [|exact H].
    apply Forall_app; split; [exact H|]. constructor; [simpl; lia | constructor]. }
  match goal with |- context [if ?c then Break _ else _] => destruct c end; exact Hc.
Qed.

Lemma split_large_text_min_size fuel text off cs ov mn chunks :
  _split_large_text fuel text off cs ov mn = Some chunks ->
  Forall (fun c : chunk => mn <= len (fst (fst c))) chunks.
Proof.
  unfold _split_large_text.
  assert (G : forall s, Forall (fun c : chunk => mn <= len (fst (fst c))) (ls_chunks s) ->
              split_loop fuel text off cs ov mn s = Some chunks ->
              Forall (fun c : chunk => mn <= len (fst (fst c))) chunks).
  { induction fuel as [|fuel IH]; intros s Hs; rewrite split_loop_unfold;
      destruct (ls_start s <? len text); try discriminate;
      try (intros [= <-]; exact Hs).
    pose proof (split_body_chunks text off cs ov mn s Hs) as Hb.
    destruct (split_body text off cs ov mn s) as [s'|cs'].
    - apply IH. exact Hb.
    - intros [= <-]. exact Hb. }
  apply G. constructor.
Qed.

(** *** Exit of the loop when the overlap is small

    With [0 <= overlap < min_chunk_size] and [overlap < chunk_size] (the
    shipped configuration is 80, 100, 300) every pass moves [start]
    forward, so the loop exits within [len text] passes. *)

Lemma chunk_end_cases text start cs mn :
  0 <= start -> 1 <= cs -> 0 <= mn ->
  chunk_end text start cs mn = len text \/
  (start + cs < len text /\
   (start + mn < chunk_end text start cs mn \/
    chunk_end text start cs mn = start + cs)).
Proof.
  intros Hs Hcs Hmn. unfold chunk_end.
  destruct (Z.min (start + cs) (len text) >=? len text) eqn:E; [now left|].
  right. assert (Hlt : start + cs < len text) by lia.
  split; [exact Hlt|].
  replace (Z.min (start + cs) (len text)) with (start + cs) by lia.
  set (a := Z.max (start + mn) (start + cs - 200)).
  assert (Ha : start + mn <= a) by (unfold a; lia).
  set (bp := best_delimiter_pos text a (start + cs)).
  set (sp := rfind text SPACE a (start + cs)).
  assert (Hbp : bp = -1 \/ a <= bp).
  { destruct (best_delimiter_pos_max text a (start + cs)) as [_ [Hb | Hb]]; [now left|].
    apply Exists_exists in Hb. destruct Hb as (d & _ & Hd). fold bp in Hd.
    destruct (rfind_range text d a (start + cs) ltac:(lia) ltac:(lia)) as [Hr | Hr]; lia. }
  assert (Hsp : sp = -1 \/ a <= sp).
  { destruct (rfind_range text SPACE a (start + cs) ltac:(lia) ltac:(lia)) as [Hr | Hr];
      fold sp in Hr; lia. }
  destruct (bp =? -1) eqn:E1; simpl; [|left; lia].
  destruct (sp =? -1) eqn:E2; simpl; [now right | left; lia].
Qed.

Lemma split_body_progress text off cs ov mn s s' :
  0 <= ls_start s < len text ->
  0 <= ov < mn -> ov < cs ->
  split_body text off cs ov mn s = Continue s' ->
  ls_start s < ls_start s'.
Proof.
  intros Hs Hov Hcs. unfold split_body.
  set (e := chunk_end text (ls_start s) cs mn).
  set (chunks := if len _ >=? mn then _ else _).
  set (last_ := last_emitted_start chunks off).
  destruct (chunk_end_cases text (ls_start s) cs mn) as [He | [Hlt He]]; try lia;
    fold e in He.
  - assert (E : (len text - (if e - ov <=? last_ then e else e - ov) <? mn) = true)
      by (destruct (e - ov <=? last_); lia).
    rewrite E. discriminate.
  - destruct (len text - _ <? mn); [discriminate|].
    intros [= <-]. simpl. destruct (e - ov <=? last_); lia.
Qed.

Lemma split_loop_exits text off cs ov mn :
  0 <= ov < mn -> ov < cs ->
  forall fuel s,
    0 <= ls_start s -> len text - ls_start s <= Z.of_nat fuel ->
    is_Some (split_loop fuel text off cs ov mn s).
Proof.
  intros Hov Hcs. induction fuel as [|fuel IH]; intros s H0 Hf;
    rewrite split_loop_unfold;
    destruct (ls_start s <? len text) eqn:E; try (eexists; reflexivity); try lia.
  destruct (split_body text off cs ov mn s) as [s'|cs'] eqn:Hb; [|eexists; reflexivity].
  assert (ls_start s < ls_start s')
    by (eapply split_body_progress; eauto; lia).
  apply IH; lia.
Qed.

Lemma split_large_text_exits fuel text off cs ov mn :
  0 <= ov < mn -> ov < cs -> (length text <= fuel)%nat ->
  is_Some (_split_large_text fuel text off cs ov mn).
Proof.
  intros Hov Hcs Hf. unfold _split_large_text.
  apply split_loop_exits; simpl; unfold len; lia.
Qed.

End ParserProofs.

(** ** The stable sort *)

Module SortFacts.

Section Sorting.
Context {A : Type}.
Variable before : A -> A -> bool.

Local Abbreviation not_after := (not_after before).

Hypothesis before_asym : forall x y, before x y = true -> before y x = false.
Hypothesis not_after_trans :
  forall x y z, not_after x y -> not_after y z -> not_after x z.

Lemma insert_sorted_perm x l : Permutation (insert_sorted before x l) (x :: l).
Proof.
  induction l as [|y l IH]; simpl; [reflexivity|].
  destruct (before y x); [|reflexivity].
  rewrite IH. apply perm_swap.
Qed.

Lemma stable_sort_perm l : Permutation (stable_sort before l) l.
Proof.
  induction l as [|x l IH]; simpl; [reflexivity|].
  unfold stable_sort in *. simpl. rewrite insert_sorted_perm. now constructor.
Qed.

Lemma insert_sorted_sorted x l :
  StronglySorted not_after l -> StronglySorted not_after (insert_sorted before x l).
Proof.
  induction 1 as [|y l Hs IH Hy]; simpl.
  - repeat constructor.
  - destruct (before y x) eqn:E.
    + constructor; [exact IH|].
      apply (Permutation_Forall (Permutation_sym (insert_sorted_perm x l))).
      constructor; [|exact Hy]. now apply before_asym.
    + constructor; [now constructor|].
      constructor; [exact E|].
      eapply List.Forall_impl; [|exact Hy].
      intros z Hz. now apply not_after_trans with y.
Qed.

Lemma stable_sort_sorted l : StronglySorted not_after (stable_sort before l).
Proof.
  induction l as [|x l IH]; [constructor|].
  unfold stable_sort in *. simpl. now apply insert_sorted_sorted.
Qed.

(** A sorted list is determined by its elements when they can be put
    in strictly increasing order. *)
Lemma sorted_unique l1 l2 :
  StronglySorted not_after l1 ->
  StronglySorted (fun x y => before x y = true) l2 ->
  Permutation l1 l2 -> l1 = l2.
Proof.
  intros H1. revert l2. induction H1 as [|a1 l1 Hs1 IH Ha1]; intros l2 H2 Hp.
  - apply Permutation_nil in Hp. now subst.
  - destruct H2 as [|a2 l2 Hs2 Ha2].
    + apply Permutation_sym, Permutation_nil in Hp. discriminate.
    + assert (E : a1 = a2).
      { assert (I1 : In a2 (a1 :: l1))
          by (eapply Permutation_in; [apply Permutation_sym; exact Hp | now left]).
        assert (I2 : In a1 (a2 :: l2))
          by (eapply Permutation_in; [exact Hp | now left]).
        destruct I1 as [-> | I1]; [reflexivity|].
        destruct I2 as [-> | I2]; [reflexivity|].
        rewrite List.Forall_forall in Ha1, Ha2.
        specialize (Ha1 _ I1). specialize (Ha2 _ I2).
        unfold not_after in Ha1. congruence. }
      subst a2. f_equal. apply IH; [exact Hs2|].
      now apply Permutation_cons_inv with a1.
Qed.

Lemma stable_sort_unique l l2 :
  StronglySorted (fun x y => before x y = true) l2 ->
  Permutation l l2 -> stable_sort before l = l2.
Proof.
  intros H2 Hp. apply sorted_unique; [apply stable_sort_sorted | exact H2 |].
  now rewrite stable_sort_perm.
Qed.

(** Stability.  [front] marks the entries of the front part of the
    input; of two entries of the output the first is strictly before
    the second, or they have equal keys and the first is not one of the
    back part overtaking one of the front part. *)
Section Stability.
Variable front : A -> bool.

Definition in_order (x y : A) : Prop :=
  not_after x y /\ (before x y = true \/ front x = true \/ front y = false).

Lemma insert_sorted_in_order x l :
  front x = true \/ Forall (fun y => front y = false) l ->
  StronglySorted in_order l -> StronglySorted in_order (insert_sorted before x l).
Proof.
  intros Hx Hs. induction Hs as [|y l Hs IH Hy]; simpl.
  - repeat constructor.
  - assert (Hx' : front x = true \/ Forall (fun y => front y = false) l).
    { destruct Hx as [Hx | Hx]; [now left | right]. now inversion Hx. }
    destruct (before y x) eqn:E.
    + constructor; [exact (IH Hx')|].
      apply (Permutation_Forall (Permutation_sym (insert_sorted_perm x l))).
      constructor; [|exact Hy]. split; [now apply before_asym | now left].
    + constructor; [now constructor|].
      assert (Hf : forall z, In z (y :: l) -> front x = true \/ front z = false).
      { intros z Hz. destruct Hx as [Hx | Hx]; [now left | right].
        rewrite List.Forall_forall in Hx. now apply Hx. }
      constructor.
      * split; [exact E | right; apply Hf; now left].
      * apply List.Forall_forall. intros z Hz. split.
        -- rewrite List.Forall_forall in Hy. destruct (Hy z Hz) as [Hyz _].
           now apply not_after_trans with y.
        -- right. apply Hf. now right.
Qed.

Lemma stable_sort_in_order l1 l2 :
  Forall (fun x => front x = true) l1 ->
  Forall (fun y => front y = false) l2 ->
  StronglySorted in_order (stable_sort before (l1 ++ l2)).
Proof.
  intros H1 H2. induction H1 as [|x l1 Hx _ IH]; simpl.
  - induction H2 as [|y l2 Hy H2 IH]; [constructor|].
    unfold stable_sort in *. simpl. apply insert_sorted_in_order; [|exact IH].
    right. apply (Permutation_Forall (Permutation_sym (stable_sort_perm l2))).
    exact H2.
  - unfold stable_sort in *. simpl. apply insert_sorted_in_order; [now left | exact IH].
Qed.
End Stability.
End Sorting.

(** In a sorted list the entry at the smaller index is related to the
    entry at the larger one. *)
Lemma StronglySorted_at {A} (R : A -> A -> Prop) l i j x y :
  StronglySorted R l -> l !! i = Some x -> l !! j = Some y -> (i < j)%nat -> R x y.
Proof.
  intros Hs. revert i j. induction Hs as [|a l Hs IH Ha]; intros i j Hi Hj Hlt;
    [discriminate|].
  destruct j as [|j]; [lia|]. destruct i as [|i]; simpl in *.
  - injection Hi as ->. rewrite List.Forall_forall in Ha. apply Ha.
    apply list_elem_of_In. eapply list_elem_of_lookup_2; eauto.
  - apply (IH i j); [assumption | assumption | lia].
Qed.

(** Enumerations are strictly increasing in their index. *)
Lemma enumerate_from_bounds {A} (l : list A) n :
  Forall (fun p => (n <= fst p)%nat) (enumerate_from n l).
Proof.
  revert n. induction l as [|x l IH]; intros n; simpl; constructor; [simpl; lia|].
  eapply List.Forall_impl; [|apply (IH (S n))]. simpl. intros; lia.
Qed.

Lemma enumerate_from_sorted {A} (l : list A) n :
  StronglySorted (fun x y => (fst x <? fst y)%nat = true) (enumerate_from n l).
Proof.
  revert n. induction l as [|x l IH]; intros n; simpl; constructor; [apply IH|].
  eapply List.Forall_impl; [|apply (enumerate_from_bounds l (S n))].
  simpl. intros p Hp. apply Nat.ltb_lt. lia.
Qed.

Lemma map_snd_enumerate_from {A} (l : list A) n : map snd (enumerate_from n l) = l.
Proof. revert n. induction l as [|x l IH]; intros n; simpl; [|rewrite IH]; reflexivity. Qed.

Lemma map_fst_enumerate_from {A} (l : list A) n :
  map fst (enumerate_from n l) = seq n (length l).
Proof. revert n. induction l as [|x l IH]; intros n; simpl; [|rewrite IH]; reflexivity. Qed.

Lemma map_enumerate_from {A B} (f : A -> B) (l : list A) n :
  map (fun p => (fst p, f (snd p))) (enumerate_from n l) = enumerate_from n (map f l).
Proof. revert n. induction l as [|x l IH]; intros n; simpl; [|rewrite IH]; reflexivity. Qed.

Lemma In_enumerate_from {A} (l : list A) n i y :
  In (i, y) (enumerate_from n l) <-> (n <= i)%nat /\ l !! (i - n)%nat = Some y.
Proof.
  revert n. induction l as [|x l IH]; intros n; simpl.
  - split; [tauto | intros [_ E]; discriminate].
  - rewrite IH. split.
    + intros [[= <- <-] | [Hle E]].
      * split; [lia|]. now rewrite Nat.sub_diag.
      * split; [lia|]. replace (i - n)%nat with (S (i - S n)) by lia. exact E.
    + intros [Hle E]. destruct (decide (i = n)) as [-> | Hne].
      * left. rewrite Nat.sub_diag in E. simpl in E. congruence.
      * right. split; [lia|].
        replace (i - n)%nat with (S (i - S n)) in E by lia. exact E.
Qed.

(** Looking the tasks up by index, in index order, enumerates them. *)
Lemma omap_lookup_seq {A} (pre l : list A) :
  omap (fun i => (fun b => (i, b)) <$> (pre ++ l) !! i) (seq (length pre) (length l))
  = enumerate_from (length pre) l.
Proof.
  revert pre. induction l as [|x l IH]; intros pre; [reflexivity|].
  cbn [length seq omap list_omap enumerate_from].
  rewrite list_lookup_middle by reflexivity. cbn [fmap option_fmap option_map].
  f_equal. specialize (IH (pre ++ [x])).
  rewrite length_app, Nat.add_1_r, <- app_assoc in IH. exact IH.
Qed.

Lemma nat_before_asym {A} (key : A -> nat) x y :
  (key x <? key y)%nat = true -> (key y <? key x)%nat = false.
Proof. rewrite Nat.ltb_lt, Nat.ltb_ge. lia. Qed.

Lemma nat_not_after_trans {A} (key : A -> nat) x y z :
  (key y <? key x)%nat = false -> (key z <? key y)%nat = false ->
  (key z <? key x)%nat = false.
Proof. rewrite !Nat.ltb_ge. lia. Qed.

Lemma Z_before_asym {A} (key : A -> Z) x y :
  (key x <? key y) = true -> (key y <? key x) = false.
Proof. lia. Qed.

Lemma Z_not_after_trans {A} (key : A -> Z) x y z :
  (key y <? key x) = false -> (key z <? key y) = false ->
  (key z <? key x) = false.
Proof. lia. Qed.

End SortFacts.

(** ** Properties of the embedding client *)

Module EmbedderProofs.
Import Embedder EmbedderSpec SortFacts StrFacts.

Lemma indexed_from_sorted (vs : list vector) n :
  StronglySorted (fun x y : Z * vector => (fst x <? fst y) = true)
    (map (fun p => (Z.of_nat (fst p), snd p)) (enumerate_from n vs)).
Proof.
  revert n. induction vs as [|v vs IH]; intros n; simpl; constructor; [apply IH|].
  apply Forall_map.
  eapply List.Forall_impl; [|apply (enumerate_from_bounds vs (S n))].
  simpl. intros p Hp. lia.
Qed.

Lemma map_snd_indexed vs : map snd (indexed vs) = vs.
Proof.
  unfold indexed, enumerate. rewrite map_map. simpl.
  apply map_snd_enumerate_from.
Qed.

(** Sorting by [index] undoes any reordering by the server. *)
Lemma extract_embeddings_sorted data vs :
  Permutation data (indexed vs) -> extract_embeddings data = vs.
Proof.
  intros Hp. unfold extract_embeddings.
  rewrite (stable_sort_unique _ (Z_before_asym fst)
             (Z_not_after_trans fst) data (indexed vs)).
  - apply map_snd_indexed.
  - apply indexed_from_sorted.
  - exact Hp.
Qed.

(** Sorting by batch index undoes any completion order. *)
Lemma assemble_ordered {B} (completed : list (nat * list B)) (outs : list (list B)) :
  Permutation completed (enumerate outs) -> assemble completed = concat outs.
Proof.
  intros Hp. unfold assemble.
  rewrite (stable_sort_unique _ (nat_before_asym fst)
             (nat_not_after_trans fst) completed (enumerate outs)).
  - unfold enumerate. now rewrite map_snd_enumerate_from.
  - apply enumerate_from_sorted.
  - exact Hp.
Qed.

(** [gather] puts the completed tasks back in task order. *)
Lemma gathered_enumerate {B} (completed : list (nat * B)) (outs : list B) :
  Permutation completed (enumerate outs) ->
  gathered (length outs) completed = enumerate outs.
Proof.
  intros Hp. unfold gathered, enumerate.
  pose proof (omap_lookup_seq [] outs) as Eo. simpl in Eo. rewrite <- Eo. clear Eo.
  apply list_omap_ext. apply Forall2_same_length_lookup_2; [reflexivity|].
  intros k i j Hi Hj. rewrite Hi in Hj. injection Hj as <-.
  apply lookup_seq in Hi. destruct Hi as [-> Hlt]. simpl.
  destruct (lookup_lt_is_Some_2 outs k Hlt) as [x Hx]. rewrite Hx. simpl.
  assert (Hin : In (k, x) completed).
  { eapply Permutation_in; [apply Permutation_sym; exact Hp|].
    apply In_enumerate_from. split; [lia|]. now rewrite Nat.sub_0_r. }
  destruct (find (fun r => (fst r =? k)%nat) completed) as [[k' y]|] eqn:Ef.
  - apply find_some in Ef. destruct Ef as [Hy Hk]. simpl in Hk.
    apply Nat.eqb_eq in Hk. subst k'.
    apply (Permutation_in _ Hp), In_enumerate_from in Hy.
    destruct Hy as [_ Hy]. rewrite Nat.sub_0_r in Hy. congruence.
  - apply find_none with (x := (k, x)) in Ef; [|exact Hin].
    simpl in Ef. rewrite Nat.eqb_refl in Ef. discriminate.
Qed.

Section WithEnvironment.
Context {H : Type} `{Countable H}.
Variable _compute_hash : pystr -> H.
Variable server : nat -> list pystr -> response.
Variable model : pystr.
Variable batch_size : Z.

Local Abbreviation world := (@world H _ _).
Local Abbreviation _embed_batch := (_embed_batch server).
Local Abbreviation embed_batch_loop := (embed_batch_loop server).
Local Abbreviation _embed_batch_with_cache :=
  (_embed_batch_with_cache _compute_hash server model).
Local Abbreviation cache_key := (cache_key _compute_hash model).
Local Abbreviation insert_rows := (insert_rows _compute_hash model).

(** Every attempt of [_embed_batch] posts the same input, the cache
    is not touched, and there are between one and [todo] attempts. *)
Lemma embed_batch_loop_requests texts mr todo attempt (w : world) r w' :
  embed_batch_loop texts mr attempt todo w = (r, w') ->
  cache w' = cache w /\
  exists k, (k <= todo)%nat /\ (todo = 0%nat \/ 1 <= k)%nat /\
            requests w' = requests w ++ replicate k texts.
Proof.
  revert attempt w. induction todo as [|todo IH]; intros attempt w; simpl.
  - intros [= <- <-]. split; [reflexivity|]. exists 0%nat. simpl.
    rewrite app_nil_r. split; [lia|]. split; [now left | reflexivity].
  - unfold bind, post. simpl.
    set (w1 := World _ _).
    assert (Hstep : forall a, embed_batch_loop texts mr a todo w1 = (r, w') ->
              cache w' = cache w /\
              exists k, (k <= S todo)%nat /\ (S todo = 0%nat \/ 1 <= k)%nat /\
                        requests w' = requests w ++ replicate k texts).
    { intros a Ha. apply IH in Ha. destruct Ha as (Hc & k & Hk & _ & Hr).
      split; [exact Hc|]. exists (S k). split; [lia|]. split; [right; lia|].
      rewrite Hr. unfold w1. simpl. now rewrite <- app_assoc. }
    assert (Hstop : (r, w') = (r, w1) ->
              cache w' = cache w /\
              exists k, (k <= S todo)%nat /\ (S todo = 0%nat \/ 1 <= k)%nat /\
                        requests w' = requests w ++ replicate k texts).
    { intros [= ->]. split; [reflexivity|]. exists 1%nat.
      split; [lia|]. split; [right; lia | reflexivity]. }
    destruct (server (length (requests w)) texts);
      try destruct (attempt =? mr - 1)%nat;
      unfold ret, raise; intros E;
      try (apply (Hstep _ E)); try (apply Hstop; now inversion E).
Qed.

Lemma embed_batch_requests texts (w : world) r w' :
  _embed_batch texts w = (r, w') ->
  cache w' = cache w /\
  exists k, (1 <= k <= 3)%nat /\ requests w' = requests w ++ replicate k texts.
Proof.
  intros E. apply embed_batch_loop_requests in E.
  destruct E as (Hc & k & Hk & [Hz | Hk1] & Hr); [discriminate|].
  split; [exact Hc|]. exists k. split; [lia | exact Hr].
Qed.

(** A successful first answer ends [_embed_batch] after one request. *)
Lemma embed_batch_first_ok texts (w : world) data :
  server (length (requests w)) texts = Ok200 data ->
  _embed_batch texts w =
    (inr (extract_embeddings data), World (cache w) (requests w ++ [texts])).
Proof.
  intros E. unfold Embedder._embed_batch. simpl. unfold bind, post. simpl.
  now rewrite E.
Qed.

Local Abbreviation last_answer := (last_answer server).

(** The run of the retry loop, request by request: every attempt posts
    the same input and leaves the cache alone, and no answer before the
    last is a 200. *)
Lemma embed_batch_loop_answers texts mr todo attempt (w : world) r w' :
  embed_batch_loop texts mr attempt todo w = (r, w') ->
  cache w' = cache w /\
  exists k, (k <= todo)%nat /\ (todo = 0%nat \/ 1 <= k)%nat /\
    requests w' = requests w ++ replicate k texts /\
    (forall j data, (S j < k)%nat ->
       server (length (requests w) + j) texts <> Ok200 data) /\
    last_answer texts (length (requests w)) k r.
Proof.
  revert attempt w. induction todo as [|todo IH]; intros attempt w; simpl.
  - intros [= <- <-]. split; [reflexivity|]. exists 0%nat. simpl.
    rewrite app_nil_r. split; [lia|]. split; [now left|]. split; [reflexivity|].
    split; [intros; lia | now left].
  - unfold bind, post. simpl.
    set (w1 := World _ _).
    assert (Hstep : forall a,
              (forall data, server (length (requests w)) texts <> Ok200 data) ->
              embed_batch_loop texts mr a todo w1 = (r, w') ->
              cache w' = cache w /\
              exists k, (k <= S todo)%nat /\ (S todo = 0%nat \/ 1 <= k)%nat /\
                requests w' = requests w ++ replicate k texts /\
                (forall j data, (S j < k)%nat ->
                   server (length (requests w) + j) texts <> Ok200 data) /\
                last_answer texts (length (requests w)) k r).
    { intros a Hno Ha. apply IH in Ha.
      destruct Ha as (Hc & k & Hk & Hk1 & Hr & Hbefore & Hlast).
      assert (Hl : length (requests w1) = S (length (requests w)))
        by (unfold w1; simpl; rewrite length_app; simpl; lia).
      rewrite Hl in Hbefore, Hlast.
      split; [exact Hc|]. exists (S k). split; [lia|]. split; [right; lia|].
      split; [rewrite Hr; unfold w1; simpl; now rewrite <- app_assoc|].
      split.
      - intros j data Hj. destruct j as [|j].
        + rewrite Nat.add_0_r. apply Hno.
        + replace (length (requests w) + S j)%nat
            with (S (length (requests w)) + j)%nat by lia.
          apply Hbefore. lia.
      - unfold EmbedderSpec.last_answer in *. destruct r as [e|fresh].
        + right. destruct Hlast as [-> | (k' & -> & Hk')].
          * exists 0%nat. split; [reflexivity|]. rewrite Nat.add_0_r. exact Hno.
          * exists (S k'). split; [reflexivity|].
            replace (length (requests w) + S k')%nat
              with (S (length (requests w)) + k')%nat by lia. exact Hk'.
        + destruct Hlast as (k' & data & -> & Hd & Hf).
          exists (S k'), data. split; [reflexivity|]. split; [|exact Hf].
          replace (length (requests w) + S k')%nat
            with (S (length (requests w)) + k')%nat by lia. exact Hd. }
    assert (Hstop : forall r0,
              (r, w') = (r0, w1) ->
              last_answer texts (length (requests w)) 1%nat r0 ->
              cache w' = cache w /\
              exists k, (k <= S todo)%nat /\ (S todo = 0%nat \/ 1 <= k)%nat /\
                requests w' = requests w ++ replicate k texts /\
                (forall j data, (S j < k)%nat ->
                   server (length (requests w) + j) texts <> Ok200 data) /\
                last_answer texts (length (requests w)) k r).
    { intros r0 [= -> ->] Hlast. split; [reflexivity|]. exists 1%nat.
      split; [lia|]. split; [right; lia|]. split; [reflexivity|].
      split; [intros; lia | exact Hlast]. }
    assert (Hraise : forall e,
              (forall data, server (length (requests w)) texts <> Ok200 data) ->
              last_answer texts (length (requests w)) 1%nat (inl e)).
    { intros e Hno. right. exists 0%nat. split; [reflexivity|].
      rewrite Nat.add_0_r. exact Hno. }
    destruct (server (length (requests w)) texts) as [data| | | |] eqn:Es;
      try destruct (attempt =? mr - 1)%nat;
      unfold ret, raise; intros E;
      try (apply (Hstep _ ltac:(discriminate) E));
      try (symmetry in E; apply (Hstop _ E); apply Hraise; discriminate).
    all: symmetry in E; apply (Hstop _ E); exists 0%nat, data;
      split; [reflexivity|]; rewrite Nat.add_0_r; split; [exact Es | reflexivity].
Qed.


Lemma embed_batch_answers texts (w : world) r w' :
  _embed_batch texts w = (r, w') ->
  cache w' = cache w /\
  exists k, (1 <= k <= 3)%nat /\
    requests w' = requests w ++ replicate k texts /\
    (forall j data, (S j < k)%nat ->
       server (length (requests w) + j) texts <> Ok200 data) /\
    (forall fresh, r = inr fresh ->
       exists data, server (length (requests w) + (k - 1)) texts = Ok200 data /\
                    fresh = extract_embeddings data).
Proof.
  intros E. apply embed_batch_loop_answers in E.
  destruct E as (Hc & k & Hk & [Hz | Hk1] & Hr & Hb & Hl); [discriminate|].
  split; [exact Hc|]. exists k. split; [lia|]. split; [exact Hr|]. split; [exact Hb|].
  intros fresh ->. destruct Hl as (k' & data & -> & Hd & ->).
  exists data. split; [|reflexivity]. now replace (S k' - 1)%nat with k' by lia.
Qed.

(** *** The cache-fronted batch *)

(** The index-based selection of the code picks the missing texts. *)
Lemma uncached_texts_filter (f : pystr -> option vector) pre l :
  mapM (fun i => (pre ++ l) !! i)
       (map fst (List.filter (fun p => is_none (snd p))
                   (enumerate_from (length pre) (map f l))))
  = Some (List.filter (fun t => is_none (f t)) l).
Proof.
  revert pre. induction l as [|x l IH]; intros pre; [reflexivity|].
  specialize (IH (pre ++ [x])).
  rewrite length_app, Nat.add_1_r, <- app_assoc in IH. simpl in IH.
  cbn [map enumerate_from List.filter snd].
  destruct (is_none (f x)) eqn:E; [|exact IH].
  cbn [map fst mapM]. rewrite list_lookup_middle by reflexivity.
  simpl. rewrite IH. reflexivity.
Qed.

Lemma count_none_misses (c : gmap (H * pystr) vector) texts :
  count_none (cached_of _compute_hash model c texts)
  = length (misses_of _compute_hash model c texts).
Proof.
  unfold count_none, cached_of, misses_of.
  induction texts as [|t texts IH]; simpl; [reflexivity|].
  destruct (is_none _); simpl; now rewrite IH.
Qed.

(** The assignment loop computes [stitch], or fails with [IndexError]
    when fewer vectors came back than were asked for. *)
Lemma assign_new_stitch suf : forall pre k fresh,
  assign_new
    (enumerate_from k
       (map fst (List.filter (fun p => is_none (snd p))
                   (enumerate_from (length pre) suf))))
    fresh (pre ++ suf)
  = if ((count_none suf =? 0) || (k + count_none suf <=? length fresh))%nat
    then inr (pre ++ stitch suf (skipn k fresh))
    else inl IndexError.
Proof.
  induction suf as [|[v|] suf IH]; intros pre k fresh.
  - reflexivity.
  - specialize (IH (pre ++ [Some v]) k fresh).
    rewrite length_app, Nat.add_1_r, <- !app_assoc in IH. simpl in IH.
    exact IH.
  - cbn [enumerate_from List.filter snd is_none map fst assign_new].
    change (count_none (None :: suf)) with (S (count_none suf)).
    cbn [Nat.eqb orb].
    destruct (fresh !! k) as [e|] eqn:Ek.
    + assert (Hk : (k < length fresh)%nat) by (eapply lookup_lt_Some; eauto).
      assert (Hi : (length pre <? length (pre ++ None :: suf))%nat = true)
        by (apply Nat.ltb_lt; rewrite length_app; simpl; lia).
      rewrite Hi.
      replace (<[length pre := Some e]> (pre ++ None :: suf))
        with ((pre ++ [Some e]) ++ suf)
        by (rewrite insert_app_r_alt, Nat.sub_diag by lia;
            simpl; now rewrite <- app_assoc).
      specialize (IH (pre ++ [Some e]) (S k) fresh).
      rewrite length_app, Nat.add_1_r in IH. rewrite IH.
      rewrite (drop_S _ _ _ Ek). cbn [stitch].
      rewrite <- !app_assoc. simpl.
      destruct (count_none suf) as [|c] eqn:Ec; simpl.
      * assert (E : (k + 1 <=? length fresh)%nat = true) by (apply Nat.leb_le; lia).
        now rewrite E.
      * replace (k + S (S c))%nat with (S (k + S c)) by lia. reflexivity.
    + assert (Hk : (length fresh <= k)%nat) by (now apply lookup_ge_None).
      assert (E : (k + S (count_none suf) <=? length fresh)%nat = false)
        by (apply Nat.leb_gt; lia).
      now rewrite E.
Qed.

Local Abbreviation cached_of := (cached_of _compute_hash model).
Local Abbreviation misses_of := (misses_of _compute_hash model).
Local Abbreviation expected := (expected _compute_hash model).

(** When every text hits, the cache answers are returned as they are:
    no request is made and the cache is not written. *)
Lemma embed_batch_with_cache_all_hit texts (w : world) :
  misses_of (cache w) texts = [] ->
  _embed_batch_with_cache texts w = (inr (cached_of (cache w) texts), w).
Proof.
  intros Hm. unfold Embedder._embed_batch_with_cache, bind, get_batch.
  unfold uncached_indices_of, enumerate.
  rewrite (uncached_texts_filter (fun t => cache w !! cache_key t) [] texts).
  fold (misses_of (cache w) texts). now rewrite Hm.
Qed.

Lemma stitch_no_miss cached fresh :
  count_none cached = 0%nat -> stitch cached fresh = cached.
Proof.
  induction cached as [|[v|] l IH]; simpl; intros Hn; [reflexivity | | discriminate].
  f_equal. apply IH. exact Hn.
Qed.

(** Stitching the answers of a faithful service gives every text its
    expected vector, position by position. *)
Lemma stitch_expected (emb : pystr -> vector) (c : gmap (H * pystr) vector) texts :
  stitch (cached_of c texts) (map emb (misses_of c texts))
  = map (fun t => Some (expected emb c t)) texts.
Proof.
  unfold EmbedderSpec.cached_of, EmbedderSpec.misses_of, EmbedderSpec.expected.
  induction texts as [|t texts IH]; simpl; [reflexivity|].
  destruct (c !! cache_key t) as [v|]; simpl; now rewrite IH.
Qed.

Lemma embed_batch_with_cache_first_ok texts (w : world) data :
  misses_of (cache w) texts <> [] ->
  server (length (requests w)) (misses_of (cache w) texts) = Ok200 data ->
  (length (misses_of (cache w) texts) <= length (extract_embeddings data))%nat ->
  _embed_batch_with_cache texts w =
    (inr (stitch (cached_of (cache w) texts) (extract_embeddings data)),
     World (insert_rows (zip (misses_of (cache w) texts) (extract_embeddings data))
              (cache w))
           (requests w ++ [misses_of (cache w) texts])).
Proof.
  intros Hm Hs Hl. unfold Embedder._embed_batch_with_cache, bind, get_batch.
  unfold uncached_indices_of, enumerate.
  rewrite (uncached_texts_filter (fun t => cache w !! cache_key t) [] texts).
  fold (misses_of (cache w) texts) (cached_of (cache w) texts).
  destruct (misses_of (cache w) texts) as [|m ms] eqn:Em; [congruence|].
  rewrite (embed_batch_first_ok _ _ _ Hs).
  unfold set_batch, lift. cbn [cache requests].
  pose proof (assign_new_stitch (cached_of (cache w) texts) [] 0
                (extract_embeddings data)) as Ha.
  simpl in Ha. rewrite Ha. clear Ha.
  rewrite count_none_misses, Em. cbn [length Nat.eqb orb Nat.add].
  apply Nat.leb_le in Hl. cbn [length] in Hl. rewrite Hl.
  now rewrite drop_0.
Qed.

(** The stitched list has, at the place of a hit, the cached vector
    and, at the place of the [n]-th miss, the [n]-th fresh vector. *)
Lemma stitch_lookup (c : gmap (H * pystr) vector) texts : forall fresh i t,
  texts !! i = Some t ->
  stitch (cached_of c texts) fresh !! i =
    Some (match c !! cache_key t with
          | Some v => Some v
          | None => fresh !! length (misses_of c (take i texts))
          end).
Proof.
  unfold EmbedderSpec.cached_of, EmbedderSpec.misses_of.
  induction texts as [|t0 texts IH]; intros fresh i t Hi; [discriminate|].
  destruct i as [|i]; simpl in Hi.
  - injection Hi as ->. cbn [map stitch take List.filter length].
    destruct (c !! cache_key t) as [v|]; [reflexivity|].
    now destruct fresh.
  - cbn [map stitch take List.filter].
    destruct (c !! cache_key t0) as [v0|]; cbn [is_none stitch].
    + cbn [lookup list_lookup]. exact (IH fresh i t Hi).
    + destruct fresh as [|e fresh]; cbn [lookup list_lookup length].
      * exact (IH [] i t Hi).
      * exact (IH fresh i t Hi).
Qed.

Lemma length_stitch cached fresh : length (stitch cached fresh) = length cached.
Proof.
  revert fresh. induction cached as [|[v|] cached IH]; intros fresh; simpl;
    [reflexivity | now rewrite IH |].
  destruct fresh; simpl; now rewrite IH.
Qed.

(** A missing text stands among the misses at the place that counts
    the misses before it. *)
Lemma misses_of_lookup (c : gmap (H * pystr) vector) texts i t :
  texts !! i = Some t -> c !! cache_key t = None ->
  misses_of c texts !! length (misses_of c (take i texts)) = Some t.
Proof.
  intros Hi Hc. set (n := length (misses_of c (take i texts))).
  rewrite <- (take_drop_middle texts i t Hi). subst n.
  unfold EmbedderSpec.misses_of. rewrite List.filter_app. cbn [List.filter].
  rewrite Hc. cbn [is_none]. now apply list_lookup_middle.
Qed.

(** What [set_batch] leaves under a key: rows under other keys do not
    touch it, and of the rows under it the last one stays. *)
Lemma insert_rows_lookup_other rows : forall (c : gmap (H * pystr) vector) key,
  (forall t, In t (map fst rows) -> cache_key t <> key) ->
  insert_rows rows c !! key = c !! key.
Proof.
  induction rows as [|[t e] rows IH]; intros c key Hk; [reflexivity|].
  cbn [Embedder.insert_rows]. rewrite IH by (intros t' Ht'; apply Hk; now right).
  apply lookup_insert_ne. apply Hk. now left.
Qed.

Lemma insert_rows_lookup_last ms : forall fresh (c : gmap (H * pystr) vector) j m e,
  ms !! j = Some m -> fresh !! j = Some e ->
  (forall j' m', (j < j')%nat -> ms !! j' = Some m' -> cache_key m' <> cache_key m) ->
  insert_rows (zip ms fresh) c !! cache_key m = Some e.
Proof.
  induction ms as [|m0 ms IH]; intros fresh c j m e Hm He Hlast; [discriminate|].
  destruct fresh as [|e0 fresh]; [discriminate|].
  cbn [zip zip_with Embedder.insert_rows].
  destruct j as [|j]; simpl in Hm, He.
  - injection Hm as ->. injection He as ->.
    rewrite insert_rows_lookup_other; [apply lookup_insert_eq|].
    intros t Ht. apply list_elem_of_In, list_elem_of_fmap in Ht.
    destruct Ht as ([t' e'] & -> & Hin). simpl.
    apply list_elem_of_lookup_1 in Hin. destruct Hin as [j' Hj'].
    apply lookup_zip_with_Some in Hj'.
    destruct Hj' as (x & y & [= <- <-] & Hx & _).
    apply (Hlast (S j') t'); [lia | exact Hx].
  - apply (IH fresh _ j m e Hm He).
    intros j' m' Hj' Hm'. apply (Hlast (S j') m'); [lia | exact Hm'].
Qed.


(** The scenario of the specification: [T0] and [T2] are cached under
    the configured model, [T1] is not.  One request is sent, its input
    is [[T1]], and the result is aligned with [[T0, T1, T2]]. *)
Lemma embed_batch_with_cache_mix T0 T1 T2 v0 v2 e1 (w : world) :
  cache w !! cache_key T0 = Some v0 ->
  cache w !! cache_key T1 = None ->
  cache w !! cache_key T2 = Some v2 ->
  server (length (requests w)) [T1] = Ok200 [(0, e1)] ->
  _embed_batch_with_cache [T0; T1; T2] w =
    (inr [Some v0; Some e1; Some v2],
     World (<[cache_key T1 := e1]> (cache w)) (requests w ++ [[T1]])).
Proof.
  intros H0' H1' H2' Hs.
  assert (Em : misses_of (cache w) [T0; T1; T2] = [T1])
    by (unfold EmbedderSpec.misses_of; simpl; now rewrite H0', H1', H2').
  assert (Ec : cached_of (cache w) [T0; T1; T2] = [Some v0; None; Some v2])
    by (unfold EmbedderSpec.cached_of; simpl; now rewrite H0', H1', H2').
  rewrite (embed_batch_with_cache_first_ok [T0; T1; T2] w [(0, e1)]);
    rewrite ?Em; try assumption; try discriminate; [|simpl; lia].
  rewrite Ec. reflexivity.
Qed.

(** *** Concurrent tasks and a consistent cache *)

Variable max_concurrent : nat.

Section Consistency.
Variable emb : pystr -> vector.
Variable universe : list pystr.
Variable c0 : gmap (H * pystr) vector.
Hypothesis hash_inj :
  forall t1 t2, In t1 universe -> In t2 universe ->
    _compute_hash t1 = _compute_hash t2 -> t1 = t2.

Local Abbreviation inv := (cache_inv _compute_hash model emb universe c0).

Lemma cache_inv_init : inv c0.
Proof.
  intros t _. unfold EmbedderSpec.expected.
  now destruct (c0 !! cache_key t).
Qed.

Lemma cache_inv_insert c m :
  In m universe -> c0 !! cache_key m = None -> inv c ->
  inv (<[cache_key m := emb m]> c).
Proof.
  intros Hm Hnone Hc t Ht.
  destruct (decide (cache_key m = cache_key t)) as [E | E].
  - rewrite <- E, lookup_insert_eq.
    assert (t = m) as -> by (injection E as E; symmetry; now apply hash_inj).
    unfold EmbedderSpec.expected. now rewrite Hnone.
  - rewrite lookup_insert_ne by exact E. now apply Hc.
Qed.

Lemma cache_inv_insert_rows ms : forall c,
  Forall (fun m => In m universe /\ c0 !! cache_key m = None) ms ->
  inv c -> inv (insert_rows (zip ms (map emb ms)) c).
Proof.
  induction ms as [|m ms IH]; intros c Hms Hc; [exact Hc|].
  inversion Hms as [|? ? [Hm Hnone] Hms']; subst. simpl.
  apply IH; [exact Hms'|]. now apply cache_inv_insert.
Qed.

Lemma inv_expected c t :
  inv c -> In t universe -> expected emb c t = expected emb c0 t.
Proof.
  intros Hc Ht. specialize (Hc t Ht). unfold EmbedderSpec.expected in *.
  destruct (c !! cache_key t); simpl; [exact Hc|]. now rewrite Hc.
Qed.

Hypothesis server_ok : faithful server emb.

(** One task, against a consistent cache and a faithful service. *)
Lemma embed_batch_with_cache_faithful batch (w : world) :
  Forall (fun t => In t universe) batch ->
  inv (cache w) ->
  exists w',
    _embed_batch_with_cache batch w =
      (inr (map (fun t => Some (expected emb c0 t)) batch), w') /\
    inv (cache w').
Proof.
  intros Hb Hc.
  assert (Hres : stitch (cached_of (cache w) batch)
                   (map emb (misses_of (cache w) batch))
                 = map (fun t => Some (expected emb c0 t)) batch).
  { rewrite stitch_expected. apply map_ext_in. intros t Ht. f_equal.
    apply inv_expected; [exact Hc|]. rewrite List.Forall_forall in Hb. auto. }
  destruct (misses_of (cache w) batch) as [|m ms] eqn:Em.
  - exists w. split; [|exact Hc].
    rewrite embed_batch_with_cache_all_hit by exact Em.
    rewrite <- Hres. f_equal. f_equal.
    assert (Hn : count_none (cached_of (cache w) batch) = 0%nat)
      by now rewrite count_none_misses, Em.
    clear -Hn. induction (cached_of (cache w) batch) as [|[v|] l IH]; simpl;
      [reflexivity | | discriminate].
    f_equal. apply IH. exact Hn.
  - destruct (server_ok (length (requests w)) (m :: ms)) as (data & Hs & Hp).
    pose proof (extract_embeddings_sorted _ _ Hp) as Hx.
    eexists. rewrite <- Em in Hs.
    rewrite (embed_batch_with_cache_first_ok batch w data);
      [| rewrite Em; discriminate | exact Hs
       | rewrite Hx, Em; now rewrite length_map].
    rewrite Hx, Em, Hres. split; [reflexivity|].
    cbn [cache]. apply cache_inv_insert_rows; [|exact Hc].
    rewrite <- Em. unfold EmbedderSpec.misses_of.
    apply List.Forall_forall. intros t Ht. apply filter_In in Ht.
    destruct Ht as [Ht Hn]. rewrite List.Forall_forall in Hb.
    split; [auto|]. specialize (Hc t (Hb t Ht)).
    destruct (cache w !! cache_key t); [discriminate | exact Hc].
Qed.

Local Abbreviation task_ok := (task_ok _compute_hash model emb universe c0).
Local Abbreviation pool_ok := (pool_ok _compute_hash model emb universe c0).
Local Abbreviation task_step := (task_step _compute_hash server model).
Local Abbreviation pool_step := (pool_step _compute_hash server model max_concurrent).
Local Abbreviation run_pool := (run_pool _compute_hash server model max_concurrent).

(** A step of a task keeps the task and the cache consistent. *)
Lemma task_step_ok free_slot batch s (w : world) :
  Forall (fun t => In t universe) batch ->
  inv (cache w) -> task_ok batch s ->
  task_ok batch (fst (task_step free_slot batch s w)) /\
  inv (cache (snd (task_step free_slot batch s w))).
Proof.
  intros Hb Hc Hs. destruct s as [| |cached ts attempt|cached ts fresh|r].
  - simpl. now destruct free_slot.
  - cbn [Embedder.task_step].
    unfold uncached_indices_of, enumerate.
    rewrite (uncached_texts_filter (fun t => cache w !! cache_key t) [] batch).
    fold (misses_of (cache w) batch) (cached_of (cache w) batch).
    assert (Hres : stitch (cached_of (cache w) batch)
                     (map emb (misses_of (cache w) batch))
                   = map (fun t => Some (expected emb c0 t)) batch).
    { rewrite stitch_expected. apply map_ext_in. intros t Ht. f_equal.
      apply inv_expected; [exact Hc|]. rewrite List.Forall_forall in Hb. auto. }
    destruct (misses_of (cache w) batch) as [|m ms] eqn:Em.
    + split; [|exact Hc]. simpl. f_equal. rewrite <- Hres. simpl.
      symmetry. apply stitch_no_miss. now rewrite count_none_misses, Em.
    + split; [|exact Hc]. simpl. split; [exact Hres|].
      split; [now rewrite count_none_misses, Em|].
      rewrite <- Em. unfold EmbedderSpec.misses_of.
      apply List.Forall_forall. intros t Ht. apply filter_In in Ht.
      destruct Ht as [Ht Hn]. rewrite List.Forall_forall in Hb.
      split; [auto|]. specialize (Hc t (Hb t Ht)).
      destruct (cache w !! cache_key t); [discriminate | exact Hc].
  - cbn [Embedder.task_step fst snd cache].
    destruct (server_ok (length (requests w)) ts) as (data & -> & Hp).
    split; [|exact Hc]. simpl. split; [|exact Hs].
    now apply extract_embeddings_sorted.
  - cbn [Embedder.task_step fst snd cache]. destruct Hs as (-> & Hst & Hn & Hall).
    split.
    + unfold EmbedderSpec.task_ok, uncached_indices_of, enumerate.
      pose proof (assign_new_stitch cached [] 0 (map emb ts)) as Ha.
      cbn [length app Nat.add] in Ha.
      rewrite Ha, Hn, length_map, Nat.leb_refl, orb_true_r.
      now rewrite drop_0, Hst.
    + now apply cache_inv_insert_rows.
  - split; [exact Hs | exact Hc].
Qed.

Lemma task_step_done free_slot batch r (w : world) :
  task_step free_slot batch (Done r) w = (Done r, w).
Proof. reflexivity. Qed.

Lemma task_step_not_done free_slot batch s (w : world) :
  is_done (fst (task_step free_slot batch s w)) = false -> is_done s = false.
Proof. destruct s; simpl; auto. Qed.

(** Resuming any task keeps all tasks and the cache consistent. *)
Lemma pool_step_ok batches i p (w : world) :
  Forall (Forall (fun t => In t universe)) batches ->
  inv (cache w) -> pool_ok batches p ->
  pool_ok batches (fst (pool_step batches i p w)) /\
  inv (cache (snd (pool_step batches i p w))).
Proof.
  intros Hbs Hc Hp. pose proof Hp as (Hlen & Hok & Hnd & Hfin).
  unfold Embedder.pool_step.
  destruct (states p !! i) as [s|] eqn:Es; [|now split].
  destruct (batches !! i) as [b|] eqn:Eb; [|now split].
  set (free_slot := (_ <? max_concurrent)%nat).
  assert (Hb : Forall (fun t => In t universe) b).
  { rewrite List.Forall_forall in Hbs. apply Hbs.
    apply list_elem_of_In. eapply list_elem_of_lookup_2; eauto. }
  destruct (task_step_ok free_slot b s w Hb Hc (Hok i s b Es Eb)) as [Hs' Hc'].
  pose proof (task_step_not_done free_slot b s w) as Hnot.
  destruct (task_step free_slot b s w) as [s' w'] eqn:Et. simpl in *.
  split; [|exact Hc'].
  assert (Hi : (i < length (states p))%nat) by (eapply lookup_lt_Some; eauto).
  unfold EmbedderSpec.pool_ok. cbn [states finished].
  split; [now rewrite length_insert|].
  split.
  { intros j sj bj Hj Hbj. destruct (decide (i = j)) as [<- | Hne].
    - rewrite list_lookup_insert_eq in Hj by exact Hi.
      injection Hj as <-. rewrite Eb in Hbj. now injection Hbj as <-.
    - rewrite list_lookup_insert_ne in Hj by exact Hne. eauto. }
  assert (Hlook : forall j, (exists r, <[i:=s']> (states p) !! j = Some (Done r)) <->
                    (j = i /\ is_done s' = true) \/
                    (j <> i /\ exists r, states p !! j = Some (Done r))).
  { intros j. destruct (decide (i = j)) as [<- | Hne].
    - rewrite list_lookup_insert_eq by exact Hi. split.
      + intros [r [= ->]]. now left.
      + intros [[_ Hd] | [Hn _]]; [|congruence].
        destruct s'; try discriminate. eauto.
    - rewrite list_lookup_insert_ne by exact Hne. split.
      + intros Hr. right. split; [congruence | exact Hr].
      + intros [[-> _] | [_ Hr]]; [congruence | exact Hr]. }
  destruct (is_done s') eqn:Ed'; [destruct (is_done s) eqn:Ed|]; simpl.
  - (* it was finished before *)
    split; [exact Hnd|]. intros j. rewrite Hlook, Hfin. split.
    + intros [r Hr]. destruct (decide (j = i)) as [-> | Hne]; [now left|].
      right. eauto.
    + intros [[-> _] | [_ Hr]]; [|exact Hr].
      destruct s; try discriminate. eauto.
  - (* it finishes now *)
    assert (Hni : ~ In i (finished p)).
    { rewrite Hfin. intros [r Hr]. rewrite Es in Hr. injection Hr as ->. discriminate. }
    split.
    + apply NoDup_app. split; [exact Hnd|]. split; [|apply NoDup_singleton].
      intros x Hx Hx'. apply list_elem_of_In in Hx.
      apply list_elem_of_singleton in Hx'. subst x. contradiction.
    + intros j. rewrite Hlook, in_app_iff, Hfin. simpl. split.
      * intros [[r Hr] | [-> | []]]; [|now left].
        destruct (decide (j = i)) as [-> | Hne]; [now left | right; eauto].
      * intros [[-> _] | [_ Hr]]; [right; now left | left; exact Hr].
  - (* it is still running *)
    specialize (Hnot eq_refl).
    split; [exact Hnd|]. intros j. rewrite Hlook, Hfin. split.
    + intros [r Hr]. right. split; [|eauto].
      intros ->. rewrite Es in Hr. injection Hr as ->. discriminate.
    + intros [[_ Hd] | [_ Hr]]; [discriminate | exact Hr].
Qed.

Lemma run_pool_ok batches schedule : forall p (w : world),
  Forall (Forall (fun t => In t universe)) batches ->
  inv (cache w) -> pool_ok batches p ->
  pool_ok batches (fst (run_pool batches schedule p w)) /\
  inv (cache (snd (run_pool batches schedule p w))).
Proof.
  induction schedule as [|i schedule IH]; intros p w Hbs Hc Hp; [now split|].
  cbn [Embedder.run_pool].
  destruct (pool_step_ok batches i p w Hbs Hc Hp) as [Hp' Hc'].
  destruct (pool_step batches i p w) as [p' w']. now apply IH.
Qed.

(** The results of the finished tasks, in completion order. *)
Lemma completed_results_ok batches p order :
  pool_ok batches p ->
  (forall i, In i order -> In i (finished p)) ->
  completed_results (states p) order =
    inr (map (fun i => (i, map (fun t => Some (expected emb c0 t))
                             (default [] (batches !! i)))) order).
Proof.
  intros (Hlen & Hok & _ & Hfin) Hin.
  induction order as [|i order IH]; [reflexivity|].
  cbn [completed_results map].
  destruct (proj1 (Hfin i) (Hin i (or_introl eq_refl))) as [r Hr].
  rewrite Hr.
  assert (Hi : (i < length batches)%nat)
    by (rewrite <- Hlen; eapply lookup_lt_Some; eauto).
  destruct (lookup_lt_is_Some_2 batches i Hi) as [b Hb].
  specialize (Hok i _ b Hr Hb). simpl in Hok. subst r.
  rewrite IH by (intros j Hj; apply Hin; now right).
  now rewrite Hb.
Qed.

(** What the finished tasks hold after any schedule. *)
Lemma run_pool_results batches schedule (w : world) p' w' :
  Forall (Forall (fun t => In t universe)) batches ->
  inv (cache w) ->
  run_pool batches schedule (Pool (replicate (length batches) Waiting) []) w = (p', w') ->
  completed_results (states p') (finished p') =
    inr (map (fun i => (i, map (fun t => Some (expected emb c0 t))
                             (default [] (batches !! i)))) (finished p')) /\
  NoDup (finished p') /\
  (forall i, In i (finished p') -> (i < length batches)%nat).
Proof.
  intros Hbs Hc Er.
  assert (H0' : pool_ok batches (Pool (replicate (length batches) Waiting) [])).
  { unfold EmbedderSpec.pool_ok. cbn [states finished].
    split; [apply length_replicate|]. split; [|split; [apply NoDup_nil_2|]].
    - intros i s b Hi _. apply lookup_replicate in Hi. destruct Hi as [-> _]. exact I.
    - intros i. split; [intros []|].
      intros [r Hr]. apply lookup_replicate in Hr. destruct Hr as [[=] _]. }
  destruct (run_pool_ok batches schedule _ w Hbs Hc H0') as [Hp _].
  rewrite Er in Hp. cbn [fst] in Hp.
  split; [now apply completed_results_ok|].
  destruct Hp as (Hlen & _ & Hnd & Hfin).
  split; [exact Hnd|]. intros i Hi. apply Hfin in Hi. destruct Hi as [r Hr].
  rewrite <- Hlen. eapply lookup_lt_Some; eauto.
Qed.

(** **** A schedule that reaches the end *)

Lemma run_pool_app batches s1 s2 p (w : world) :
  run_pool batches (s1 ++ s2) p w =
    run_pool batches s2 (fst (run_pool batches s1 p w)) (snd (run_pool batches s1 p w)).
Proof.
  revert p w. induction s1 as [|i s1 IH]; intros p w; [reflexivity|].
  cbn [app Embedder.run_pool]. destruct (pool_step batches i p w) as [p' w']. apply IH.
Qed.

Lemma pool_step_middle batches ds s ws fin (w : world) b :
  batches !! length ds = Some b ->
  pool_step batches (length ds) (Pool (ds ++ s :: ws) fin) w =
    (Pool (ds ++ fst (task_step
                        (length (List.filter holds_slot (ds ++ s :: ws)) <? max_concurrent)%nat
                        b s w) :: ws)
          (if is_done (fst (task_step
                        (length (List.filter holds_slot (ds ++ s :: ws)) <? max_concurrent)%nat
                        b s w)) && negb (is_done s)
           then fin ++ [length ds] else fin),
     snd (task_step
            (length (List.filter holds_slot (ds ++ s :: ws)) <? max_concurrent)%nat
            b s w)).
Proof.
  intros Hb. unfold Embedder.pool_step. cbn [states finished].
  rewrite list_lookup_middle by reflexivity. rewrite Hb.
  destruct (task_step _ b s w) as [s' w']. cbn [fst snd].
  rewrite insert_app_r_alt by reflexivity. now rewrite Nat.sub_diag.
Qed.

Lemma no_slot_held ds k :
  Forall (fun s => is_done s = true) ds ->
  List.filter holds_slot (ds ++ replicate k Waiting) = [].
Proof.
  intros Hd. rewrite List.filter_app.
  assert (E1 : List.filter holds_slot ds = []).
  { induction Hd as [|s ds Hs _ IH]; [reflexivity|].
    destruct s; try discriminate. exact IH. }
  assert (E2 : List.filter holds_slot (replicate k Waiting) = [])
    by (induction k as [|k IH]; [reflexivity | exact IH]).
  now rewrite E1, E2.
Qed.

(** With a free slot and a faithful service, four steps take a waiting
    task to its end. *)
Lemma run_pool_one_task batches ds k fin (w : world) b :
  (1 <= max_concurrent)%nat ->
  batches !! length ds = Some b ->
  Forall (fun s => is_done s = true) ds ->
  exists r w',
    run_pool batches (replicate 4 (length ds))
      (Pool (ds ++ Waiting :: replicate k Waiting) fin) w
    = (Pool (ds ++ Done r :: replicate k Waiting) (fin ++ [length ds]), w').
Proof.
  intros Hmc Hb Hd. cbn [replicate Embedder.run_pool].
  rewrite (pool_step_middle batches ds Waiting _ fin w b Hb).
  change (Waiting :: replicate k Waiting) with (replicate (S k) Waiting).
  rewrite (no_slot_held ds (S k) Hd). cbn [length].
  assert (Hfree : (0 <? max_concurrent)%nat = true) by (apply Nat.ltb_lt; lia).
  rewrite Hfree. cbn [Embedder.task_step fst snd is_done negb andb replicate].
  rewrite (pool_step_middle batches ds Acquired _ fin w b Hb).
  cbn [Embedder.task_step].
  destruct (mapM _ _) as [[|m ms]|]; cbn [fst snd is_done negb andb].
  - repeat (rewrite (pool_step_middle batches ds (Done _) _ _ w b Hb);
            cbn [Embedder.task_step fst snd is_done negb andb]).
    eauto.
  - rewrite (pool_step_middle batches ds (Posting _ _ _) _ fin w b Hb).
    cbn [Embedder.task_step].
    destruct (server_ok (length (requests w)) (m :: ms)) as (data & -> & _).
    cbn [fst snd is_done negb andb].
    rewrite (pool_step_middle batches ds (Storing _ _ _) _ fin _ b Hb).
    cbn [Embedder.task_step fst snd is_done negb andb]. eauto.
  - repeat (rewrite (pool_step_middle batches ds (Done _) _ _ w b Hb);
            cbn [Embedder.task_step fst snd is_done negb andb]).
    eauto.
Qed.

(** Running the tasks one after the other takes all of them to their
    end. *)
Lemma run_pool_sequential batches : forall k ds fin (w : world),
  (1 <= max_concurrent)%nat ->
  length batches = (length ds + k)%nat ->
  Forall (fun s => is_done s = true) ds ->
  exists p' w',
    run_pool batches (concat (map (replicate 4) (seq (length ds) k)))
      (Pool (ds ++ replicate k Waiting) fin) w = (p', w') /\
    length (finished p') = (length fin + k)%nat.
Proof.
  induction k as [|k IH]; intros ds fin w Hmc Hlen Hd.
  - exists (Pool (ds ++ []) fin), w. split; [reflexivity|]. simpl. lia.
  - cbn [seq map concat]. rewrite run_pool_app.
    assert (Hi : (length ds < length batches)%nat) by lia.
    destruct (lookup_lt_is_Some_2 batches _ Hi) as [b Hb].
    change (replicate (S k) Waiting) with (Waiting :: replicate k Waiting).
    destruct (run_pool_one_task batches ds k fin w b Hmc Hb Hd) as (r & w1 & ->).
    cbn [fst snd].
    specialize (IH (ds ++ [Done r]) (fin ++ [length ds]) w1 Hmc).
    rewrite !length_app, Nat.add_1_r, <- app_assoc in IH.
    destruct IH as (p' & w' & E & Hl).
    + cbn [length]. lia.
    + apply Forall_app. split; [exact Hd|]. now constructor.
    + exists p', w'. split; [exact E|]. cbn [length] in Hl. lia.
Qed.

End Consistency.

(** *** Batches *)

Local Abbreviation batches_of := (batches_of batch_size).

Lemma range_step_length stop step :
  length (range_step stop step) = Z.to_nat ((stop + step - 1) / step).
Proof. unfold range_step. now rewrite length_map, length_seq. Qed.

Lemma concat_take_drop {B} (l : list B) k c :
  concat (map (fun j => firstn k (skipn (j * k) l)) (seq 0 c)) = firstn (c * k) l.
Proof.
  induction c as [|c IH]; [reflexivity|].
  rewrite seq_S, map_app, concat_app, IH. simpl.
  rewrite app_nil_r. rewrite take_take_drop. f_equal. lia.
Qed.

(** The batches are consecutive pieces of the input. *)
Lemma batches_concat texts :
  0 < batch_size ->
  exists bs, batches_of texts = inr bs /\ concat bs = texts /\
             length bs = length (range_step (len texts) batch_size).
Proof.
  intros Hbs. unfold Embedder.batches_of.
  assert (E0 : (batch_size =? 0) = false) by lia.
  assert (E1 : (batch_size <? 0) = false) by lia.
  rewrite E0, E1. eexists. split; [reflexivity|]. split; [|now rewrite length_map].
  unfold range_step. rewrite map_map.
  set (c := Z.to_nat ((len texts + batch_size - 1) / batch_size)).
  set (k := Z.to_nat batch_size).
  rewrite (map_ext_in _ (fun j => firstn k (skipn (j * k) texts))).
  - rewrite concat_take_drop. apply firstn_all2.
    assert (len texts <= Z.of_nat c * batch_size); [|unfold len, k in *; nia].
    unfold c. rewrite Z2Nat.id by (apply Z.div_pos; unfold len; lia).
    pose proof (Z.mul_div_le (len texts + batch_size - 1) batch_size Hbs).
    pose proof (Z.mod_pos_bound (len texts + batch_size - 1) batch_size Hbs).
    pose proof (Z.div_mod (len texts + batch_size - 1) batch_size ltac:(lia)).
    nia.
  - intros j _. rewrite slice_nonneg by nia.
    unfold k. f_equal; [f_equal; lia | f_equal; nia].
Qed.

(** An input that fits in one batch is one batch. *)
Lemma batches_single texts :
  texts <> [] -> len texts <= batch_size -> batches_of texts = inr [texts].
Proof.
  intros Hne Hle. unfold Embedder.batches_of.
  assert (Hpos : 0 < len texts) by (destruct texts; [congruence | unfold len; simpl; lia]).
  assert (E0 : (batch_size =? 0) = false) by lia.
  assert (E1 : (batch_size <? 0) = false) by lia.
  rewrite E0, E1. unfold range_step.
  replace ((len texts + batch_size - 1) / batch_size) with 1
    by (apply Z.div_unique with (len texts - 1); lia).
  simpl. now rewrite slice_all by lia.
Qed.

(** *** embed_texts *)

Local Abbreviation embed_texts :=
  (embed_texts _compute_hash server model batch_size max_concurrent).

Lemma seq_lookup_enumerate {B C} (f : list B -> C) (pre l : list (list B)) :
  map (fun i => (i, f (default [] ((pre ++ l) !! i)))) (seq (length pre) (length l))
  = enumerate_from (length pre) (map f l).
Proof.
  revert pre. induction l as [|x l IH]; intros pre; [reflexivity|].
  cbn [length seq map enumerate_from].
  rewrite list_lookup_middle by reflexivity. cbn [default]. f_equal.
  specialize (IH (pre ++ [x])).
  rewrite length_app, Nat.add_1_r, <- app_assoc in IH. exact IH.
Qed.

(** C3: with a faithful service, which may list its [data] entries in
    any order, [embed_texts] returns for the [i]-th text the vector
    expected for it.  The tasks of the batches are interleaved by the
    event loop in any way: some schedule takes all of them to their
    end, and under every schedule that does so the call returns the
    vectors aligned with the input, with [as_completed] as with
    [gather]. *)
Theorem embed_texts_aligned (emb : pystr -> vector) texts show_progress (w : world) :
  0 < batch_size ->
  (1 <= max_concurrent)%nat ->
  faithful server emb ->
  (forall t1 t2, In t1 texts -> In t2 texts ->
     _compute_hash t1 = _compute_hash t2 -> t1 = t2) ->
  (exists schedule, fst (embed_texts schedule texts show_progress w) <> Unfinished) /\
  (forall schedule,
     fst (embed_texts schedule texts show_progress w) <> Unfinished ->
     fst (embed_texts schedule texts show_progress w) =
       Returned (map (fun t => Some (expected emb (cache w) t)) texts)).
Proof.
  intros Hbs Hmc Hs Hinj.
  destruct (batches_concat texts Hbs) as (bs & Eb & Hcat & _).
  set (F := fun t => Some (expected emb (cache w) t)).
  assert (Hall : Forall (Forall (fun t => In t texts)) bs).
  { apply List.Forall_forall. intros b Hb. apply List.Forall_forall. intros t Ht.
    rewrite <- Hcat. apply in_concat. exists b. now split. }
  pose proof (cache_inv_init emb texts (cache w)) as Hinv.
  split.
  - (* the tasks one after the other *)
    destruct (run_pool_sequential emb Hs bs (length bs) [] [] w Hmc eq_refl
                (List.Forall_nil _)) as (p' & w' & Er & Hl).
    exists (concat (map (replicate 4) (seq 0 (length bs)))).
    unfold Embedder.embed_texts. rewrite Eb.
    cbn [length app] in Er. rewrite Er.
    destruct (run_pool_results emb texts (cache w) Hinj Hs bs _ w p' w' Hall Hinv Er)
      as (-> & _).
    rewrite length_map, Hl, Nat.eqb_refl. discriminate.
  - intros schedule. unfold Embedder.embed_texts. rewrite Eb.
    destruct (Embedder.run_pool _ _ _ _ bs schedule _ w) as [p' w'] eqn:Er.
    destruct (run_pool_results emb texts (cache w) Hinj Hs bs _ w p' w' Hall Hinv Er)
      as (-> & Hnd & Hlt).
    rewrite length_map.
    destruct (length (finished p') =? length bs)%nat eqn:En;
      [|intros Hne; now elim Hne].
    intros _. cbn [fst]. f_equal. apply Nat.eqb_eq in En.
    assert (Hperm : Permutation (finished p') (seq 0 (length bs))).
    { apply NoDup_Permutation_bis;
        [apply NoDup_ListNoDup; exact Hnd | rewrite length_seq; lia|].
      intros i Hi. apply in_seq. specialize (Hlt i Hi). lia. }
    assert (Hc : Permutation
                   (map (fun i => (i, map F (default [] (bs !! i)))) (finished p'))
                   (enumerate (map (map F) bs))).
    { rewrite Hperm. pose proof (seq_lookup_enumerate (map F) [] bs) as E.
      cbn [length app] in E. now rewrite E. }
    rewrite <- Hcat, concat_map.
    destruct show_progress.
    + now apply assemble_ordered.
    + pose proof (gathered_enumerate _ _ Hc) as Eg. rewrite length_map in Eg.
      fold F. rewrite Eg. now apply assemble_ordered.
Qed.

(** A task that runs alone does what [_embed_batch_with_cache] does. *)
Lemma task_alone_embed_batch_with_cache batch (w : world) :
  task_alone _compute_hash server model batch w =
    (Done (fst (_embed_batch_with_cache batch w)),
     snd (_embed_batch_with_cache batch w)).
Proof.
  unfold task_alone, Embedder._embed_batch_with_cache, bind, get_batch.
  cbn [Embedder.task_step fst snd].
  destruct (mapM _ _) as [[|m ms]|]; [reflexivity | | reflexivity].
  unfold Embedder._embed_batch, set_batch, lift, ret, raise, max_retries.
  cbn [Embedder.task_step Embedder.embed_batch_loop bind post fst snd requests cache
       Nat.eqb Nat.sub].
  unfold bind, post, ret, raise. cbn [fst snd requests cache].
  destruct (server (length (requests w)) (m :: ms)); cbn; try reflexivity;
    destruct (server (length (requests w ++ [m :: ms])) (m :: ms)); cbn;
      try reflexivity;
    destruct (server (length ((requests w ++ [m :: ms]) ++ [m :: ms])) (m :: ms)); cbn;
      reflexivity.
Qed.

End WithEnvironment.

Import EmbedderExample.

(** Two batches of an empty cache, with six slots. *)
Lemma embed_texts_aligned_witness :
  (exists schedule,
     fst (embed_texts hash server model 2 6 schedule texts true w_empty) <> Unfinished) /\
  (forall schedule,
     fst (embed_texts hash server model 2 6 schedule texts true w_empty) <> Unfinished ->
     fst (embed_texts hash server model 2 6 schedule texts true w_empty) =
       Returned (map (fun t => Some (expected hash model emb (cache w_empty) t)) texts)).
Proof.
  apply (embed_texts_aligned hash server model 2 6 emb texts true w_empty).
  - reflexivity.
  - lia.
  - intros n ts. eexists. split; [reflexivity|].
    apply Permutation_sym, Permutation_rev.
  - intros t1 t2 _ _ E. exact E.
Defined.

(** The two tasks interleaved: the second batch sends its request
    first and finishes first. *)
Lemma embed_texts_interleaved_example :
  embed_texts hash server model 2 6 [0; 1; 1; 0; 1; 1; 0; 0]%nat texts true w_empty
  = (Returned [Some [inject_Z 1]; Some [inject_Z 2]; Some [inject_Z 3]],
     World (insert_rows hash model
              [(py "a", [inject_Z 1]); (py "bb", [inject_Z 2]); (py "ccc", [inject_Z 3])]
              ∅)
           [[py "ccc"]; [py "a"; py "bb"]]).
Proof. vm_compute. reflexivity. Qed.

(** With one slot the second task waits until the first has released
    it; a schedule that stops before that leaves the call unfinished. *)
Lemma embed_texts_one_slot_example :
  fst (embed_texts hash server model 2 1 [0; 1; 0; 1; 0; 0; 1; 1; 1; 1]%nat
         texts false w_empty)
    = Returned [Some [inject_Z 1]; Some [inject_Z 2]; Some [inject_Z 3]] /\
  fst (embed_texts hash server model 2 1 [0; 1; 0; 1; 0; 0; 1; 1]%nat
         texts false w_empty)
    = Unfinished.
Proof. split; vm_compute; reflexivity. Qed.


(** The scenario run through [embed_texts], with a batch size of 3:
    the one task sends one request, for the text that missed. *)
Lemma embed_texts_mix_example :
  embed_texts hash server model 3 6 [0; 0; 0; 0]%nat texts true w_cached
  = (Returned [Some [inject_Z 10]; Some [inject_Z 2]; Some [inject_Z 30]],
     World (<[(hash (py "bb"), model) := emb (py "bb")]> (cache w_cached))
           [[py "bb"]]).
Proof. vm_compute. reflexivity. Qed.

End EmbedderProofs.

(** ** Properties of the vector store *)

Module VectorStoreProofs.
Import Embedder VectorStore RetrieverSpec StrFacts.

Section WithFaiss.
Variable dimension : nat.
Variable normalize_L2 : vector -> vector.

Local Abbreviation add_vectors := (add_vectors dimension normalize_L2).

(** What a successful, non-empty [add_vectors] does. *)
Lemma add_vectors_inr st chunks st' :
  chunks <> [] ->
  add_vectors st chunks = inr st' ->
  exists rows vectors,
    index st = Some rows /\
    mapM dc_embedding chunks = Some vectors /\
    st' = Store (Some (rows ++ map normalize_L2 vectors))
                (chunk_ids st ++ map dc_chunk_id chunks).
Proof.
  intros Hne. unfold VectorStore.add_vectors.
  destruct chunks as [|c chunks]; [congruence|].
  intros E. repeat case_match; simplify_eq. eauto.
Qed.

(** It succeeds when the index exists and every chunk carries an
    embedding of the right dimension. *)
Lemma add_vectors_succeeds st rows chunks :
  index st = Some rows ->
  Forall (fun c => exists e, dc_embedding c = Some e /\ length e = dimension) chunks ->
  exists st', add_vectors st chunks = inr st'.
Proof.
  intros Hi Hc. unfold VectorStore.add_vectors.
  destruct chunks as [|c chunks]; [eauto|].
  assert (Hm : exists vectors, mapM dc_embedding (c :: chunks) = Some vectors /\
                 forallb (fun v => (length v =? dimension)%nat) vectors = true).
  { clear Hi. induction Hc as [|x l (e & He & Hl) _ (vs & Hvs & Hall)].
    - exists []. split; reflexivity.
    - exists (e :: vs). split.
      + cbn [mapM]. rewrite He, Hvs. reflexivity.
      + simpl. rewrite Hall, Hl, Nat.eqb_refl. reflexivity. }
  destruct Hm as (vectors & -> & Hall).
  assert (Hrect : forallb (fun v => (length v =? length (hd [] vectors))%nat) vectors
                  = true).
  { destruct vectors as [|v vs]; [reflexivity|].
    pose proof Hall as Hall'. simpl in Hall'.
    apply andb_true_iff in Hall'. destruct Hall' as [Hv _].
    apply Nat.eqb_eq in Hv. simpl hd. rewrite Hv. exact Hall. }
  rewrite Hrect, Hi, Hall. simpl. eauto.
Qed.

Lemma mapM_length {A B} (f : A -> option B) l k :
  mapM f l = Some k -> length k = length l.
Proof. intros E. apply mapM_Some_1 in E. symmetry. eapply Forall2_length, E. Qed.

Lemma add_vectors_counts st chunks st' :
  counts_agree st -> add_vectors st chunks = inr st' -> counts_agree st'.
Proof.
  intros Hinv E. destruct chunks as [|c chunks].
  - injection E as <-. exact Hinv.
  - apply add_vectors_inr in E; [|discriminate].
    destruct E as (rows & vectors & Hi & Hm & ->).
    pose proof (mapM_length _ _ _ Hm) as Hl.
    unfold counts_agree, get_size in *. rewrite Hi in Hinv. cbn [index chunk_ids].
    unfold ntotal in *. rewrite !len_app, Hinv. f_equal.
    unfold len. rewrite !length_map. now rewrite Hl.
Qed.

(** C7: the count of vectors in the index equals the length of the id
    list after [create_index], where both are empty, and every
    [add_vectors] call that goes through keeps it so: it appends the
    normalised embeddings of the chunks to the index and their chunk ids
    to the list, both in the order of the chunks. *)
Theorem vector_count_matches_mapping st chunks :
  (counts_agree (create_index st) /\
   index (create_index st) = Some [] /\ chunk_ids (create_index st) = []) /\
  (counts_agree st ->
   forall st', add_vectors st chunks = inr st' ->
     counts_agree st' /\
     chunk_ids st' = chunk_ids st ++ map dc_chunk_id chunks /\
     (chunks <> [] ->
      exists rows vectors,
        index st = Some rows /\
        Forall2 (fun c v => dc_embedding c = Some v) chunks vectors /\
        index st' = Some (rows ++ map normalize_L2 vectors))).
Proof.
  split; [repeat split|].
  intros Hinv st' E. split; [eapply add_vectors_counts; eauto|].
  destruct chunks as [|c chunks].
  - injection E as <-. simpl. rewrite app_nil_r. split; [reflexivity | congruence].
  - apply add_vectors_inr in E; [|discriminate].
    destruct E as (rows & vectors & Hi & Hm & ->). simpl.
    split; [reflexivity|]. intros _. exists rows, vectors.
    split; [exact Hi|]. split; [|reflexivity].
    now apply mapM_Some_1.
Qed.

(** An exception leaves the object as it was, so the equality holds
    after any sequence of calls on a fresh object. *)
Lemma run_counts_agree ops : counts_agree (run dimension normalize_L2 ops init).
Proof.
  unfold run.
  assert (G : forall st, counts_agree st ->
              counts_agree (fold_left (step dimension normalize_L2) ops st)).
  { induction ops as [|o ops IH]; intros st Hst; [exact Hst|].
    simpl. apply IH. destruct o as [|chunks]; simpl.
    - reflexivity.
    - destruct (add_vectors st chunks) as [e|st'] eqn:E; [exact Hst|].
      eapply add_vectors_counts; eauto. }
  apply G. reflexivity.
Qed.

End WithFaiss.

Import RetrieverExample.

Lemma vector_count_matches_mapping_witness :
  counts_agree (Store (Some [[1%Q]]) [py "d1_chunk_0"]) /\
  counts_agree (Store (Some [[1%Q]; [2%Q]; [3%Q]])
                  [py "d1_chunk_0"; py "d2_chunk_0"; py "d2_chunk_1"]).
Proof.
  split; [reflexivity|].
  apply (proj2 (vector_count_matches_mapping 1 (fun v => v)
                  (Store (Some [[1%Q]]) [py "d1_chunk_0"])
                  [chunk (py "d2_chunk_0") [2%Q]; chunk (py "d2_chunk_1") [3%Q]])).
  - reflexivity.
  - reflexivity.
Defined.

End VectorStoreProofs.

(** ** Properties of the retriever *)

Module RetrieverProofs.
Import Embedder Retriever RetrieverSpec SortFacts.

(** *** Scores *)

Lemma Qltb_true a b : Qltb a b = true <-> (a < b)%Q.
Proof.
  unfold Qltb. rewrite negb_true_iff, <- not_true_iff_false, Qle_bool_iff.
  split; [apply Qnot_le_lt | apply Qlt_not_le].
Qed.

Lemma Qltb_false a b : Qltb a b = false <-> (b <= a)%Q.
Proof. unfold Qltb. now rewrite negb_false_iff, Qle_bool_iff. Qed.

Lemma score_before_asym (x y : SearchResult) :
  Qltb (sr_score y) (sr_score x) = true -> Qltb (sr_score x) (sr_score y) = false.
Proof. rewrite Qltb_true, Qltb_false. apply Qlt_le_weak. Qed.

Lemma score_not_after_trans (x y z : SearchResult) :
  Qltb (sr_score x) (sr_score y) = false ->
  Qltb (sr_score y) (sr_score z) = false ->
  Qltb (sr_score x) (sr_score z) = false.
Proof. rewrite !Qltb_false. intros H1 H2. eapply Qle_trans; eauto. Qed.

Lemma sort_by_score_perm l : Permutation (sort_by_score l) l.
Proof. apply stable_sort_perm. Qed.

Lemma sort_by_score_descending l : descending (sort_by_score l).
Proof.
  unfold descending, sort_by_score.
  pose proof (stable_sort_sorted
                (fun a b => Qltb (sr_score b) (sr_score a))
                score_before_asym score_not_after_trans l) as Hs.
  induction Hs as [|x l' Hs IH Hx]; constructor; [exact IH|].
  eapply List.Forall_impl; [|exact Hx].
  intros y Hy. now apply Qltb_false.
Qed.

Lemma descending_firstn n l : descending l -> descending (firstn n l).
Proof.
  unfold descending. intros Hs. rewrite <- (firstn_skipn n l) in Hs.
  now apply StronglySorted_app_1_l in Hs.
Qed.

(** In a descending list a strictly larger score comes first. *)
Lemma descending_lookup l i j (x y : SearchResult) :
  descending l -> l !! i = Some x -> l !! j = Some y ->
  (sr_score y < sr_score x)%Q -> (i < j)%nat.
Proof.
  unfold descending. intros Hs. revert i j.
  induction Hs as [|a l Hs IH Ha]; intros i j Hi Hj Hlt; [discriminate|].
  destruct i as [|i], j as [|j]; simpl in *.
  - injection Hi as ->. injection Hj as ->. now apply Qlt_irrefl in Hlt.
  - lia.
  - injection Hj as ->. exfalso.
    rewrite List.Forall_forall in Ha.
    assert (Hx : In x l) by (apply list_elem_of_In; eapply list_elem_of_lookup_2; eauto).
    specialize (Ha x Hx). apply (Qlt_not_le _ _ Hlt). exact Ha.
  - apply -> Nat.succ_lt_mono. eapply IH; eauto.
Qed.

(** *** Title boost *)

Lemma matched_count_le kws title_lower :
  (matched_count kws title_lower <= length kws)%nat.
Proof. apply filter_length_le. Qed.

Lemma coverage_bounds (m n : nat) :
  (m <= n)%nat -> (0 < n)%nat ->
  (0 <= inject_Z (Z.of_nat m) / inject_Z (Z.of_nat n) <= 1)%Q.
Proof.
  intros Hmn Hn.
  assert (Hpos : (0 < inject_Z (Z.of_nat n))%Q)
    by (change 0%Q with (inject_Z 0); rewrite <- Zlt_Qlt; lia).
  split.
  - apply Qle_shift_div_l; [exact Hpos|]. rewrite Qmult_0_l.
    change 0%Q with (inject_Z 0). rewrite <- Zle_Qle. lia.
  - apply Qle_shift_div_r; [exact Hpos|]. rewrite Qmult_1_l.
    rewrite <- Zle_Qle. lia.
Qed.

Section WithCase.
Variable lower upper : pystr -> pystr.

Local Abbreviation boost := (_calculate_title_boost lower).

(** The boost is one plus the share of the keywords found in the
    lower-cased title, and one when there is nothing to count. *)
Lemma title_boost_formula query title :
  boost query title =
    if bool_decide (query = [] \/ title = [] \/ keywords (lower query) = [])
    then 1%Q
    else (1 + inject_Z (Z.of_nat (matched_count (keywords (lower query)) (lower title)))
              / inject_Z (Z.of_nat (length (keywords (lower query)))))%Q.
Proof.
  unfold Retriever._calculate_title_boost.
  destruct title as [|c title]; [now rewrite bool_decide_eq_true_2 by auto|].
  destruct query as [|d query]; [now rewrite bool_decide_eq_true_2 by auto|].
  destruct (keywords (lower (d :: query))) as [|k ks] eqn:Ek.
  - now rewrite bool_decide_eq_true_2 by auto.
  - rewrite bool_decide_eq_false_2; [reflexivity|].
    intros [? | [? | ?]]; discriminate.
Qed.

Lemma title_boost_bounds query title : (1 <= boost query title <= 2)%Q.
Proof.
  rewrite title_boost_formula. case_bool_decide as Hd.
  - split; [apply Qle_refl | discriminate].
  - assert (Hn : (0 < length (keywords (lower query)))%nat).
    { destruct (keywords (lower query)); [|simpl; lia].
      exfalso. apply Hd. auto. }
    destruct (coverage_bounds _ _ (matched_count_le (keywords (lower query))
                                     (lower title)) Hn) as [H0 H1].
    split.
    + rewrite <- (Qplus_0_r 1) at 1. apply Qplus_le_compat; [apply Qle_refl | exact H0].
    + change 2%Q with (1 + 1)%Q. apply Qplus_le_compat; [apply Qle_refl | exact H1].
Qed.

Lemma title_boost_no_keywords query title :
  keywords (lower query) = [] -> boost query title = 1%Q.
Proof.
  intros Hk. rewrite title_boost_formula.
  now rewrite bool_decide_eq_true_2 by auto.
Qed.

Lemma title_boost_case_stable query title :
  lower (upper query) = lower query ->
  lower (lower title) = lower title ->
  (upper query = [] <-> query = []) ->
  (lower title = [] <-> title = []) ->
  boost query title = boost (upper query) (lower title).
Proof.
  intros Hq Ht Hqe Hte. rewrite !title_boost_formula, Hq, Ht.
  rewrite (bool_decide_ext
             (upper query = [] \/ lower title = [] \/ keywords (lower query) = [])
             (query = [] \/ title = [] \/ keywords (lower query) = []));
    [reflexivity | now rewrite Hqe, Hte].
Qed.

(** C6 (amended): for every query and title the boost is
    [1 + matched / total] over the extracted keywords, it lies in
    [1, 2], and it is 1 when no keyword is extracted.  It is stable
    under case, [boost(q, T) = boost(q.upper(), T.lower())], for the
    queries and titles whose lower-casing is not changed by a previous
    [upper] or [lower] (all ASCII text, for one). *)
Theorem title_boost_properties query title :
  ((1 <= boost query title <= 2)%Q /\
   (keywords (lower query) = [] -> boost query title = 1%Q) /\
   boost query title =
     if bool_decide (query = [] \/ title = [] \/ keywords (lower query) = [])
     then 1%Q
     else (1 + inject_Z (Z.of_nat (matched_count (keywords (lower query)) (lower title)))
               / inject_Z (Z.of_nat (length (keywords (lower query)))))%Q) /\
  (lower (upper query) = lower query ->
   lower (lower title) = lower title ->
   (upper query = [] <-> query = []) ->
   (lower title = [] <-> title = []) ->
   boost query title = boost (upper query) (lower title)).
Proof.
  split.
  - split; [apply title_boost_bounds|].
    split; [apply title_boost_no_keywords | apply title_boost_formula].
  - apply title_boost_case_stable.
Qed.

End WithCase.

(** *** Local search and fusion *)

Section WithServices.
Variable lower : pystr -> pystr.
Variable time_decay_config : TimeDecayConfig.
Variable similarity_threshold : Q.
Variable now : Z.
Variable _get_chunk_data_with_context : pystr -> option chunk_data.
Variable web_search : pystr -> Z -> list web_item.
Variable dimension : nat.
Variable normalize_L2 : vector -> vector.
Variable index_search : list vector -> vector -> Z -> list (Q * Z).

Local Abbreviation local_result := (local_result lower time_decay_config now).
Local Abbreviation score_hits :=
  (score_hits lower time_decay_config similarity_threshold now
     _get_chunk_data_with_context).
Local Abbreviation survivors :=
  (survivors lower time_decay_config similarity_threshold now
     _get_chunk_data_with_context).
Local Abbreviation search := (VectorStore.search dimension normalize_L2 index_search).
Local Abbreviation local_search :=
  (local_search lower time_decay_config similarity_threshold now
     _get_chunk_data_with_context dimension normalize_L2 index_search).
Local Abbreviation web_search_async := (web_search_async web_search).
Local Abbreviation hybrid_search :=
  (hybrid_search lower time_decay_config similarity_threshold now
     _get_chunk_data_with_context web_search dimension normalize_L2 index_search).

(** The loop appends the survivors, in the order of the hits. *)
Lemma score_hits_survivors query hits results :
  score_hits query hits results = results ++ survivors query hits.
Proof.
  revert results. induction hits as [|[cid sim] hits IH]; intros results.
  - now rewrite app_nil_r.
  - cbn [Retriever.score_hits RetrieverSpec.survivors omap list_omap fst snd].
    destruct (_get_chunk_data_with_context cid) as [cd|]; [|apply IH].
    destruct (Qgeb sim similarity_threshold); [|apply IH].
    rewrite IH, <- app_assoc. reflexivity.
Qed.

(** A survivor is the result of a hit with metadata whose raw
    similarity reaches the threshold. *)
Lemma In_survivors query hits r :
  In r (survivors query hits) <->
  exists cid sim cd,
    In (cid, sim) hits /\ _get_chunk_data_with_context cid = Some cd /\
    (similarity_threshold <= sim)%Q /\ r = local_result query cid sim cd.
Proof.
  unfold RetrieverSpec.survivors.
  rewrite <- list_elem_of_In, list_elem_of_omap. split.
  - intros ([cid sim] & Hin & Hr). simpl in Hr.
    destruct (_get_chunk_data_with_context cid) as [cd|] eqn:Ecd; [|discriminate].
    destruct (Qgeb sim similarity_threshold) eqn:Eg; [|discriminate].
    injection Hr as <-. exists cid, sim, cd.
    apply list_elem_of_In in Hin. apply Qle_bool_iff in Eg. auto.
  - intros (cid & sim & cd & Hin & Ecd & Hle & ->).
    exists (cid, sim). split; [now apply list_elem_of_In|].
    simpl. rewrite Ecd. apply Qle_bool_iff in Hle.
    unfold Qgeb. now rewrite Hle.
Qed.

(** [local_search] as one expression over the hits. *)
Lemma local_search_unfold st query query_vector top_k out :
  local_search st query query_vector top_k = inr out ->
  exists hits,
    (0 < top_k -> search st query_vector (top_k * 3) = inr hits) /\
    out = firstn (Z.to_nat top_k) (sort_by_score (survivors query hits)).
Proof.
  unfold Retriever.local_search.
  destruct (top_k <=? 0) eqn:Ek.
  - intros [= <-]. exists []. split; [lia|]. now rewrite firstn_nil.
  - destruct (search st query_vector (top_k * 3)) as [e|hits] eqn:Es; [discriminate|].
    intros Hout. exists hits. split; [reflexivity|].
    assert (E : out = take_top top_k (sort_by_score (score_hits query hits []))).
    { destruct hits; injection Hout as <-; [|reflexivity].
      unfold take_top. simpl. now rewrite firstn_nil. }
    rewrite E, score_hits_survivors. reflexivity.
Qed.

(** C5: the results of [local_search] are the first [top_k] entries
    of a ranking, in descending final score, of exactly the hits that
    have metadata and whose raw similarity is at least the threshold:
    a hit below the threshold is left out whatever its boosts would
    be.  The score of each result is
    [similarity * time_weight * title_boost]. *)
Theorem local_search_ranked st query query_vector top_k out :
  local_search st query query_vector top_k = inr out ->
  exists hits ranked,
    (0 < top_k -> search st query_vector (top_k * 3) = inr hits) /\
    Permutation ranked (survivors query hits) /\
    descending ranked /\
    out = firstn (Z.to_nat top_k) ranked /\
    (forall r, In r ranked <->
       exists cid sim cd,
         In (cid, sim) hits /\ _get_chunk_data_with_context cid = Some cd /\
         (similarity_threshold <= sim)%Q /\ r = local_result query cid sim cd) /\
    (forall cid sim cd,
       sr_score (local_result query cid sim cd) =
         (sim * _calculate_time_decay time_decay_config now (cd_modified_at cd)
              * _calculate_title_boost lower query (cd_title cd))%Q).
Proof.
  intros E. apply local_search_unfold in E. destruct E as (hits & Hs & ->).
  exists hits, (sort_by_score (survivors query hits)).
  split; [exact Hs|].
  split; [apply sort_by_score_perm|].
  split; [apply sort_by_score_descending|].
  split; [reflexivity|].
  split; [|reflexivity].
  intros r. rewrite <- In_survivors.
  split; apply Permutation_in.
  - apply sort_by_score_perm.
  - apply Permutation_sym, sort_by_score_perm.
Qed.

Lemma local_search_descending st query query_vector top_k out :
  local_search st query query_vector top_k = inr out ->
  descending out /\ (length out <= Z.to_nat top_k)%nat /\
  Forall (fun r => sr_source r = Local) out.
Proof.
  intros E. apply local_search_unfold in E. destruct E as (hits & _ & ->).
  split; [apply descending_firstn, sort_by_score_descending|].
  split; [rewrite length_firstn; lia|].
  apply List.Forall_forall. intros r Hr.
  assert (Hr' : In r (survivors query hits)).
  { apply (Permutation_in _ (sort_by_score_perm _)).
    rewrite <- (firstn_skipn (Z.to_nat top_k)). apply in_or_app. now left. }
  apply In_survivors in Hr'.
  destruct Hr' as (cid & sim & cd & _ & _ & _ & ->). reflexivity.
Qed.

(** Without an index, [hybrid_search] is the web search alone. *)
Lemma hybrid_search_no_index st query query_vector local_k network_k :
  VectorStore.index st = None ->
  hybrid_search st query query_vector local_k network_k =
    inr (sort_by_score
           (if network_k >? 0 then web_search_async query network_k else [])).
Proof.
  intros Hs. unfold Retriever.hybrid_search, Retriever.local_search.
  unfold VectorStore.search. rewrite Hs.
  destruct (local_k >? 0); [destruct (local_k <=? 0)|]; reflexivity.
Qed.


(** Every web result has the score 0.5, whatever the query and the
    fetched item. *)
Lemma web_results_fixed_score query top_k :
  Forall (fun r => sr_score r = 0.5%Q /\ sr_source r = Web)
    (web_search_async query top_k).
Proof.
  unfold Retriever.web_search_async. apply Forall_map.
  apply List.Forall_forall. intros item _. split; reflexivity.
Qed.

(** [local_results + web_results] with the sort that follows. *)
Lemma hybrid_search_inr st query query_vector local_k network_k merged :
  hybrid_search st query query_vector local_k network_k = inr merged ->
  exists local_results,
    (if local_k >? 0 then local_search st query query_vector local_k else inr [])
      = inr local_results /\
    Forall (fun r => sr_source r = Local) local_results /\
    merged = sort_by_score
               (local_results ++
                (if network_k >? 0 then web_search_async query network_k else [])).
Proof.
  unfold Retriever.hybrid_search.
  destruct (if local_k >? 0 then local_search st query query_vector local_k else inr [])
    as [e|local_results] eqn:El; [discriminate|].
  intros [= <-]. exists local_results. split; [reflexivity|]. split; [|reflexivity].
  destruct (local_k >? 0).
  - now apply local_search_descending in El.
  - injection El as <-. constructor.
Qed.

(** C10: every result of the web side has the score 0.5 and the source
    [web], whatever the query, the budget and the items fetched.  The
    list returned by [hybrid_search] holds the local results and the
    web results and no others, and it is in descending order of score;
    so a local result whose score exceeds 0.5 stands before every web
    result.  The sort being stable, a local result with score 0.5 does
    too, and a local result with a score below 0.5 stands behind every
    web result. *)
Theorem web_results_rank_below st query query_vector local_k network_k merged :
  hybrid_search st query query_vector local_k network_k = inr merged ->
  (forall q k, Forall (fun r => sr_score r = 0.5%Q /\ sr_source r = Web)
                 (web_search_async q k)) /\
  (exists local_results,
     (if local_k >? 0 then local_search st query query_vector local_k else inr [])
       = inr local_results /\
     Forall (fun r => sr_source r = Local) local_results /\
     Permutation merged
       (local_results ++
        (if network_k >? 0 then web_search_async query network_k else []))) /\
  descending merged /\
  Forall (fun r => sr_source r = Web -> sr_score r = 0.5%Q) merged /\
  (forall i j l r,
     merged !! i = Some l -> merged !! j = Some r ->
     sr_source l = Local -> sr_source r = Web ->
     ((0.5 <= sr_score l)%Q -> (i < j)%nat) /\
     ((sr_score l < 0.5)%Q -> (j < i)%nat)).
Proof.
  intros E. apply hybrid_search_inr in E.
  destruct E as (local_results & El & Hloc & ->).
  set (web_results := if network_k >? 0 then web_search_async query network_k else []).
  assert (Hweb : Forall (fun r => sr_score r = 0.5%Q /\ sr_source r = Web) web_results).
  { unfold web_results. destruct (network_k >? 0); [|constructor].
    apply web_results_fixed_score. }
  assert (Hscore : forall r, In r (sort_by_score (local_results ++ web_results)) ->
                     sr_source r = Web -> sr_score r = 0.5%Q).
  { intros r Hin Hr.
    apply (Permutation_in _ (sort_by_score_perm _)), in_app_or in Hin.
    rewrite List.Forall_forall in Hloc, Hweb. destruct Hin as [Hin | Hin].
    - rewrite (Hloc r Hin) in Hr. discriminate.
    - now apply Hweb. }
  split; [intros q k; apply web_results_fixed_score|].
  split; [exists local_results; split; [exact El|];
          split; [exact Hloc | apply sort_by_score_perm]|].
  split; [apply sort_by_score_descending|].
  split; [apply List.Forall_forall; exact Hscore|].
  intros i j l r Hi Hj Hl Hr.
  assert (Hr5 : sr_score r = 0.5%Q).
  { apply Hscore; [|exact Hr].
    apply list_elem_of_In. eapply list_elem_of_lookup_2; eauto. }
  assert (Hs : StronglySorted
                 (in_order (fun a b => Qltb (sr_score b) (sr_score a)) local_side)
                 (sort_by_score (local_results ++ web_results))).
  { apply stable_sort_in_order.
    - intros x y. apply score_before_asym.
    - intros x y z. apply score_not_after_trans.
    - eapply List.Forall_impl; [|exact Hloc].
      intros x Hx. unfold local_side. now rewrite Hx.
    - eapply List.Forall_impl; [|exact Hweb].
      intros x [_ Hx]. unfold local_side. now rewrite Hx. }
  assert (Hne : i <> j).
  { intros ->. rewrite Hi in Hj. injection Hj as ->. rewrite Hl in Hr. discriminate. }
  assert (Hfl : local_side l = true) by (unfold local_side; now rewrite Hl).
  assert (Hfr : local_side r = false) by (unfold local_side; now rewrite Hr).
  split.
  - intros Hle. destruct (Nat.lt_ge_cases i j) as [Hlt | Hge]; [exact Hlt | exfalso].
    assert (Hji : (j < i)%nat) by lia.
    destruct (StronglySorted_at _ _ _ _ _ _ Hs Hj Hi Hji) as [_ [Hb | [Hb | Hb]]];
      [|congruence | congruence].
    apply Qltb_true in Hb. rewrite Hr5 in Hb.
    apply (Qlt_not_le _ _ Hb). exact Hle.
  - intros Hlt. destruct (Nat.lt_ge_cases j i) as [Hji | Hge]; [exact Hji | exfalso].
    assert (Hij : (i < j)%nat) by lia.
    destruct (StronglySorted_at _ _ _ _ _ _ Hs Hi Hj Hij) as [Hb _].
    unfold not_after in Hb. apply Qltb_false in Hb. rewrite Hr5 in Hb.
    apply (Qlt_not_le _ _ Hlt). exact Hb.
Qed.

End WithServices.

Import RetrieverExample.

(** On the example, with threshold 0.6: the hit with similarity 0.9 has
    no metadata, the hit with 0.5 is below the threshold although its
    boosted score would be 0.5 * 1.5 * 1.5, and the hit with 0.7 is
    returned with score 0.7 * 1 * 1. *)
Lemma local_search_example :
  VectorStore.search 1 (fun v => v) faiss st [1%Q] 15 =
    inr [(py "gone_chunk_0", 0.9%Q); (py "d2_chunk_0", 0.7%Q); (py "d1_chunk_0", 0.5%Q)] /\
  local_search py_lower cfg 0.6%Q now metadata 1 (fun v => v) faiss st query [1%Q] 5
    = inr [cooking] /\
  (sr_score cooking == 0.7)%Q /\
  (_calculate_time_decay cfg now (Some (days 990))
   * _calculate_title_boost py_lower query (py "Logseq tips") == 2.25)%Q.
Proof. repeat split; vm_compute; reflexivity. Qed.

Lemma local_search_ranked_witness :
  exists ranked, descending ranked /\ [cooking] = firstn 5 ranked.
Proof.
  destruct (local_search_ranked py_lower cfg 0.6%Q now metadata 1 (fun v => v) faiss
              st query [1%Q] 5 [cooking])
    as (hits & ranked & _ & _ & Hd & Hout & _).
  - vm_compute. reflexivity.
  - exists ranked. split; [exact Hd | exact Hout].
Defined.



(** The scenario of the specification for the time decay: three months
    and one year, modified 10, 400 and 180 days ago. *)
Lemma time_decay_scenario :
  _calculate_time_decay cfg (days 1000) (Some (days 990)) = 1.5%Q /\
  _calculate_time_decay cfg (days 1000) (Some (days 600)) = 0.8%Q /\
  _calculate_time_decay cfg (days 1000) (Some (days 820)) = 1%Q /\
  _calculate_time_decay cfg (days 1000) None = 1%Q.
Proof. repeat split. Qed.

(** Both notes are found and a page comes from the web: the page
    stands between the note with score 1.8 and the note with score 0.48. *)
Lemma web_results_rank_below_witness :
  descending [tips; web_result page; cooking_old] /\ (0 < 1)%nat /\ (1 < 2)%nat.
Proof.
  destruct (web_results_rank_below py_lower cfg 0.6%Q now archive web 1 (fun v => v)
              faiss_both st query [1%Q] 14 6 [tips; web_result page; cooking_old])
    as (_ & _ & Hd & _ & Hpos).
  - vm_compute. reflexivity.
  - split; [exact Hd|]. split.
    + apply (Hpos 0%nat 1%nat tips (web_result page)); try reflexivity.
      vm_compute. discriminate.
    + apply (Hpos 2%nat 1%nat cooking_old (web_result page)); try reflexivity.
Defined.

(** On ASCII text the case mappings do satisfy the side conditions. *)
Lemma lower_upper_ascii q : isascii q = true -> py_lower (py_upper q) = py_lower q.
Proof.
  induction q as [|c q IH]; [reflexivity|].
  simpl. intros Hq. apply andb_true_iff in Hq. destruct Hq as [Hc Hq].
  apply N.ltb_lt in Hc. unfold py_lower, py_upper in *. simpl.
  rewrite flat_map_app, (IH Hq). f_equal.
  unfold upper_cp, lower_cp.
  repeat match goal with
         | |- context [(?a <=? ?b)%N] => destruct (N.leb_spec a b); simpl
         | |- context [(?a =? ?b)%N] => destruct (N.eqb_spec a b); simpl
         end; try lia; try reflexivity; f_equal; lia.
Qed.

Lemma lower_lower_ascii t : isascii t = true -> py_lower (py_lower t) = py_lower t.
Proof.
  induction t as [|c t IH]; [reflexivity|].
  simpl. intros Ht. apply andb_true_iff in Ht. destruct Ht as [Hc Ht].
  apply N.ltb_lt in Hc. unfold py_lower in *. simpl.
  rewrite flat_map_app, (IH Ht). f_equal.
  unfold lower_cp.
  repeat match goal with
         | |- context [(?a <=? ?b)%N] => destruct (N.leb_spec a b); simpl
         | |- context [(?a =? ?b)%N] => destruct (N.eqb_spec a b); simpl
         end; try lia; try reflexivity; f_equal; lia.
Qed.

Lemma py_upper_nil q : py_upper q = [] <-> q = [].
Proof.
  split; [|now intros ->]. destruct q as [|c q]; [reflexivity|].
  unfold py_upper, upper_cp. simpl.
  repeat match goal with |- context [if ?b then _ else _] => destruct b end;
    discriminate.
Qed.

Lemma py_lower_nil t : py_lower t = [] <-> t = [].
Proof.
  split; [|now intros ->]. destruct t as [|c t]; [reflexivity|].
  unfold py_lower, lower_cp. simpl.
  repeat match goal with |- context [if ?b then _ else _] => destruct b end;
    discriminate.
Qed.

Lemma title_boost_case_stable_ascii query title :
  isascii query = true -> isascii title = true ->
  _calculate_title_boost py_lower query title
  = _calculate_title_boost py_lower (py_upper query) (py_lower title).
Proof.
  intros Hq Ht.
  apply (title_boost_case_stable py_lower py_upper query title).
  - now apply lower_upper_ascii.
  - now apply lower_lower_ascii.
  - apply py_upper_nil.
  - apply py_lower_nil.
Qed.

(** The scenario of the specification. *)
Lemma title_boost_logseq :
  keywords (py_lower (py "Logseq usage")) = [py "logseq"; py "usage"] /\
  (_calculate_title_boost py_lower (py "Logseq usage") (py "Logseq tips") == 1.5)%Q.
Proof. split; vm_compute; reflexivity. Qed.

Lemma title_boost_properties_witness :
  _calculate_title_boost py_lower (py "Logseq usage") (py "Logseq tips")
  = _calculate_title_boost py_lower (py_upper (py "Logseq usage"))
      (py_lower (py "Logseq tips")).
Proof.
  apply (proj2 (title_boost_properties py_lower py_upper
                  (py "Logseq usage") (py "Logseq tips"))).
  - reflexivity.
  - reflexivity.
  - split; intros E; vm_compute in E; discriminate.
  - split; intros E; vm_compute in E; discriminate.
Defined.

(** C6, case stability fails where [upper] followed by [lower] does
    not give back the lower-cased text: the sharp s is upper-cased to
    [SS].  With query and title both "aß" the boost is 2, and
    for the upper-cased query "ASS" against the same title it is 1. *)
Lemma title_boost_not_case_stable :
  py_upper (py "aß") = py "ASS" /\
  _calculate_title_boost py_lower (py "aß") (py "aß") = 2%Q /\
  _calculate_title_boost py_lower (py_upper (py "aß")) (py_lower (py "aß")) = 1%Q /\
  ~ (_calculate_title_boost py_lower (py "aß") (py "aß")
     == _calculate_title_boost py_lower (py_upper (py "aß")) (py_lower (py "aß")))%Q.
Proof.
  split; [reflexivity|]. split; [vm_compute; reflexivity|].
  split; [vm_compute; reflexivity|]. vm_compute. discriminate.
Qed.

End RetrieverProofs.

(** ** Further properties of the chunking *)

Module ChunkingProofs.
Import MarkdownParser ChunkingSpec ChunkingExample StrFacts ParserProofs.

Lemma lstrip_blank s : blank s -> lstrip s = [].
Proof. induction 1 as [|c s Hc _ IH]; simpl; [reflexivity | now rewrite Hc]. Qed.

Lemma lstrip_nil_blank s : lstrip s = [] -> blank s.
Proof.
  induction s as [|c s IH]; simpl; [constructor|].
  destruct (is_space c) eqn:E; [|discriminate].
  intros Hs. constructor; [exact E | exact (IH Hs)].
Qed.

Lemma strip_blank s : blank s -> strip s = [].
Proof. intros Hs. unfold strip, rstrip. now rewrite (lstrip_blank s Hs). Qed.

Lemma strip_nil_blank s : strip s = [] -> blank s.
Proof.
  unfold strip, rstrip. intros E.
  assert (E1 : lstrip (rev (lstrip s)) = []).
  { apply (f_equal (@rev N)) in E. now rewrite rev_involutive in E. }
  apply lstrip_nil_blank in E1.
  assert (E2 : lstrip s = []).
  { destruct (lstrip s) as [|c r] eqn:El; [reflexivity|].
    apply lstrip_head in El.
    apply Forall_rev in E1. rewrite rev_involutive in E1.
    inversion E1; congruence. }
  now apply lstrip_nil_blank.
Qed.

Lemma split_go_blank sep s : forall cur skip,
  blank s -> blank cur -> Forall blank (split_go sep s cur skip).
Proof.
  induction s as [|c s IH]; intros cur skip Hs Hc; simpl.
  - constructor; [|constructor]. now apply Forall_rev.
  - inversion Hs as [|? ? Hc0 Hs']; subst.
    destruct skip as [|k]; [|now apply IH].
    destruct (starts_with sep (c :: s)).
    + constructor; [now apply Forall_rev|]. apply IH; [assumption | constructor].
    + apply IH; [assumption|]. now constructor.
Qed.

Lemma paragraph_loop_blank fuel ps cs ov mn chunks pos :
  Forall blank ps ->
  paragraph_loop fuel ps cs ov mn chunks pos [] 0 = Some chunks.
Proof.
  intros Hps. revert pos. induction Hps as [|p ps Hp _ IH]; intros pos; simpl.
  - reflexivity.
  - rewrite (strip_blank p Hp). apply IH.
Qed.

(** X1: a content that consists of white space only (the empty content
    included) gives no chunk, whatever its length and the parameters:
    below [chunk_size] by the test of the small-file branch, and from
    [chunk_size] on because every paragraph is empty once stripped. *)
Theorem chunk_content_blank fuel content chunk_size overlap min_chunk_size :
  strip content = [] ->
  chunk_content fuel content chunk_size overlap min_chunk_size = Some [].
Proof.
  intros Hs. unfold chunk_content. rewrite Hs.
  destruct (len content <? chunk_size); [reflexivity|].
  apply paragraph_loop_blank, split_go_blank; [|constructor].
  now apply strip_nil_blank.
Qed.

Lemma chunk_content_blank_witness : chunk_content 0 white 4 1 2 = Some [].
Proof. apply chunk_content_blank. reflexivity. Defined.

(** *** Sizes of the chunks of the paragraph route *)

Lemma emit_accumulated_min_size fuel chunks acc start cs ov mn chunks' :
  Forall (long_enough mn) chunks ->
  emit_accumulated fuel chunks acc start cs ov mn = Some chunks' ->
  Forall (long_enough mn) chunks'.
Proof.
  intros Hc. unfold emit_accumulated.
  destruct (len acc >=? mn) eqn:El; [|now intros [= <-]].
  destruct (2 * len acc >? 3 * cs).
  - destruct (_split_large_text fuel acc start cs ov mn) as [sub|] eqn:Es;
      [|discriminate].
    intros [= <-]. apply Forall_app. split; [exact Hc|].
    exact (split_large_text_min_size _ _ _ _ _ _ _ Es).
  - intros [= <-]. apply Forall_app. split; [exact Hc|].
    constructor; [|constructor]. unfold long_enough. simpl. lia.
Qed.

Lemma paragraph_loop_min_size fuel ps cs ov mn : forall chunks pos acc start chunks',
  Forall (long_enough mn) chunks ->
  paragraph_loop fuel ps cs ov mn chunks pos acc start = Some chunks' ->
  Forall (long_enough mn) chunks'.
Proof.
  induction ps as [|p ps IH]; intros chunks pos acc start chunks' Hc; simpl.
  - destruct acc; [now intros [= <-]|].
    now apply emit_accumulated_min_size.
  - destruct (strip p) as [|c r]; [now apply IH|].
    destruct acc as [|a acc]; [now apply IH|].
    destruct (len _ >? cs); [|now apply IH].
    destruct (emit_accumulated fuel chunks (a :: acc) start cs ov mn) as [chunks1|] eqn:Ee;
      [|discriminate].
    simpl. apply IH. eapply emit_accumulated_min_size; eauto.
Qed.

(** X2: when the content has at least [chunk_size] characters, every
    chunk that [chunk_content] returns has at least [min_chunk_size]
    characters: shorter pieces are filtered on both routes, the
    paragraph route and the sentence splitter. *)
Theorem chunk_content_min_size fuel content chunk_size overlap min_chunk_size chunks :
  chunk_size <= len content ->
  chunk_content fuel content chunk_size overlap min_chunk_size = Some chunks ->
  Forall (fun c : chunk => min_chunk_size <= len (fst (fst c))) chunks.
Proof.
  intros Hl. unfold chunk_content.
  assert (E : (len content <? chunk_size) = false) by lia. rewrite E.
  apply paragraph_loop_min_size. constructor.
Qed.

Lemma chunk_content_min_size_witness :
  Forall (fun c : chunk => 5 <= len (fst (fst c)))
    [(py "alpha beta.", 0, 11); (py "gamma delta.", 13, 25)].
Proof.
  apply (chunk_content_min_size 30 two_paragraphs 12 2 5).
  - vm_compute. discriminate.
  - vm_compute. reflexivity.
Defined.

(** *** The whole function returns when the overlap is small *)

Lemma length_lstrip s : (length (lstrip s) <= length s)%nat.
Proof.
  induction s as [|c s IH]; simpl; [lia|].
  destruct (is_space c); simpl; lia.
Qed.

Lemma length_strip s : (length (strip s) <= length s)%nat.
Proof.
  unfold strip, rstrip. rewrite length_rev.
  etransitivity; [apply length_lstrip|]. rewrite length_rev. apply length_lstrip.
Qed.

Lemma starts_with_length p s : starts_with p s = true -> (length p <= length s)%nat.
Proof.
  revert s. induction p as [|x p IH]; intros [|y s]; simpl; try lia; try discriminate.
  intros E. apply andb_true_iff in E. destruct E as [_ E]. apply IH in E. lia.
Qed.

Lemma split_go_weight sep s : forall cur skip,
  (1 <= length sep)%nat -> (skip <= length s)%nat ->
  (weight sep (split_go sep s cur skip) + skip
   <= length cur + length s + length sep)%nat.
Proof.
  unfold weight.
  induction s as [|c s IH]; intros cur skip Hsep Hskip; simpl in *.
  - rewrite length_rev. lia.
  - destruct skip as [|k].
    + destruct (starts_with sep (c :: s)) eqn:E.
      * apply starts_with_length in E. simpl in E.
        specialize (IH [] (length sep - 1)%nat Hsep ltac:(lia)).
        simpl in *. rewrite length_rev. lia.
      * specialize (IH (c :: cur) 0%nat Hsep ltac:(lia)). simpl in IH. lia.
    + specialize (IH cur k Hsep ltac:(lia)). lia.
Qed.

Lemma emit_accumulated_returns fuel chunks acc start cs ov mn :
  0 <= ov < mn -> ov < cs -> (length acc <= fuel)%nat ->
  is_Some (emit_accumulated fuel chunks acc start cs ov mn).
Proof.
  intros Hov Hcs Hf. unfold emit_accumulated.
  destruct (len acc >=? mn); [|eexists; reflexivity].
  destruct (2 * len acc >? 3 * cs); [|eexists; reflexivity].
  destruct (split_large_text_exits fuel acc start cs ov mn Hov Hcs Hf) as [sub ->].
  eexists; reflexivity.
Qed.

Lemma paragraph_loop_returns fuel cs ov mn :
  0 <= ov < mn -> ov < cs ->
  forall ps chunks pos acc start,
    (length acc + weight NL2 ps <= fuel)%nat ->
    is_Some (paragraph_loop fuel ps cs ov mn chunks pos acc start).
Proof.
  intros Hov Hcs. unfold weight.
  induction ps as [|p ps IH]; intros chunks pos acc start Hf; simpl in *.
  - destruct acc; [eexists; reflexivity|].
    apply emit_accumulated_returns; simpl in *; lia.
  - pose proof (length_strip p) as Hp.
    destruct (strip p) as [|c r] eqn:Es; [apply IH; lia|].
    destruct acc as [|a acc]; [apply IH; simpl in *; lia|].
    destruct (len _ >? cs).
    + destruct (emit_accumulated_returns fuel chunks (a :: acc) start cs ov mn Hov Hcs)
        as [chunks1 ->]; [simpl in *; lia|].
      simpl. apply IH. simpl in *. lia.
    + apply IH. rewrite !length_app. simpl in *. lia.
Qed.

(** X3: with [0 <= overlap < min_chunk_size] and [overlap < chunk_size],
    as in the shipped configuration 80, 100, 300, [chunk_content]
    returns for every content: no run of the inner [while] loop needs
    more passes than the content has characters. *)
Theorem chunk_content_returns fuel content chunk_size overlap min_chunk_size :
  0 <= overlap < min_chunk_size -> overlap < chunk_size ->
  (length content + 2 <= fuel)%nat ->
  is_Some (chunk_content fuel content chunk_size overlap min_chunk_size).
Proof.
  intros Hov Hcs Hf. unfold chunk_content.
  destruct (len content <? chunk_size).
  - destruct (strip content); eexists; reflexivity.
  - apply paragraph_loop_returns; [assumption..|].
    pose proof (split_go_weight NL2 content [] 0 ltac:(simpl; lia) ltac:(lia)) as Hw.
    unfold split. simpl in *. lia.
Qed.

Lemma chunk_content_returns_witness :
  is_Some (chunk_content 70 long_paragraph 20 3 5).
Proof.
  apply chunk_content_returns.
  - lia.
  - lia.
  - vm_compute. lia.
Defined.

(** *** Positions of the chunks *)

Lemma len_strip s : len (strip s) <= len s.
Proof. unfold len. pose proof (length_strip s). lia. Qed.

Lemma len_slice {A} (l : list A) a b : 0 <= a <= b -> len (slice l a b) <= b - a.
Proof.
  intros Hab. rewrite slice_nonneg by exact Hab. unfold len.
  rewrite length_firstn. lia.
Qed.

Lemma chunk_end_bounds text start cs mn :
  0 <= start < len text -> 1 <= cs -> 0 <= mn ->
  start < chunk_end text start cs mn <= len text.
Proof.
  intros Hs Hcs Hmn. unfold chunk_end.
  destruct (Z.min (start + cs) (len text) >=? len text) eqn:E; [lia|].
  replace (Z.min (start + cs) (len text)) with (start + cs) by lia.
  set (a := Z.max (start + mn) (start + cs - 200)).
  assert (Ha : start <= a) by (unfold a; lia).
  set (bp := best_delimiter_pos text a (start + cs)).
  set (sp := rfind text SPACE a (start + cs)).
  assert (Hbp : bp = -1 \/ (a <= bp /\ bp + 1 <= start + cs)).
  { destruct (best_delimiter_pos_max text a (start + cs)) as [_ [Hb | Hb]]; [now left|].
    apply Exists_exists in Hb. destruct Hb as (d & Hd & Hbd). fold bp in Hbd.
    assert (Hl : 1 <= len d).
    { assert (Hall : Forall (fun d => 1 <= len d) delimiters)
        by (repeat constructor; discriminate).
      rewrite List.Forall_forall in Hall. apply Hall.
      first [exact Hd | apply list_elem_of_In; exact Hd]. }
    destruct (rfind_range text d a (start + cs) ltac:(lia) ltac:(lia)) as [Hr | Hr]; lia. }
  assert (Hsp : sp = -1 \/ (a <= sp /\ sp + 1 <= start + cs)).
  { destruct (rfind_range text SPACE a (start + cs) ltac:(lia) ltac:(lia)) as [Hr | Hr];
      fold sp in Hr; [now left | right].
    change (len SPACE) with 1 in Hr. lia. }
  destruct (bp =? -1) eqn:E1; simpl; [|lia].
  destruct (sp =? -1) eqn:E2; simpl; lia.
Qed.

Lemma last_emitted_start_ge chunks off :
  Forall (fun c : chunk => off <= snd (fst c)) chunks ->
  -1 <= last_emitted_start chunks off.
Proof.
  intros Hc. unfold last_emitted_start.
  destruct (last chunks) as [[[t a] b]|] eqn:El; [|lia].
  apply last_Some_elem_of, list_elem_of_In in El.
  rewrite List.Forall_forall in Hc. specialize (Hc _ El). simpl in Hc. lia.
Qed.

(** One pass of the loop keeps the positions in order. *)
Lemma split_body_spans text off cs ov mn s :
  0 <= off -> 1 <= cs -> 0 <= mn ->
  0 <= ls_start s < len text ->
  Forall (fun c : chunk => off <= snd (fst c)) (ls_chunks s) ->
  Forall span_ok (ls_chunks s) ->
  match split_body text off cs ov mn s with
  | Break chunks => Forall span_ok chunks
  | Continue s' =>
    0 <= ls_start s' /\
    Forall (fun c : chunk => off <= snd (fst c)) (ls_chunks s') /\
    Forall span_ok (ls_chunks s')
  end.
Proof.
  intros Hoff Hcs Hmn Hs Hlo Hsp. unfold split_body.
  pose proof (chunk_end_bounds text (ls_start s) cs mn Hs Hcs Hmn) as He.
  set (e := chunk_end text (ls_start s) cs mn) in *.
  set (t := strip (slice text (ls_start s) e)).
  set (chunks := if len t >=? mn then _ else _).
  assert (Ht : len t <= e - ls_start s).
  { unfold t. etransitivity; [apply len_strip | apply len_slice; lia]. }
  assert (Hlo' : Forall (fun c : chunk => off <= snd (fst c)) chunks).
  { unfold chunks. destruct (len t >=? mn); [|exact Hlo].
    apply Forall_app. split; [exact Hlo|]. constructor; [simpl; lia | constructor]. }
  assert (Hsp' : Forall span_ok chunks).
  { unfold chunks. destruct (len t >=? mn); [|exact Hsp].
    apply Forall_app. split; [exact Hsp|].
    constructor; [|constructor]. simpl. lia. }
  pose proof (last_emitted_start_ge chunks off Hlo') as Hlast.
  destruct (len text - _ <? mn); [exact Hsp'|].
  cbn [ls_start ls_chunks]. split; [|split; assumption].
  destruct (e - ov <=? last_emitted_start chunks off) eqn:E; lia.
Qed.

Lemma split_large_text_spans fuel text off cs ov mn chunks :
  0 <= off -> 1 <= cs -> 0 <= mn ->
  _split_large_text fuel text off cs ov mn = Some chunks ->
  Forall span_ok chunks.
Proof.
  intros Hoff Hcs Hmn. unfold _split_large_text.
  assert (G : forall s,
             0 <= ls_start s ->
             Forall (fun c : chunk => off <= snd (fst c)) (ls_chunks s) ->
             Forall span_ok (ls_chunks s) ->
             split_loop fuel text off cs ov mn s = Some chunks ->
             Forall span_ok chunks).
  { induction fuel as [|fuel IH]; intros s H0 Hlo Hsp; rewrite split_loop_unfold;
      destruct (ls_start s <? len text) eqn:E; try discriminate;
      try (intros [= <-]; exact Hsp).
    pose proof (split_body_spans text off cs ov mn s Hoff Hcs Hmn ltac:(lia) Hlo Hsp) as Hb.
    destruct (split_body text off cs ov mn s) as [s'|cs'].
    - destruct Hb as (? & ? & ?). now apply IH.
    - intros [= <-]. exact Hb. }
  apply G; simpl; [lia | constructor | constructor].
Qed.

Lemma emit_accumulated_spans fuel chunks acc start cs ov mn chunks' :
  0 <= start -> 1 <= cs -> 0 <= mn ->
  Forall span_ok chunks ->
  emit_accumulated fuel chunks acc start cs ov mn = Some chunks' ->
  Forall span_ok chunks'.
Proof.
  intros Hst Hcs Hmn Hc. unfold emit_accumulated.
  destruct (len acc >=? mn) eqn:El; [|now intros [= <-]].
  destruct (2 * len acc >? 3 * cs).
  - destruct (_split_large_text fuel acc start cs ov mn) as [sub|] eqn:Es;
      [|discriminate].
    intros [= <-]. apply Forall_app. split; [exact Hc|].
    exact (split_large_text_spans _ _ _ _ _ _ _ Hst Hcs Hmn Es).
  - intros [= <-]. apply Forall_app. split; [exact Hc|].
    constructor; [|constructor]. simpl. lia.
Qed.

Lemma paragraph_loop_spans fuel ps cs ov mn :
  1 <= cs -> 0 <= mn ->
  forall chunks pos acc start chunks',
    0 <= pos -> 0 <= start ->
    Forall span_ok chunks ->
    paragraph_loop fuel ps cs ov mn chunks pos acc start = Some chunks' ->
    Forall span_ok chunks'.
Proof.
  intros Hcs Hmn.
  induction ps as [|p ps IH]; intros chunks pos acc start chunks' Hpos Hst Hc; simpl.
  - destruct acc; [now intros [= <-]|].
    now apply emit_accumulated_spans.
  - destruct (strip p) as [|c r]; [apply IH; (lia || assumption)|].
    pose proof (len_nonneg (c :: r)).
    destruct acc as [|a acc]; [apply IH; (lia || assumption)|].
    destruct (len _ >? cs); [|apply IH; (lia || assumption)].
    destruct (emit_accumulated fuel chunks (a :: acc) start cs ov mn) as [chunks1|] eqn:Ee;
      [|discriminate].
    pose proof (emit_accumulated_spans _ _ _ _ _ _ _ _ Hst Hcs Hmn Hc Ee) as Hc1.
    simpl. apply IH; (lia || assumption).
Qed.

(** X4: for [1 <= chunk_size] and [0 <= min_chunk_size], every chunk
    [(chunk_text, start_pos, end_pos)] that [chunk_content] returns has
    [0 <= start_pos] and [len(chunk_text) <= end_pos - start_pos]: a
    chunk never reports a span shorter than its text. *)
Theorem chunk_content_spans fuel content chunk_size overlap min_chunk_size chunks :
  1 <= chunk_size -> 0 <= min_chunk_size ->
  chunk_content fuel content chunk_size overlap min_chunk_size = Some chunks ->
  Forall (fun c : chunk =>
            0 <= snd (fst c) /\ len (fst (fst c)) <= snd c - snd (fst c)) chunks.
Proof.
  intros Hcs Hmn E.
  assert (Hs : Forall span_ok chunks).
  { revert E. unfold chunk_content. destruct (len content <? chunk_size).
    - destruct (strip content); intros [= <-]; repeat constructor; lia.
    - apply paragraph_loop_spans; (lia || constructor). }
  eapply List.Forall_impl; [|exact Hs]. now intros [[t a] b].
Qed.

Lemma chunk_content_spans_witness :
  Forall (fun c : chunk =>
            0 <= snd (fst c) /\ len (fst (fst c)) <= snd c - snd (fst c))
    [(py "One two three.", 0, 14); (py "ee. Four five six", 11, 29);
     (py "ix seven.", 26, 35); (py "en. Eight nine ten", 32, 51);
     (py "en eleven twelve.", 48, 65)].
Proof.
  apply (chunk_content_spans 70 long_paragraph 20 3 5).
  - lia.
  - lia.
  - vm_compute. reflexivity.
Defined.

End ChunkingProofs.

(** ** Properties of the link and tag patterns *)

Module SyntaxProofs.
Import MarkdownSyntax SyntaxExample.

Lemma span_app p s : fst (span p s) ++ snd (span p s) = s.
Proof.
  induction s as [|c s IH]; simpl; [reflexivity|].
  destruct (p c); [|reflexivity].
  destruct (span p s) as [a b]. simpl in *. now rewrite IH.
Qed.

Lemma span_all p s : Forall (fun c => p c = true) (fst (span p s)).
Proof.
  induction s as [|c s IH]; simpl; [constructor|].
  destruct (p c) eqn:E; [|constructor].
  destruct (span p s) as [a b]. simpl in *. now constructor.
Qed.

(** The run stops where [p] fails. *)
Lemma span_stop p a c b :
  Forall (fun x => p x = true) a -> p c = false ->
  span p (a ++ c :: b) = (a, c :: b).
Proof.
  intros Ha Hc. induction Ha as [|x a Hx _ IH]; simpl.
  - now rewrite Hc.
  - now rewrite Hx, IH.
Qed.

(** Every match reported by [findall] is a match of the pattern at some
    position of the string. *)
Lemma findall_go_sound m g : forall s at_start skip,
  In g (findall_go m at_start s skip) ->
  exists pre suf n,
    s = pre ++ suf /\
    m (match pre with [] => at_start | _ :: _ => false end) suf = Some (g, n).
Proof.
  induction s as [|c s IH]; intros at_start skip; simpl; [intros []|].
  assert (Hlater : forall k, In g (findall_go m false s k) ->
            exists pre suf n, c :: s = pre ++ suf /\
              m (match pre with [] => at_start | _ :: _ => false end) suf = Some (g, n)).
  { intros k Hk. destruct (IH false k Hk) as (pre & suf & n & -> & Hm).
    exists (c :: pre), suf, n. split; [reflexivity|].
    now destruct pre. }
  destruct skip as [|k]; [|apply Hlater].
  destruct (m at_start (c :: s)) as [[g' n]|] eqn:E; [|apply Hlater].
  intros [<- | Hin]; [|eapply Hlater; eauto].
  now exists [], (c :: s), n.
Qed.

Lemma match_backlink_inv at_start s g n :
  match_backlink at_start s = Some (g, n) ->
  g <> [] /\ ~ In RBRACKET g /\
  exists rest, s = [LBRACKET; LBRACKET] ++ g ++ [RBRACKET; RBRACKET] ++ rest.
Proof.
  unfold match_backlink.
  destruct s as [|c0 [|c1 s']]; try discriminate.
  destruct ((c0 =? LBRACKET) && (c1 =? LBRACKET))%N eqn:E0; [|discriminate].
  apply andb_true_iff in E0. destruct E0 as [->%N.eqb_eq ->%N.eqb_eq].
  pose proof (span_app (fun c => negb (c =? RBRACKET)%N) s') as Ha.
  pose proof (span_all (fun c => negb (c =? RBRACKET)%N) s') as Hall.
  destruct (span _ s') as [name rest]. simpl in Ha, Hall.
  destruct name as [|x name]; [discriminate|].
  destruct rest as [|d0 [|d1 rest]]; try discriminate.
  destruct ((d0 =? RBRACKET) && (d1 =? RBRACKET))%N eqn:E1; [|discriminate].
  apply andb_true_iff in E1. destruct E1 as [->%N.eqb_eq ->%N.eqb_eq].
  intros [= <- <-]. split; [discriminate|]. split.
  - intros Hin. rewrite List.Forall_forall in Hall. specialize (Hall _ Hin).
    now rewrite N.eqb_refl in Hall.
  - exists rest. simpl. now rewrite <- Ha.
Qed.

(** X5: every name that [extract_backlinks] returns is not empty, holds
    no [']'], and stands in the content between ["[["] and ["]]"]. *)
Theorem extract_backlinks_sound content name :
  name ∈ extract_backlinks content ->
  name <> [] /\ ~ In RBRACKET name /\
  exists pre post,
    content = pre ++ [LBRACKET; LBRACKET] ++ name ++ [RBRACKET; RBRACKET] ++ post.
Proof.
  unfold extract_backlinks, findall. rewrite elem_of_list_to_set, list_elem_of_In.
  intros Hin. apply findall_go_sound in Hin.
  destruct Hin as (pre & suf & n & -> & Hm).
  apply match_backlink_inv in Hm. destruct Hm as (Hne & Hnb & rest & ->).
  split; [exact Hne|]. split; [exact Hnb|]. now exists pre, rest.
Qed.

Lemma extract_backlinks_sound_witness :
  py "Page A" <> [] /\ ~ In RBRACKET (py "Page A") /\
  exists pre post,
    note = pre ++ [LBRACKET; LBRACKET] ++ py "Page A" ++ [RBRACKET; RBRACKET] ++ post.
Proof.
  apply (extract_backlinks_sound note (py "Page A")).
  unfold extract_backlinks. apply elem_of_list_to_set, list_elem_of_In.
  vm_compute. now left.
Defined.

Lemma findall_go_no_start m c : forall pre at_start s,
  (forall b t, m b t <> None -> exists r, t = c :: r) ->
  ~ In c pre ->
  findall_go m at_start (pre ++ s) 0 =
    findall_go m (match pre with [] => at_start | _ :: _ => false end) s 0.
Proof.
  intros pre at_start s Hm. revert at_start.
  induction pre as [|x pre IH]; intros at_start Hn; [reflexivity|].
  cbn [app findall_go].
  destruct (m at_start (x :: pre ++ s)) as [r|] eqn:E.
  - destruct (Hm at_start (x :: pre ++ s)) as [r' [= -> _]]; [congruence|].
    elim Hn. now left.
  - rewrite IH by (intros Hin; apply Hn; now right).
    now destruct pre.
Qed.

Lemma match_backlink_head b t : match_backlink b t <> None -> exists r, t = LBRACKET :: r.
Proof.
  unfold match_backlink. destruct t as [|c0 [|c1 t']]; try congruence.
  destruct (c0 =? LBRACKET)%N eqn:E; [|simpl; congruence].
  apply N.eqb_eq in E. subst. eauto.
Qed.

Lemma match_backlink_here b name post :
  name <> [] -> ~ In RBRACKET name ->
  match_backlink b ([LBRACKET; LBRACKET] ++ name ++ [RBRACKET; RBRACKET] ++ post)
  = Some (name, (length name + 4)%nat).
Proof.
  intros Hne Hnb. unfold match_backlink. simpl.
  rewrite (span_stop (fun c => negb (c =? RBRACKET)%N) name RBRACKET (RBRACKET :: post)).
  - destruct name; [congruence | reflexivity].
  - apply List.Forall_forall. intros x Hx. apply negb_true_iff, N.eqb_neq.
    intros ->. contradiction.
  - reflexivity.
Qed.

(** X6: a link [[[name]]] whose name is not empty and holds no [']'] is
    extracted when no ['['] stands before it in the content. *)
Theorem extract_backlinks_complete pre name post :
  ~ In LBRACKET pre -> name <> [] -> ~ In RBRACKET name ->
  name ∈ extract_backlinks
           (pre ++ [LBRACKET; LBRACKET] ++ name ++ [RBRACKET; RBRACKET] ++ post).
Proof.
  intros Hpre Hne Hnb. unfold extract_backlinks, findall.
  rewrite elem_of_list_to_set, list_elem_of_In.
  rewrite (findall_go_no_start match_backlink LBRACKET pre true _
             match_backlink_head Hpre).
  cbn [findall_go app].
  change (LBRACKET :: LBRACKET :: name ++ RBRACKET :: RBRACKET :: post)
    with ([LBRACKET; LBRACKET] ++ name ++ [RBRACKET; RBRACKET] ++ post).
  rewrite match_backlink_here by assumption. now left.
Qed.

Lemma extract_backlinks_complete_witness :
  py "B" ∈ extract_backlinks
             (py "see " ++ [LBRACKET; LBRACKET] ++ py "B" ++ [RBRACKET; RBRACKET]
              ++ py " and [[C]]").
Proof.
  apply (extract_backlinks_complete (py "see ") (py "B") (py " and [[C]]")).
  - vm_compute. intros [E | [E | [E | [E | []]]]]; discriminate.
  - discriminate.
  - vm_compute. intros [E | []]. discriminate.
Defined.

Lemma match_hash_tag_inv s before g n :
  match_hash_tag s before = Some (g, n) ->
  g <> [] /\ Forall (fun c => is_tag_char c = true) g /\
  exists post, s = HASH :: g ++ post /\
    match post with [] => True | c :: _ => is_tag_char c = false end.
Proof.
  unfold match_hash_tag. destruct s as [|c s']; [discriminate|].
  destruct (c =? HASH)%N eqn:E; [|discriminate]. apply N.eqb_eq in E. subst c.
  pose proof (span_app is_tag_char s') as Ha.
  pose proof (span_all is_tag_char s') as Hall.
  assert (Hstop : match snd (span is_tag_char s') with
                  | [] => True | c :: _ => is_tag_char c = false end).
  { clear. induction s' as [|c s IH]; simpl; [exact I|].
    destruct (is_tag_char c) eqn:E; [|exact E].
    now destruct (span is_tag_char s). }
  destruct (span is_tag_char s') as [tag post]. simpl in *.
  destruct tag as [|x tag]; [discriminate|].
  intros [= <- <-]. split; [discriminate|]. split; [exact Hall|].
  exists post. now rewrite <- Ha.
Qed.

(** X7: every tag that [extract_tags] returns is not empty, consists of
    letters, digits, [_] and CJK ideographs only, and stands in the
    content behind a [#] that opens the content or follows a white
    space character; the tag extends up to the first character that
    cannot belong to a tag. *)
Theorem extract_tags_sound content tag :
  tag ∈ extract_tags content ->
  tag <> [] /\ Forall (fun c => is_tag_char c = true) tag /\
  exists pre post,
    content = pre ++ HASH :: tag ++ post /\
    (pre = [] \/ exists pre' c, pre = pre' ++ [c] /\ is_space c = true) /\
    match post with [] => True | c :: _ => is_tag_char c = false end.
Proof.
  unfold extract_tags, findall. rewrite elem_of_list_to_set, list_elem_of_In.
  intros Hin. apply findall_go_sound in Hin.
  destruct Hin as (pre & suf & n & -> & Hm). unfold match_tag in Hm.
  destruct (if match pre with [] => true | _ :: _ => false end
            then match_hash_tag suf 0 else None) as [r|] eqn:E1.
  - injection Hm as ->. destruct pre; [|discriminate].
    apply match_hash_tag_inv in E1. destruct E1 as (Hne & Hall & post & -> & Hp).
    split; [exact Hne|]. split; [exact Hall|].
    exists [], post. split; [reflexivity|]. split; [now left | exact Hp].
  - destruct suf as [|c suf]; [discriminate|].
    destruct (is_space c) eqn:Ec; [|discriminate].
    apply match_hash_tag_inv in Hm. destruct Hm as (Hne & Hall & post & -> & Hp).
    split; [exact Hne|]. split; [exact Hall|].
    exists (pre ++ [c]), post. split; [now rewrite <- app_assoc|].
    split; [right; eauto | exact Hp].
Qed.

Lemma extract_tags_sound_witness :
  py "bug" <> [] /\ Forall (fun c => is_tag_char c = true) (py "bug") /\
  exists pre post,
    note = pre ++ HASH :: py "bug" ++ post /\
    (pre = [] \/ exists pre' c, pre = pre' ++ [c] /\ is_space c = true) /\
    match post with [] => True | c :: _ => is_tag_char c = false end.
Proof.
  apply (extract_tags_sound note (py "bug")).
  unfold extract_tags. apply elem_of_list_to_set, list_elem_of_In.
  vm_compute. right. now left.
Defined.

End SyntaxProofs.

(** ** Further properties of the embedding client and its cache *)

Module ClientProofs.
Import Embedder EmbedderSpec ClientSpec SortFacts StrFacts EmbedderProofs.

Section WithEnvironment.
Context {H : Type} `{Countable H}.
Variable _compute_hash : pystr -> H.
Variable server : nat -> list pystr -> response.
Variable model : pystr.
Variable batch_size : Z.

Local Abbreviation world := (@world H _ _).
Local Abbreviation _embed_batch := (_embed_batch server).
Local Abbreviation _embed_batch_with_cache :=
  (_embed_batch_with_cache _compute_hash server model).
Local Abbreviation cache_key := (cache_key _compute_hash model).
Local Abbreviation insert_rows := (insert_rows _compute_hash model).
Local Abbreviation cached_of := (cached_of _compute_hash model).
Local Abbreviation misses_of := (misses_of _compute_hash model).
Local Abbreviation expected := (expected _compute_hash model).

(** X8: the retry policy of [_embed_batch].  The same input is posted
    until a response is a 200, at most three times, and the cache is
    not touched.  The call returns the vectors of the first 200.  It
    raises only after three failed attempts, and the exception is the
    one of the third response: [RuntimeError] after a 429, else the
    error of the request. *)
Theorem embed_batch_retry_policy texts (w : world) :
  let n := length (requests w) in
  let answers := map (fun k => server (n + k) texts) [0; 1; 2]%nat in
  let failed := failed_attempts answers in
  _embed_batch texts w =
    (match answers !! failed with
     | Some (Ok200 data) => inr (extract_embeddings data)
     | _ => inl (last_error (server (n + 2) texts))
     end,
     World (cache w) (requests w ++ replicate (Nat.min 3 (S failed)) texts)).
Proof.
  unfold Embedder._embed_batch. cbn [Embedder.embed_batch_loop map].
  unfold bind, post, ret, raise. cbn [fst snd requests cache Nat.eqb Nat.sub].
  rewrite Nat.add_0_r.
  destruct (server (length (requests w)) texts) eqn:E0;
    cbn [requests cache failed_attempts is_ok lookup list_lookup replicate Nat.min];
    try reflexivity;
    rewrite length_app; cbn [length];
    destruct (server (length (requests w) + 1) texts) eqn:E1;
    cbn [requests cache failed_attempts is_ok lookup list_lookup replicate Nat.min];
    try (rewrite <- app_assoc; reflexivity);
    rewrite !length_app; cbn [length]; rewrite <- !Nat.add_assoc; cbn [Nat.add];
    destruct (server (length (requests w) + 2) texts) eqn:E2;
    cbn [failed_attempts is_ok lookup list_lookup replicate Nat.min last_error];
    rewrite <- !app_assoc; reflexivity.
Qed.

(** X9: when the service answers with fewer vectors than texts were
    posted, [_embed_batch_with_cache] raises [IndexError] from the
    stitching loop; by then the vectors that did come are in the cache,
    paired with the first missing texts. *)
Theorem embed_batch_with_cache_short_answer texts (w : world) data :
  server (length (requests w)) (misses_of (cache w) texts) = Ok200 data ->
  (length data < length (misses_of (cache w) texts))%nat ->
  _embed_batch_with_cache texts w =
    (inl IndexError,
     World (insert_rows (zip (misses_of (cache w) texts) (extract_embeddings data))
              (cache w))
           (requests w ++ [misses_of (cache w) texts])).
Proof.
  intros Hs Hl. unfold Embedder._embed_batch_with_cache, bind, get_batch.
  unfold uncached_indices_of, enumerate.
  rewrite (uncached_texts_filter (fun t => cache w !! cache_key t) [] texts).
  fold (misses_of (cache w) texts) (cached_of (cache w) texts).
  destruct (misses_of (cache w) texts) as [|m ms] eqn:Em; [simpl in Hl; lia|].
  rewrite (embed_batch_first_ok _ _ _ _ Hs).
  unfold set_batch, lift. cbn [cache requests].
  pose proof (assign_new_stitch (cached_of (cache w) texts) [] 0
                (extract_embeddings data)) as Ha.
  simpl in Ha. rewrite Ha. clear Ha.
  rewrite count_none_misses, Em. cbn [length Nat.eqb orb Nat.add].
  assert (El : (S (length ms) <=? length (extract_embeddings data))%nat = false).
  { apply Nat.leb_gt. unfold extract_embeddings.
    rewrite length_map.
    rewrite (Permutation_length (stable_sort_perm _ data)).
    simpl in Hl. lia. }
  now rewrite El.
Qed.

(** *** Tasks in general *)

Variable max_concurrent : nat.

Local Abbreviation task_step := (task_step _compute_hash server model).
Local Abbreviation pool_step := (pool_step _compute_hash server model max_concurrent).
Local Abbreviation run_pool := (run_pool _compute_hash server model max_concurrent).
Local Abbreviation embed_texts :=
  (embed_texts _compute_hash server model batch_size max_concurrent).
Local Abbreviation embed_query :=
  (embed_query _compute_hash server model batch_size max_concurrent).

Lemma is_done_step free_slot batch s (w : world) :
  is_done s = true -> task_step free_slot batch s w = (s, w).
Proof. destruct s; try discriminate. reflexivity. Qed.

(** Resuming a task changes the state of that task only, and the
    book-keeping stays right. *)
Lemma pool_step_book batches i p (w : world) :
  book_ok p ->
  book_ok (fst (pool_step batches i p w)) /\
  length (states (fst (pool_step batches i p w))) = length (states p) /\
  (forall j, j <> i -> states (fst (pool_step batches i p w)) !! j = states p !! j) /\
  match states p !! i, batches !! i with
  | Some s, Some b =>
    exists free_slot,
      states (fst (pool_step batches i p w)) !! i
        = Some (fst (task_step free_slot b s w)) /\
      snd (pool_step batches i p w) = snd (task_step free_slot b s w)
  | _, _ => pool_step batches i p w = (p, w)
  end.
Proof.
  intros Hb. pose proof Hb as [Hnd Hfin]. unfold Embedder.pool_step.
  destruct (states p !! i) as [s|] eqn:Es; [|cbn [fst snd]; auto].
  destruct (batches !! i) as [b|] eqn:Eb; [|cbn [fst snd]; auto].
  set (free_slot := (_ <? max_concurrent)%nat).
  assert (Hi : (i < length (states p))%nat) by (eapply lookup_lt_Some; eauto).
  pose proof (is_done_step free_slot b s w) as Hd.
  destruct (task_step free_slot b s w) as [s' w'] eqn:Et. cbn [fst snd states finished].
  split; [|split; [apply length_insert|split]].
  - assert (Hlook : forall j, (exists r, <[i:=s']> (states p) !! j = Some (Done r)) <->
                      (j = i /\ is_done s' = true) \/
                      (j <> i /\ exists r, states p !! j = Some (Done r))).
    { intros j. destruct (decide (i = j)) as [<- | Hne].
      - rewrite list_lookup_insert_eq by exact Hi. split.
        + intros [r [= ->]]. now left.
        + intros [[_ Hd'] | [Hn _]]; [|congruence].
          destruct s'; try discriminate. eauto.
      - rewrite list_lookup_insert_ne by exact Hne. split.
        + intros Hr. right. split; [congruence | exact Hr].
        + intros [[-> _] | [_ Hr]]; [congruence | exact Hr]. }
    unfold book_ok. cbn [states finished].
    destruct (is_done s') eqn:Ed'; [destruct (is_done s) eqn:Ed|]; simpl.
    + split; [exact Hnd|]. intros j. rewrite Hlook, Hfin. split.
      * intros [r Hr]. destruct (decide (j = i)) as [-> | Hne]; [now left|].
        right. eauto.
      * intros [[-> _] | [_ Hr]]; [|exact Hr].
        destruct s; try discriminate. eauto.
    + assert (Hni : ~ In i (finished p)).
      { rewrite Hfin. intros [r Hr]. rewrite Es in Hr. injection Hr as ->. discriminate. }
      split.
      * apply NoDup_app. split; [exact Hnd|]. split; [|apply NoDup_singleton].
        intros x Hx Hx'. apply list_elem_of_In in Hx.
        apply list_elem_of_singleton in Hx'. subst x. contradiction.
      * intros j. rewrite Hlook, in_app_iff, Hfin. simpl. split.
        -- intros [[r Hr] | [-> | []]]; [|now left].
           destruct (decide (j = i)) as [-> | Hne]; [now left | right; eauto].
        -- intros [[-> _] | [_ Hr]]; [right; now left | left; exact Hr].
    + split; [exact Hnd|]. intros j. rewrite Hlook, Hfin. split.
      * intros [r Hr]. right. split; [|eauto].
        intros Hji. subst j. rewrite Es in Hr. injection Hr as Hs. subst s.
        specialize (Hd eq_refl). injection Hd as Hs' _. subst s'. discriminate.
      * intros [[_ Hd'] | [_ Hr]]; [discriminate | exact Hr].
  - intros j Hj. now rewrite list_lookup_insert_ne by congruence.
  - exists free_slot. rewrite Et. cbn [fst snd].
    split; [now rewrite list_lookup_insert_eq | reflexivity].
Qed.

(** An invariant [T] of the single tasks that survives the steps of the
    task itself ([Hstep]) and of the others ([Hframe]), under an
    invariant [W] of the world, holds after every schedule. *)
Lemma run_pool_invariant (T : list pystr -> task_state -> world -> Prop)
    (W : world -> Prop) batches :
  (forall free_slot b s w, In b batches -> W w -> T b s w ->
     T b (fst (task_step free_slot b s w)) (snd (task_step free_slot b s w)) /\
     W (snd (task_step free_slot b s w))) ->
  (forall free_slot b s w b' s', In b batches -> In b' batches ->
     W w -> T b s w -> T b' s' w ->
     T b' s' (snd (task_step free_slot b s w))) ->
  forall schedule p (w : world),
    book_ok p -> length (states p) = length batches -> W w ->
    (forall i s b, states p !! i = Some s -> batches !! i = Some b -> T b s w) ->
    let p' := fst (run_pool batches schedule p w) in
    let w' := snd (run_pool batches schedule p w) in
    book_ok p' /\ length (states p') = length batches /\ W w' /\
    (forall i s b, states p' !! i = Some s -> batches !! i = Some b -> T b s w').
Proof.
  intros Hstep Hframe.
  induction schedule as [|i schedule IH]; intros p w Hb Hl Hw Ht;
    [cbn [Embedder.run_pool fst snd];
     split; [exact Hb | split; [exact Hl | split; [exact Hw | exact Ht]]]|].
  cbn [Embedder.run_pool].
  destruct (pool_step_book batches i p w Hb) as (Hb1 & Hl1 & Hother & Hi).
  destruct (pool_step batches i p w) as [p1 w1] eqn:Ep. cbn [fst snd] in *.
  assert (Hin : forall j b, batches !! j = Some b -> In b batches).
  { intros j b Hj. apply list_elem_of_In. eapply list_elem_of_lookup_2; eauto. }
  apply IH; [exact Hb1 | lia | |].
  - destruct (states p !! i) as [s|] eqn:Es; [|now injection Hi as _ <-].
    destruct (batches !! i) as [b|] eqn:Eb; [|now injection Hi as _ <-].
    destruct Hi as (free_slot & _ & ->).
    now apply Hstep; eauto.
  - intros j sj bj Hj Hbj.
    destruct (states p !! i) as [s|] eqn:Es;
      [|injection Hi as <- <-; eauto].
    destruct (batches !! i) as [b|] eqn:Eb;
      [|injection Hi as <- <-; eauto].
    destruct Hi as (free_slot & Hsi & ->).
    destruct (decide (j = i)) as [-> | Hne].
    + rewrite Hsi in Hj. injection Hj as <-. rewrite Eb in Hbj. injection Hbj as <-.
      now apply Hstep; eauto.
    + rewrite (Hother j Hne) in Hj. eapply Hframe; eauto.
Qed.

Lemma book_ok_init n : book_ok (Pool (replicate n Waiting) []).
Proof.
  split; [apply NoDup_nil_2|]. intros i. split; [intros []|].
  intros [r Hr]. apply lookup_replicate in Hr. destruct Hr as [[=] _].
Qed.

(** What [embed_texts] makes of the finished tasks when each of them
    ended with the values [G] of its batch. *)
Lemma pool_result {B} (G : list pystr -> list B) (bs : list (list pystr))
    (results : list (nat * list B)) (order : list nat) :
  NoDup order -> (forall i, In i order -> (i < length bs)%nat) ->
  length order = length bs ->
  results = map (fun i => (i, G (default [] (bs !! i)))) order ->
  assemble results = concat (map G bs) /\
  assemble (gathered (length bs) results) = concat (map G bs).
Proof.
  intros Hnd Hlt Hlen ->.
  assert (Hperm : Permutation order (seq 0 (length bs))).
  { apply NoDup_Permutation_bis;
      [apply NoDup_ListNoDup; exact Hnd | rewrite length_seq; lia|].
    intros i Hi. apply in_seq. specialize (Hlt i Hi). lia. }
  assert (Hc : Permutation
                 (map (fun i => (i, G (default [] (bs !! i)))) order)
                 (enumerate (map G bs))).
  { rewrite Hperm. pose proof (seq_lookup_enumerate G [] bs) as E.
    cbn [length app] in E. now rewrite E. }
  split; [now apply assemble_ordered|].
  pose proof (gathered_enumerate _ _ Hc) as Eg. rewrite length_map in Eg.
  rewrite Eg. now apply assemble_ordered.
Qed.

Lemma completed_results_done (G : list pystr -> list (option vector))
    (bs : list (list pystr)) p :
  length (states p) = length bs -> book_ok p ->
  (forall i b r, states p !! i = Some (Done r) -> bs !! i = Some b -> r = inr (G b)) ->
  forall order, (forall i, In i order -> In i (finished p)) ->
  completed_results (states p) order =
    inr (map (fun i => (i, G (default [] (bs !! i)))) order).
Proof.
  intros Hlen [_ Hfin] Hdone.
  induction order as [|i order IH]; intros Hin; [reflexivity|].
  cbn [completed_results map].
  destruct (proj1 (Hfin i) (Hin i (or_introl eq_refl))) as [r Hr].
  rewrite Hr.
  assert (Hi : (i < length bs)%nat)
    by (rewrite <- Hlen; eapply lookup_lt_Some; eauto).
  destruct (lookup_lt_is_Some_2 bs i Hi) as [b Hb].
  rewrite (Hdone i b r Hr Hb).
  rewrite IH by (intros j Hj; apply Hin; now right).
  now rewrite Hb.
Qed.

(** [embed_texts] from the final state of the tasks. *)
Lemma embed_texts_of_pool (G : pystr -> option vector) schedule texts show_progress
    (w : world) bs :
  batches_of batch_size texts = inr bs -> concat bs = texts ->
  let p' := fst (run_pool bs schedule (Pool (replicate (length bs) Waiting) []) w) in
  let w' := snd (run_pool bs schedule (Pool (replicate (length bs) Waiting) []) w) in
  book_ok p' -> length (states p') = length bs ->
  (forall i b r, states p' !! i = Some (Done r) -> bs !! i = Some b ->
                 r = inr (map G b)) ->
  embed_texts schedule texts show_progress w =
    (if (length (finished p') =? length bs)%nat
     then Returned (map G texts) else Unfinished, w').
Proof.
  intros Eb Hcat p' w' Hbook Hlen Hdone. unfold Embedder.embed_texts. rewrite Eb.
  fold run_pool.
  destruct (run_pool bs schedule _ w) as [p1 w1] eqn:Er. subst p' w'. cbn [fst snd] in *.
  rewrite (completed_results_done (map G) bs p1 Hlen Hbook Hdone) by auto.
  rewrite length_map.
  destruct (length (finished p1) =? length bs)%nat eqn:En; [|reflexivity].
  apply Nat.eqb_eq in En. f_equal. f_equal.
  assert (Hlt : forall i, In i (finished p1) -> (i < length bs)%nat).
  { intros i Hi. apply (proj2 Hbook) in Hi. destruct Hi as [r Hr].
    rewrite <- Hlen. eapply lookup_lt_Some; eauto. }
  destruct (pool_result (map G) bs _ (finished p1) (proj1 Hbook) Hlt En eq_refl)
    as [Ha Hg].
  rewrite <- Hcat, concat_map. now destruct show_progress.
Qed.

(** *** Degenerate calls *)

Lemma run_pool_no_task schedule (w : world) :
  run_pool [] schedule (Pool [] []) w = (Pool [] [], w).
Proof. induction schedule as [|i schedule IH]; [reflexivity | exact IH]. Qed.

(** X10: a call that has no batch never reaches the cache or the
    service.  For an empty list of texts, and for every list when
    [batch_size] is negative, [embed_texts] returns the empty list;
    with [batch_size = 0] it raises the [ValueError] of [range] for
    every list. *)
Theorem embed_texts_no_batch schedule texts show_progress (w : world) :
  texts = [] \/ batch_size <= 0 ->
  embed_texts schedule texts show_progress w =
    (if batch_size =? 0 then Raised ValueError else Returned [], w).
Proof.
  intros Hd. unfold Embedder.embed_texts, batches_of.
  destruct (batch_size =? 0) eqn:E0; [reflexivity|].
  assert (Eb : (if batch_size <? 0 then inr []
                else inr (map (fun i => slice texts i (i + batch_size))
                            (range_step (len texts) batch_size)))
               = (inr [] : error + list (list pystr))).
  { destruct (batch_size <? 0) eqn:E1; [reflexivity|].
    destruct Hd as [-> | Hd]; [|lia].
    unfold range_step. change (len []) with 0.
    rewrite Z.div_small by lia. reflexivity. }
  rewrite Eb. cbn [length replicate]. fold run_pool.
  rewrite run_pool_no_task. cbn [states finished completed_results length Nat.eqb].
  now destruct show_progress.
Qed.

(** *** The vector of a query *)

Lemma batches_members (texts : list pystr) (bs : list (list pystr)) :
  concat bs = texts -> forall b, In b bs -> forall t, In t b -> In t texts.
Proof. intros <- b Hb t Ht. apply in_concat. eauto. Qed.

Lemma pool_ok_book emb universe c0 batches p :
  pool_ok _compute_hash model emb universe c0 batches p ->
  book_ok p /\ length (states p) = length batches /\
  (forall i b r, states p !! i = Some (Done r) -> batches !! i = Some b ->
     r = inr (map (fun t => Some (expected emb c0 t)) b)).
Proof.
  intros (Hl & Hok & Hnd & Hfin). split; [now split|]. split; [exact Hl|].
  intros i b r Hs Hb. exact (Hok i _ b Hs Hb).
Qed.

Lemma pool_ok_init emb universe c0 batches :
  pool_ok _compute_hash model emb universe c0 batches
    (Pool (replicate (length batches) Waiting) []).
Proof.
  split; [apply length_replicate|]. split; [|apply book_ok_init].
  intros i s b Hi _. apply lookup_replicate in Hi. destruct Hi as [-> _]. exact I.
Qed.

(** With a faithful service the outcome of a call depends on the
    schedule only in whether all tasks reach their end. *)
Lemma embed_texts_faithful_run emb schedule texts show_progress (w : world) bs :
  faithful server emb ->
  (forall t1 t2, In t1 texts -> In t2 texts ->
     _compute_hash t1 = _compute_hash t2 -> t1 = t2) ->
  batches_of batch_size texts = inr bs -> concat bs = texts ->
  embed_texts schedule texts show_progress w =
    (if (length (finished (fst (run_pool bs schedule
                                  (Pool (replicate (length bs) Waiting) []) w)))
         =? length bs)%nat
     then Returned (map (fun t => Some (expected emb (cache w) t)) texts)
     else Unfinished,
     snd (run_pool bs schedule (Pool (replicate (length bs) Waiting) []) w)).
Proof.
  intros Hs Hinj Eb Hcat.
  assert (Hall : Forall (Forall (fun t => In t texts)) bs).
  { apply List.Forall_forall. intros b Hb. apply List.Forall_forall.
    exact (batches_members texts bs Hcat b Hb). }
  destruct (run_pool_ok _compute_hash server model max_concurrent emb texts (cache w)
              Hinj Hs bs schedule _ w Hall
              (cache_inv_init _compute_hash model emb texts (cache w))
              (pool_ok_init emb texts (cache w) bs)) as [Hp _].
  apply pool_ok_book in Hp. destruct Hp as (Hbook & Hlen & Hdone).
  exact (embed_texts_of_pool (fun t => Some (expected emb (cache w) t))
           schedule texts show_progress w bs Eb Hcat Hbook Hlen Hdone).
Qed.

Lemma embed_texts_faithful emb schedule texts show_progress (w : world) :
  0 < batch_size -> faithful server emb ->
  (forall t1 t2, In t1 texts -> In t2 texts ->
     _compute_hash t1 = _compute_hash t2 -> t1 = t2) ->
  fst (embed_texts schedule texts show_progress w) <> Unfinished ->
  fst (embed_texts schedule texts show_progress w) =
    Returned (map (fun t => Some (expected emb (cache w) t)) texts).
Proof.
  intros Hbs Hs Hinj.
  destruct (batches_concat batch_size texts Hbs) as (bs & Eb & Hcat & _).
  rewrite (embed_texts_faithful_run emb schedule texts show_progress w bs Hs Hinj Eb Hcat).
  cbn [fst]. now destruct (_ =? _)%nat.
Qed.

(** X11: [embed_query] with a faithful service.  Some schedule takes
    the one task of the query to its end, and under every schedule that
    does so the call returns the vector expected for the query: the
    cached one if there is one, else the vector of the service. *)
Theorem embed_query_expected emb query (w : world) :
  0 < batch_size -> (1 <= max_concurrent)%nat -> faithful server emb ->
  (exists schedule, fst (embed_query schedule query w) <> Unfinished) /\
  (forall schedule,
     fst (embed_query schedule query w) <> Unfinished ->
     fst (embed_query schedule query w) = Returned (Some (expected emb (cache w) query))).
Proof.
  intros Hbs Hmc Hs.
  assert (Hinj : forall t1 t2, In t1 [query] -> In t2 [query] ->
            _compute_hash t1 = _compute_hash t2 -> t1 = t2)
    by (intros t1 t2 [<- | []] [<- | []] _; reflexivity).
  assert (Eb : batches_of batch_size [query] = inr [[query]])
    by (apply batches_single; [discriminate | unfold len; simpl; lia]).
  assert (Hrun := fun schedule =>
            embed_texts_faithful_run emb schedule [query] false w [[query]]
              Hs Hinj Eb eq_refl).
  split.
  - exists [0; 0; 0; 0]%nat. unfold Embedder.embed_query. fold embed_texts.
    rewrite Hrun.
    destruct (run_pool_one_task _compute_hash server model max_concurrent emb Hs
                [[query]] [] 0 [] w [query] Hmc eq_refl (List.Forall_nil _))
      as (r & w1 & Er).
    cbn [length replicate app] in *. fold run_pool in Er. rewrite Er.
    cbn [fst finished length Nat.eqb map]. discriminate.
  - intros schedule. unfold Embedder.embed_query. fold embed_texts.
    rewrite Hrun. destruct (_ =? _)%nat; cbn [map fst]; [reflexivity|].
    intros Hu. now elim Hu.
Qed.

(** *** Calls that the cache answers *)

Lemma misses_of_none (c : gmap (H * pystr) vector) (b : list pystr) :
  (forall t, In t b -> is_Some (c !! cache_key t)) -> misses_of c b = [].
Proof.
  intros Hc. unfold EmbedderSpec.misses_of.
  induction b as [|t b IH]; [reflexivity|]. simpl.
  destruct (Hc t (or_introl eq_refl)) as [v ->]. simpl.
  apply IH. intros t' Ht'. apply Hc. now right.
Qed.

Lemma task_step_acquired free_slot b (w : world) :
  task_step free_slot b Acquired w =
    (match misses_of (cache w) b with
     | [] => Done (inr (cached_of (cache w) b))
     | ts => Posting (cached_of (cache w) b) ts 0
     end, w).
Proof.
  cbn [Embedder.task_step]. unfold uncached_indices_of, enumerate.
  rewrite (uncached_texts_filter (fun t => cache w !! cache_key t) [] b).
  unfold EmbedderSpec.misses_of, EmbedderSpec.cached_of.
  now destruct (List.filter _ b).
Qed.

(** A task whose texts are all cached stays quiet and leaves the world
    as it is. *)
Lemma task_step_quiet free_slot b s (w : world) :
  (forall t, In t b -> is_Some (cache w !! cache_key t)) ->
  quiet (cached_of (cache w) b) s ->
  quiet (cached_of (cache w) b) (fst (task_step free_slot b s w)) /\
  snd (task_step free_slot b s w) = w.
Proof.
  intros Hc [-> | [-> | ->]].
  - cbn [Embedder.task_step fst snd]. split; [|reflexivity].
    destruct free_slot; [right; now left | now left].
  - rewrite task_step_acquired, (misses_of_none _ _ Hc). cbn [fst snd].
    split; [right; now right | reflexivity].
  - cbn [Embedder.task_step fst snd]. split; [right; now right | reflexivity].
Qed.

Lemma run_pool_quiet bs schedule (w : world) :
  (forall b, In b bs -> forall t, In t b -> is_Some (cache w !! cache_key t)) ->
  let p' := fst (run_pool bs schedule (Pool (replicate (length bs) Waiting) []) w) in
  book_ok p' /\ length (states p') = length bs /\
  snd (run_pool bs schedule (Pool (replicate (length bs) Waiting) []) w) = w /\
  (forall i b r, states p' !! i = Some (Done r) -> bs !! i = Some b ->
     r = inr (map (fun t => cache w !! cache_key t) b)).
Proof.
  intros Hc.
  destruct (run_pool_invariant
              (fun b s _ => quiet (cached_of (cache w) b) s) (fun w' => w' = w) bs)
    with (schedule := schedule) (p := Pool (replicate (length bs) Waiting) []) (w := w)
    as (Hbook & Hlen & Hw & Ht).
  - intros free_slot b s w' Hb -> Hq.
    exact (task_step_quiet free_slot b s w (Hc b Hb) Hq).
  - intros free_slot b s w' b' s' _ _ _ _ Hq. exact Hq.
  - apply book_ok_init.
  - apply length_replicate.
  - reflexivity.
  - intros i s b Hi _. apply lookup_replicate in Hi. destruct Hi as [-> _]. now left.
  - split; [exact Hbook|]. split; [exact Hlen|]. split; [exact Hw|].
    intros i b r Hs Hb. destruct (Ht i _ b Hs Hb) as [[=] | [[=] | [= ->]]].
    reflexivity.
Qed.

(** Two steps take a waiting task whose texts are cached to its end. *)
Lemma run_pool_one_quiet bs ds k fin (w : world) b :
  (1 <= max_concurrent)%nat ->
  bs !! length ds = Some b ->
  (forall t, In t b -> is_Some (cache w !! cache_key t)) ->
  Forall (fun s => is_done s = true) ds ->
  exists r,
    run_pool bs (replicate 2 (length ds))
      (Pool (ds ++ Waiting :: replicate k Waiting) fin) w
    = (Pool (ds ++ Done r :: replicate k Waiting) (fin ++ [length ds]), w).
Proof.
  intros Hmc Hb Hc Hd. cbn [replicate Embedder.run_pool].
  rewrite (pool_step_middle _compute_hash server model max_concurrent
             bs ds Waiting _ fin w b Hb).
  change (Waiting :: replicate k Waiting) with (replicate (S k) Waiting).
  rewrite (no_slot_held ds (S k) Hd). cbn [length].
  assert (Hfree : (0 <? max_concurrent)%nat = true) by (apply Nat.ltb_lt; lia).
  rewrite Hfree. cbn [Embedder.task_step fst snd is_done negb andb replicate].
  rewrite (pool_step_middle _compute_hash server model max_concurrent
             bs ds Acquired _ fin w b Hb).
  rewrite task_step_acquired, (misses_of_none _ _ Hc).
  cbn [fst snd is_done negb andb]. eauto.
Qed.

Lemma run_pool_sequential_quiet bs (w : world) :
  (1 <= max_concurrent)%nat ->
  (forall b, In b bs -> forall t, In t b -> is_Some (cache w !! cache_key t)) ->
  forall k ds fin,
    length bs = (length ds + k)%nat ->
    Forall (fun s => is_done s = true) ds ->
    length (finished (fst (run_pool bs (concat (map (replicate 2) (seq (length ds) k)))
                             (Pool (ds ++ replicate k Waiting) fin) w)))
    = (length fin + k)%nat.
Proof.
  intros Hmc Hc. induction k as [|k IH]; intros ds fin Hlen Hd.
  - simpl. lia.
  - cbn [seq map concat].
    rewrite (run_pool_app _compute_hash server model max_concurrent).
    assert (Hi : (length ds < length bs)%nat) by lia.
    destruct (lookup_lt_is_Some_2 bs _ Hi) as [b Hb].
    change (replicate (S k) Waiting) with (Waiting :: replicate k Waiting).
    assert (Hcb : forall t, In t b -> is_Some (cache w !! cache_key t)).
    { apply Hc. apply list_elem_of_In. eapply list_elem_of_lookup_2; eauto. }
    destruct (run_pool_one_quiet bs ds k fin w b Hmc Hb Hcb Hd) as (r & Er).
    fold run_pool. rewrite Er. cbn [fst snd].
    specialize (IH (ds ++ [Done r]) (fin ++ [length ds])).
    rewrite !length_app, Nat.add_1_r, <- app_assoc in IH. cbn [app] in IH.
    rewrite IH; [cbn [length]; lia | cbn [length]; lia|].
    apply Forall_app. split; [exact Hd|]. now constructor.
Qed.

(** X12: when every text is in the cache, [embed_texts] posts nothing
    to the service and writes nothing to the cache, under every
    schedule and with any service.  Some schedule takes it to its end,
    and a call that reaches its end returns the cached vectors in input
    order. *)
Theorem embed_texts_all_cached texts show_progress (w : world) :
  0 < batch_size -> (1 <= max_concurrent)%nat ->
  (forall t, In t texts -> is_Some (cache w !! cache_key t)) ->
  (exists schedule, fst (embed_texts schedule texts show_progress w) <> Unfinished) /\
  (forall schedule,
     snd (embed_texts schedule texts show_progress w) = w /\
     (fst (embed_texts schedule texts show_progress w) <> Unfinished ->
      fst (embed_texts schedule texts show_progress w) =
        Returned (map (fun t => cache w !! cache_key t) texts))).
Proof.
  intros Hbs Hmc Hc.
  destruct (batches_concat batch_size texts Hbs) as (bs & Eb & Hcat & _).
  assert (Hcb : forall b, In b bs -> forall t, In t b -> is_Some (cache w !! cache_key t)).
  { intros b Hb t Ht. apply Hc. exact (batches_members texts bs Hcat b Hb t Ht). }
  assert (Hrun : forall schedule,
            embed_texts schedule texts show_progress w =
              (if (length (finished (fst (run_pool bs schedule
                       (Pool (replicate (length bs) Waiting) []) w))) =? length bs)%nat
               then Returned (map (fun t => cache w !! cache_key t) texts)
               else Unfinished, w)).
  { intros schedule.
    destruct (run_pool_quiet bs schedule w Hcb) as (Hbook & Hlen & Hw & Hdone).
    rewrite (embed_texts_of_pool (fun t => cache w !! cache_key t)
               schedule texts show_progress w bs Eb Hcat Hbook Hlen Hdone).
    now rewrite Hw. }
  split.
  - exists (concat (map (replicate 2) (seq 0 (length bs)))). rewrite Hrun.
    pose proof (run_pool_sequential_quiet bs w Hmc Hcb (length bs) [] [] eq_refl
                  (List.Forall_nil _)) as Hl.
    cbn [length app] in Hl. rewrite Hl, Nat.eqb_refl. discriminate.
  - intros schedule. rewrite Hrun. cbn [fst snd]. split; [reflexivity|].
    destruct (_ =? _)%nat; [reflexivity|]. intros Hu. now elim Hu.
Qed.

(** *** What a call leaves in the cache *)

Lemma insert_rows_mono rows : forall (c : gmap (H * pystr) vector) k,
  is_Some (c !! k) -> is_Some (insert_rows rows c !! k).
Proof.
  induction rows as [|[t e] rows IH]; intros c k Hk; [exact Hk|]. simpl.
  apply IH. destruct (decide (cache_key t = k)) as [<- | Hne].
  - rewrite lookup_insert_eq. eauto.
  - now rewrite lookup_insert_ne.
Qed.

Lemma insert_rows_covers ts : forall es (c : gmap (H * pystr) vector) t,
  length es = length ts -> In t ts ->
  is_Some (insert_rows (zip ts es) c !! cache_key t).
Proof.
  induction ts as [|t0 ts IH]; intros es c t Hl Ht; [destruct Ht|].
  destruct es as [|e es]; [discriminate|]. simpl.
  destruct Ht as [<- | Ht].
  - apply insert_rows_mono. rewrite lookup_insert_eq. eauto.
  - apply IH; [simpl in Hl; lia | exact Ht].
Qed.

Lemma task_step_grows free_slot b s (w : world) k :
  is_Some (cache w !! k) ->
  is_Some (cache (snd (task_step free_slot b s w)) !! k).
Proof.
  intros Hk. destruct s; cbn [Embedder.task_step snd cache]; try exact Hk.
  - now destruct (mapM _ _) as [[|]|].
  - now apply insert_rows_mono.
Qed.

Lemma covered_mono (c c' : gmap (H * pystr) vector) b s :
  (forall k, is_Some (c !! k) -> is_Some (c' !! k)) ->
  covered _compute_hash model c b s -> covered _compute_hash model c' b s.
Proof.
  intros Hm. destruct s; simpl; auto.
  - intros Hc t Ht. destruct (Hc t Ht); auto.
  - intros Hc t Ht. destruct (Hc t Ht); auto.
Qed.

Section Filling.
Variable emb : pystr -> vector.
Variable universe : list pystr.
Variable c0 : gmap (H * pystr) vector.
Hypothesis hash_inj :
  forall t1 t2, In t1 universe -> In t2 universe ->
    _compute_hash t1 = _compute_hash t2 -> t1 = t2.
Hypothesis server_ok : faithful server emb.

Local Abbreviation inv := (cache_inv _compute_hash model emb universe c0).
Local Abbreviation task_ok := (task_ok _compute_hash model emb universe c0).
Local Abbreviation covered := (covered _compute_hash model).

Lemma task_step_covered free_slot b s (w : world) :
  task_ok b s -> covered (cache w) b s ->
  covered (cache (snd (task_step free_slot b s w))) b (fst (task_step free_slot b s w)).
Proof.
  intros Hok Hc. destruct s as [| |cached ts attempt|cached ts fresh|r].
  - cbn [Embedder.task_step fst snd]. now destruct free_slot.
  - rewrite task_step_acquired. cbn [fst snd].
    assert (Hall : forall t, In t b ->
              is_Some (cache w !! cache_key t) \/ In t (misses_of (cache w) b)).
    { intros t Ht. destruct (cache w !! cache_key t) as [v|] eqn:E; [left; eauto|].
      right. unfold EmbedderSpec.misses_of. apply filter_In. split; [exact Ht|].
      now rewrite E. }
    destruct (misses_of (cache w) b) as [|m ms]; [|exact Hall].
    intros t Ht. destruct (Hall t Ht) as [Hs | []]. exact Hs.
  - cbn [Embedder.task_step fst snd cache].
    destruct (server_ok (length (requests w)) ts) as (data & -> & _). exact Hc.
  - cbn [Embedder.task_step fst snd cache]. destruct Hok as (-> & _).
    intros t Ht. destruct (Hc t Ht) as [Hs | Hin].
    + now apply insert_rows_mono.
    + apply insert_rows_covers; [apply length_map | exact Hin].
  - exact Hc.
Qed.

(** After any schedule the texts of the finished tasks are in the
    cache, each with its expected vector. *)
Lemma run_pool_covered bs schedule (w : world) :
  Forall (Forall (fun t => In t universe)) bs ->
  inv (cache w) ->
  let p' := fst (run_pool bs schedule (Pool (replicate (length bs) Waiting) []) w) in
  let w' := snd (run_pool bs schedule (Pool (replicate (length bs) Waiting) []) w) in
  book_ok p' /\ length (states p') = length bs /\ inv (cache w') /\
  (forall i s b, states p' !! i = Some s -> bs !! i = Some b ->
     covered (cache w') b s).
Proof.
  intros Hall Hinv.
  destruct (run_pool_invariant
              (fun b s w' => task_ok b s /\ covered (cache w') b s)
              (fun w' => inv (cache w')) bs)
    with (schedule := schedule) (p := Pool (replicate (length bs) Waiting) []) (w := w)
    as (Hbook & Hlen & Hw & Ht).
  - intros free_slot b s w' Hb Hw' [Hok Hc].
    assert (Hbu : Forall (fun t => In t universe) b).
    { rewrite List.Forall_forall in Hall. now apply Hall. }
    destruct (task_step_ok _compute_hash server model emb universe c0 hash_inj
                server_ok free_slot b s w' Hbu Hw' Hok) as [Hok' Hw''].
    split; [split; [exact Hok'|] | exact Hw''].
    now apply task_step_covered.
  - intros free_slot b s w' b' s' _ _ _ _ [Hok Hc]. split; [exact Hok|].
    eapply covered_mono; [|exact Hc]. intros k. apply task_step_grows.
  - apply book_ok_init.
  - apply length_replicate.
  - exact Hinv.
  - intros i s b Hi _. apply lookup_replicate in Hi. destruct Hi as [-> _].
    split; exact I.
  - split; [exact Hbook|]. split; [exact Hlen|]. split; [exact Hw|].
    intros i s b Hs Hb. exact (proj2 (Ht i s b Hs Hb)).
Qed.
End Filling.

(** When all tasks are listed as finished, every task has ended. *)
Lemma all_finished p n i :
  book_ok p -> length (states p) = n -> length (finished p) = n -> (i < n)%nat ->
  exists r, states p !! i = Some (Done r).
Proof.
  intros [Hnd Hfin] Hlen Hf Hi. apply Hfin.
  assert (Hperm : Permutation (finished p) (seq 0 n)).
  { apply NoDup_Permutation_bis;
      [apply NoDup_ListNoDup; exact Hnd | rewrite length_seq; lia|].
    intros j Hj. apply in_seq. apply Hfin in Hj. destruct Hj as [r Hr].
    apply lookup_lt_Some in Hr. lia. }
  eapply Permutation_in; [apply Permutation_sym; exact Hperm|].
  apply in_seq. lia.
Qed.

Lemma embed_texts_fills emb schedule texts show_progress (w : world) :
  0 < batch_size -> faithful server emb ->
  (forall t1 t2, In t1 texts -> In t2 texts ->
     _compute_hash t1 = _compute_hash t2 -> t1 = t2) ->
  fst (embed_texts schedule texts show_progress w) <> Unfinished ->
  forall t, In t texts ->
    cache (snd (embed_texts schedule texts show_progress w)) !! cache_key t
    = Some (expected emb (cache w) t).
Proof.
  intros Hbs Hs Hinj.
  destruct (batches_concat batch_size texts Hbs) as (bs & Eb & Hcat & _).
  rewrite (embed_texts_faithful_run emb schedule texts show_progress w bs Hs Hinj Eb Hcat).
  cbn [fst snd].
  assert (Hall : Forall (Forall (fun t => In t texts)) bs).
  { apply List.Forall_forall. intros b Hb. apply List.Forall_forall.
    exact (batches_members texts bs Hcat b Hb). }
  destruct (run_pool_covered emb texts (cache w) Hinj Hs bs schedule w Hall
              (cache_inv_init _compute_hash model emb texts (cache w)))
    as (Hbook & Hlen & Hinv & Hcov).
  destruct (_ =? _)%nat eqn:En; [|intros Hu; now elim Hu].
  apply Nat.eqb_eq in En. intros _ t Ht.
  assert (Ht' := Ht). rewrite <- Hcat in Ht'. apply in_concat in Ht'.
  destruct Ht' as (b & Hb & Htb).
  apply list_elem_of_In, list_elem_of_lookup_1 in Hb. destruct Hb as [i Hi].
  destruct (all_finished _ (length bs) i Hbook Hlen En) as [r Hr];
    [eapply lookup_lt_Some; eauto|].
  specialize (Hcov i _ b Hr Hi t Htb). destruct Hcov as [v Hv].
  specialize (Hinv t Ht). rewrite Hv in Hinv. now rewrite Hv, Hinv.
Qed.

(** X13: with a faithful service, a call of [embed_texts] that reaches
    its end leaves every text of the input in the cache, under the
    configured model, with the vector the call returned for it. *)
Theorem embed_texts_fills_cache emb schedule texts show_progress (w : world) :
  0 < batch_size -> faithful server emb ->
  (forall t1 t2, In t1 texts -> In t2 texts ->
     _compute_hash t1 = _compute_hash t2 -> t1 = t2) ->
  fst (embed_texts schedule texts show_progress w) <> Unfinished ->
  fst (embed_texts schedule texts show_progress w) =
    Returned (map (fun t =>
                cache (snd (embed_texts schedule texts show_progress w)) !! cache_key t)
              texts).
Proof.
  intros Hbs Hs Hinj Hu.
  rewrite (embed_texts_faithful emb schedule texts show_progress w Hbs Hs Hinj Hu).
  f_equal. apply map_ext_in. intros t Ht. symmetry.
  now apply embed_texts_fills.
Qed.

(** X14: with a faithful service, a second call of [embed_texts] on the
    same texts, after a first one that reached its end, posts nothing
    and writes nothing; when it reaches its end it returns what the
    first call returned. *)
Theorem embed_texts_second_call emb schedule1 schedule2 texts show1 show2 (w : world) :
  0 < batch_size -> faithful server emb ->
  (forall t1 t2, In t1 texts -> In t2 texts ->
     _compute_hash t1 = _compute_hash t2 -> t1 = t2) ->
  fst (embed_texts schedule1 texts show1 w) <> Unfinished ->
  let w1 := snd (embed_texts schedule1 texts show1 w) in
  snd (embed_texts schedule2 texts show2 w1) = w1 /\
  (fst (embed_texts schedule2 texts show2 w1) <> Unfinished ->
   fst (embed_texts schedule2 texts show2 w1) = fst (embed_texts schedule1 texts show1 w)).
Proof.
  intros Hbs Hs Hinj Hu w1.
  pose proof (embed_texts_fills emb schedule1 texts show1 w Hbs Hs Hinj Hu) as Hfill.
  fold w1 in Hfill.
  destruct (batches_concat batch_size texts Hbs) as (bs & Eb & Hcat & _).
  assert (Hcb : forall b, In b bs -> forall t, In t b -> is_Some (cache w1 !! cache_key t)).
  { intros b Hb t Ht. rewrite (Hfill t); [eauto|].
    exact (batches_members texts bs Hcat b Hb t Ht). }
  destruct (run_pool_quiet bs schedule2 w1 Hcb) as (Hbook & Hlen & Hw & Hdone).
  rewrite (embed_texts_of_pool (fun t => cache w1 !! cache_key t)
             schedule2 texts show2 w1 bs Eb Hcat Hbook Hlen Hdone).
  cbn [fst snd]. split; [exact Hw|].
  destruct (_ =? _)%nat; [|intros Hu2; now elim Hu2]. intros _.
  rewrite (embed_texts_faithful emb schedule1 texts show1 w Hbs Hs Hinj Hu).
  f_equal. apply map_ext_in. intros t Ht. now apply Hfill.
Qed.

End WithEnvironment.

(** *** The cache table *)

Section CacheTable.
Context {H : Type} `{Countable H}.
Variable _compute_hash : pystr -> H.

Local Abbreviation world := (@world H _ _).

Lemma insert_rows_other model rows : forall (c : gmap (H * pystr) vector) k,
  ~ In k (map (fun r => cache_key _compute_hash model (fst r)) rows) ->
  insert_rows _compute_hash model rows c !! k = c !! k.
Proof.
  induction rows as [|[t e] rows IH]; intros c k Hk; [reflexivity|]. simpl in *.
  rewrite IH by tauto. apply lookup_insert_ne. tauto.
Qed.

Lemma map_fst_zip {A B} (l : list A) (k : list B) :
  length k = length l -> map fst (zip l k) = l.
Proof.
  revert k. induction l as [|x l IH]; intros [|y k] Hl; try discriminate; [reflexivity|].
  simpl. f_equal. apply IH. simpl in Hl. lia.
Qed.

(** X15: what [set_batch] writes, [get_batch] reads back.  For texts
    with pairwise different hashes and as many embeddings as texts,
    [get_batch(texts, model)] after [set_batch(texts, model,
    embeddings)] returns the embeddings, in order and without a miss. *)
Theorem set_batch_get_batch model texts embeddings (w : world) :
  NoDup (map _compute_hash texts) -> length embeddings = length texts ->
  fst (get_batch _compute_hash model texts
         (snd (set_batch _compute_hash model texts embeddings w)))
  = inr (map Some embeddings).
Proof.
  intros Hnd Hl. unfold get_batch, set_batch. cbn [fst snd cache]. f_equal.
  generalize (cache w) as c.
  revert embeddings Hl. induction texts as [|t texts IH]; intros [|e es] Hl c;
    try discriminate; [reflexivity|].
  apply NoDup_cons in Hnd. destruct Hnd as [Hnt Hnd].
  cbn [zip zip_with Embedder.insert_rows map]. f_equal.
  - rewrite insert_rows_other; [apply lookup_insert_eq|].
    rewrite <- (map_map fst), map_fst_zip by (simpl in Hl; lia).
    intros Hin. apply in_map_iff in Hin. destruct Hin as (t' & [= E] & Ht').
    apply Hnt. rewrite <- E. apply list_elem_of_In, in_map. exact Ht'.
  - apply IH; [exact Hnd | simpl in Hl; lia].
Qed.

(** X16: rows are kept apart by model and by hash.  [set_batch] under
    one model changes no answer of [get_batch] under another model, and
    under the same model it changes no answer for a text whose hash is
    not among the hashes written. *)
Theorem set_batch_isolated model model' texts embeddings others (w : world) :
  model' <> model \/
  (forall t, In t others -> ~ In (_compute_hash t) (map _compute_hash texts)) ->
  fst (get_batch _compute_hash model' others
         (snd (set_batch _compute_hash model texts embeddings w)))
  = fst (get_batch _compute_hash model' others w).
Proof.
  intros Hd. unfold get_batch, set_batch. cbn [fst snd cache]. f_equal.
  apply map_ext_in. intros t Ht. apply insert_rows_other.
  intros Hin. apply in_map_iff in Hin. destruct Hin as ([t' e] & [= Eh Em] & Hr).
  destruct Hd as [Hm | Hh]; [congruence|].
  apply (Hh t Ht). rewrite <- Eh. apply in_map.
  apply (in_map fst) in Hr. simpl in Hr.
  clear -Hr. revert embeddings Hr.
  induction texts as [|x texts IH]; intros [|e es]; simpl; try tauto.
  intros [-> | Hr]; [now left | right; eauto].
Qed.

End CacheTable.
Import EmbedderExample ClientExample.

Lemma server_faithful : faithful server emb.
Proof.
  intros n ts. eexists. split; [reflexivity|].
  apply Permutation_sym, Permutation_rev.
Qed.

Lemma hash_injective (texts : list pystr) :
  forall t1 t2, In t1 texts -> In t2 texts -> hash t1 = hash t2 -> t1 = t2.
Proof. intros t1 t2 _ _ E. exact E. Qed.

Lemma embed_batch_with_cache_short_answer_witness :
  _embed_batch_with_cache hash short_server model texts w_empty =
    (inl IndexError,
     World (insert_rows hash model
              (zip (misses_of hash model (cache w_empty) texts)
                 (extract_embeddings (indexed [emb (py "a")])))
              (cache w_empty))
           (requests w_empty ++ [misses_of hash model (cache w_empty) texts])).
Proof.
  apply (embed_batch_with_cache_short_answer hash short_server model texts w_empty
           (indexed [emb (py "a")])).
  - reflexivity.
  - vm_compute. lia.
Defined.

Lemma embed_texts_no_batch_witness :
  embed_texts hash server model 2 6 [0; 1]%nat [] true w_empty = (Returned [], w_empty).
Proof.
  apply (embed_texts_no_batch hash server model 2 6 [0; 1]%nat [] true w_empty).
  now left.
Defined.

Lemma embed_query_expected_witness :
  (exists schedule,
     fst (embed_query hash server model 2 6 schedule (py "bb") w_cached) <> Unfinished) /\
  (forall schedule,
     fst (embed_query hash server model 2 6 schedule (py "bb") w_cached) <> Unfinished ->
     fst (embed_query hash server model 2 6 schedule (py "bb") w_cached)
     = Returned (Some (expected hash model emb (cache w_cached) (py "bb")))).
Proof.
  apply (embed_query_expected hash server model 2 6 emb (py "bb") w_cached).
  - reflexivity.
  - lia.
  - exact server_faithful.
Defined.

Lemma cached_texts_cached t :
  In t cached_texts -> is_Some (cache w_cached !! cache_key hash model t).
Proof.
  intros [<- | [<- | []]]; unfold w_cached; cbn [cache].
  - rewrite lookup_insert_ne by (intros [= E]; vm_compute in E; discriminate).
    rewrite lookup_insert_eq. eauto.
  - rewrite lookup_insert_eq. eauto.
Qed.

Lemma embed_texts_all_cached_witness :
  (exists schedule,
     fst (embed_texts hash server model 2 6 schedule cached_texts true w_cached)
     <> Unfinished) /\
  (forall schedule,
     snd (embed_texts hash server model 2 6 schedule cached_texts true w_cached)
     = w_cached /\
     (fst (embed_texts hash server model 2 6 schedule cached_texts true w_cached)
      <> Unfinished ->
      fst (embed_texts hash server model 2 6 schedule cached_texts true w_cached) =
        Returned (map (fun t => cache w_cached !! cache_key hash model t) cached_texts))).
Proof.
  apply (embed_texts_all_cached hash server model 2 6 cached_texts true w_cached).
  - reflexivity.
  - lia.
  - exact cached_texts_cached.
Defined.

Lemma interleaved_run_finishes :
  fst (embed_texts hash server model 2 6 [0; 1; 1; 0; 1; 1; 0; 0]%nat texts true w_empty)
  <> Unfinished.
Proof. rewrite embed_texts_interleaved_example. discriminate. Qed.

Lemma embed_texts_fills_cache_witness :
  fst (embed_texts hash server model 2 6 [0; 1; 1; 0; 1; 1; 0; 0]%nat texts true w_empty)
  = Returned
      (map (fun t =>
              cache (snd (embed_texts hash server model 2 6
                            [0; 1; 1; 0; 1; 1; 0; 0]%nat texts true w_empty))
                !! cache_key hash model t) texts).
Proof.
  apply (embed_texts_fills_cache hash server model 2 6 emb).
  - reflexivity.
  - exact server_faithful.
  - apply hash_injective.
  - exact interleaved_run_finishes.
Defined.

Lemma embed_texts_second_call_witness :
  let w1 := snd (embed_texts hash server model 2 6 [0; 1; 1; 0; 1; 1; 0; 0]%nat
                   texts true w_empty) in
  snd (embed_texts hash server model 2 6 [1; 0; 1; 0]%nat texts false w1) = w1 /\
  (fst (embed_texts hash server model 2 6 [1; 0; 1; 0]%nat texts false w1) <> Unfinished ->
   fst (embed_texts hash server model 2 6 [1; 0; 1; 0]%nat texts false w1)
   = fst (embed_texts hash server model 2 6 [0; 1; 1; 0; 1; 1; 0; 0]%nat
            texts true w_empty)).
Proof.
  apply (embed_texts_second_call hash server model 2 6 emb).
  - reflexivity.
  - exact server_faithful.
  - apply hash_injective.
  - exact interleaved_run_finishes.
Defined.

Lemma set_batch_get_batch_witness :
  fst (get_batch hash model texts
         (snd (set_batch hash model texts [[1%Q]; [2%Q]; [3%Q]] w_empty)))
  = inr (map Some [[1%Q]; [2%Q]; [3%Q]]).
Proof.
  apply (set_batch_get_batch hash model texts [[1%Q]; [2%Q]; [3%Q]] w_empty).
  - apply (bool_decide_unpack _). vm_compute. exact I.
  - reflexivity.
Defined.

Lemma set_batch_isolated_witness :
  fst (get_batch hash other_model texts
         (snd (set_batch hash model texts [[1%Q]; [2%Q]; [3%Q]] w_cached)))
  = fst (get_batch hash other_model texts w_cached).
Proof.
  apply (set_batch_isolated hash model other_model texts [[1%Q]; [2%Q]; [3%Q]]
           texts w_cached).
  left. intros E. vm_compute in E. discriminate.
Defined.

End ClientProofs.

(** ** Further properties of the vector store *)

Module StoreProofs.
Import Embedder VectorStore VectorStoreSpec RetrieverSpec StrFacts VectorStoreProofs.

Section WithFaiss.
Variable dimension : nat.
Variable normalize_L2 : vector -> vector.
Variable index_search : list vector -> vector -> Z -> list (Q * Z).

Local Abbreviation add_vectors := (add_vectors dimension normalize_L2).
Local Abbreviation search := (search dimension normalize_L2 index_search).

Lemma collect_hits ids found :
  Forall (fun hit : Q * Z => -1 <= snd hit) found ->
  collect ids found = inr (hits ids found).
Proof.
  induction 1 as [|[score idx] found Hidx _ IH]; [reflexivity|].
  cbn [collect hits omap list_omap fst snd] in *.
  fold (hits ids found). rewrite IH. simpl in Hidx.
  destruct (idx <? len ids) eqn:E1; [|now rewrite !andb_false_r].
  rewrite !andb_true_r.
  destruct (idx =? -1) eqn:E2.
  - assert (E3 : (0 <=? idx) = false) by lia. now rewrite E3.
  - assert (E3 : (0 <=? idx) = true) by lia. rewrite E3. cbn [negb].
    unfold getitem. assert (E4 : (idx <? 0) = false) by lia. rewrite E4.
    destruct (lookup_lt_is_Some_2 ids (Z.to_nat idx)) as [cid Hc];
      [unfold len in *; lia|].
    now rewrite Hc.
Qed.

Lemma hits_ids ids found :
  Forall (fun r : pystr * Q => In (fst r) ids) (hits ids found).
Proof.
  apply List.Forall_forall. intros [cid score] Hin. unfold hits in Hin.
  apply list_elem_of_In, list_elem_of_omap in Hin.
  destruct Hin as ([s idx] & _ & Hh). simpl in Hh.
  destruct ((0 <=? idx) && (idx <? len ids)); [|discriminate].
  destruct (ids !! Z.to_nat idx) as [c|] eqn:E; [|discriminate].
  injection Hh as <- _. apply list_elem_of_In. eapply list_elem_of_lookup_2; eauto.
Qed.


(** X18: the vector store part of an index build, and the next start
    of the server.  When every chunk carries an embedding of the
    configured dimension, [create_index] followed by [add_vectors]
    succeeds on any store; the id list is then the list of the chunk
    ids in the order of the chunks, one vector per chunk.  After [save],
    [load] on any store returns [True] and gives back exactly that
    index and that id list. *)
Theorem build_save_load st0 st1 d chunks :
  Forall (fun c => exists e, dc_embedding c = Some e /\ length e = dimension) chunks ->
  exists st,
    add_vectors (create_index st0) chunks = inr st /\
    chunk_ids st = map dc_chunk_id chunks /\
    get_size st = len chunks /\
    load st1 (save st d) = (inr true, st).
Proof.
  intros Hc.
  destruct (add_vectors_succeeds dimension normalize_L2 (create_index st0) [] chunks
              eq_refl Hc) as [st E].
  exists st. split; [exact E|].
  destruct chunks as [|c chunks].
  - injection E as <-. repeat split.
  - apply add_vectors_inr in E; [|discriminate].
    destruct E as (rows & vectors & [= <-] & Hm & ->).
    pose proof (mapM_length _ _ _ Hm) as Hl.
    cbn [chunk_ids app get_size index save load index_file mapping_file].
    split; [reflexivity|]. split; [|reflexivity].
    unfold ntotal, len. rewrite length_map. now rewrite Hl.
Qed.

End WithFaiss.
Import RetrieverExample.


Lemma build_save_load_witness :
  exists st',
    add_vectors 1 (fun v => v) (create_index st)
      [chunk (py "d3_chunk_0") [2%Q]; chunk (py "d3_chunk_1") [3%Q]] = inr st' /\
    chunk_ids st' = map dc_chunk_id
                      [chunk (py "d3_chunk_0") [2%Q]; chunk (py "d3_chunk_1") [3%Q]] /\
    get_size st' = len [chunk (py "d3_chunk_0") [2%Q]; chunk (py "d3_chunk_1") [3%Q]] /\
    load init (save st' (Disk None None)) = (inr true, st').
Proof.
  apply (build_save_load 1 (fun v => v) st init (Disk None None)).
  repeat constructor; eexists; split; reflexivity.
Defined.

End StoreProofs.

(** ** Properties of the chunk ids *)

Module ChunkIdProofs.
Import ChunkIds StrFacts.

Lemma uint_cps_digits u : Forall (fun c => is_digit c = true) (uint_cps u).
Proof. induction u; simpl; constructor; auto. Qed.

Lemma uint_cps_inj u v : uint_cps u = uint_cps v -> u = v.
Proof.
  revert v. induction u; intros []; simpl; try discriminate; try reflexivity;
    intros [= E]; f_equal; auto.
Qed.

Lemma str_of_nat_inj i j : str_of_nat i = str_of_nat j -> i = j.
Proof.
  unfold str_of_nat. intros E. apply uint_cps_inj in E.
  rewrite <- (DecimalNat.Unsigned.of_to i), <- (DecimalNat.Unsigned.of_to j).
  now rewrite E.
Qed.

Lemma CHUNK_SEP_cps : CHUNK_SEP = [95; 99; 104; 117; 110; 107; 95]%N.
Proof. vm_compute. reflexivity. Qed.

(** Behind the separator of a chunk id no other occurrence of the
    separator begins. *)
Lemma no_later_separator digits o :
  Forall (fun c => is_digit c = true) digits -> (1 <= o)%nat ->
  starts_with CHUNK_SEP (skipn o (CHUNK_SEP ++ digits)) = false.
Proof.
  intros Hd Ho. rewrite CHUNK_SEP_cps.
  assert (Hdig : forall k,
            starts_with [95; 99; 104; 117; 110; 107; 95]%N (skipn k digits) = false).
  { intros k.
    assert (Hs : Forall (fun c => is_digit c = true) (skipn k digits))
      by (rewrite <- (firstn_skipn k digits) in Hd; now apply Forall_app in Hd).
    destruct (skipn k digits) as [|c r]; [reflexivity|].
    inversion Hs as [|? ? Hc _]; subst. cbn [starts_with].
    destruct (95 =? c)%N eqn:E; [|reflexivity].
    apply N.eqb_eq in E. subst c. vm_compute in Hc. discriminate. }
  destruct o as [|[|[|[|[|[|[|o]]]]]]]; try lia; try reflexivity.
  - (* the last character of the separator and the digits *)
    cbn [app skipn starts_with]. rewrite N.eqb_refl. cbn [andb].
    destruct digits as [|c r]; [reflexivity|].
    inversion Hd as [|? ? Hc _]; subst.
    destruct (99 =? c)%N eqn:E; [|reflexivity].
    apply N.eqb_eq in E. subst c. vm_compute in Hc. discriminate.
  - apply (Hdig o).
Qed.

Lemma rfind_from_found s sub lo target : forall n,
  lo <= target < lo + Z.of_nat n ->
  starts_with sub (skipn (Z.to_nat target) s) = true ->
  (forall p, target < p < lo + Z.of_nat n ->
     starts_with sub (skipn (Z.to_nat p) s) = false) ->
  rfind_from s sub lo n = target.
Proof.
  induction n as [|n IH]; intros Ht Hhit Hmiss; [lia|].
  cbn [rfind_from].
  destruct (Z.eq_dec target (lo + Z.of_nat n)) as [-> | Hne].
  - now rewrite Hhit.
  - rewrite Hmiss by lia. apply IH; [lia | exact Hhit|].
    intros p Hp. apply Hmiss. lia.
Qed.

Lemma starts_with_app p s : starts_with p (p ++ s) = true.
Proof. induction p as [|x p IH]; simpl; [reflexivity|]. now rewrite N.eqb_refl. Qed.

Lemma split_chunk_id_make_aux doc_id idx :
  split_chunk_id (make_chunk_id doc_id idx) = [doc_id; str_of_nat idx].
Proof.
  unfold split_chunk_id, rsplit1, make_chunk_id.
  set (digits := str_of_nat idx).
  assert (Hd : Forall (fun c => is_digit c = true) digits) by apply uint_cps_digits.
  set (s := doc_id ++ CHUNK_SEP ++ digits).
  assert (Hlen : len s = len doc_id + 7 + len digits).
  { unfold s. rewrite !len_app. change (len CHUNK_SEP) with 7. lia. }
  pose proof (len_nonneg doc_id) as H1. pose proof (len_nonneg digits) as H2.
  assert (Hpos : rfind s CHUNK_SEP 0 (len s) = len doc_id).
  { unfold rfind. change (len CHUNK_SEP) with 7.
    assert (E1 : (len s >? len s) = false) by lia.
    assert (E2 : (len s <? 0) = false) by lia.
    rewrite E1, E2. change (0 <? 0) with false. cbv iota.
    apply rfind_from_found.
    - lia.
    - unfold s, len. rewrite Nat2Z.id, skipn_app, skipn_all, Nat.sub_diag. cbn [app skipn].
      apply starts_with_app.
    - intros p Hp. unfold s.
      replace (Z.to_nat p) with (length doc_id + Z.to_nat (p - len doc_id))%nat
        by (unfold len in *; lia).
      rewrite skipn_app, skipn_all2 by lia.
      replace (length doc_id + Z.to_nat (p - len doc_id) - length doc_id)%nat
        with (Z.to_nat (p - len doc_id)) by lia.
      cbn [app]. apply no_later_separator; [exact Hd | lia]. }
  rewrite Hpos.
  assert (E : (len doc_id =? -1) = false) by lia. rewrite E.
  change (len CHUNK_SEP) with 7. f_equal; [|f_equal].
  - rewrite slice_nonneg by lia. unfold s, len. rewrite Z.sub_0_r, Nat2Z.id.
    change (Z.to_nat 0) with 0%nat. rewrite drop_0.
    now rewrite firstn_app, firstn_all, Nat.sub_diag, firstn_O, app_nil_r.
  - rewrite slice_nonneg by lia. rewrite Hlen.
    replace (len doc_id + 7 + len digits - (len doc_id + 7)) with (len digits) by lia.
    unfold s.
    replace (Z.to_nat (len doc_id + 7)) with (length doc_id + 7)%nat
      by (unfold len; lia).
    rewrite skipn_app, skipn_all2 by lia.
    replace (length doc_id + 7 - length doc_id)%nat with 7%nat by lia.
    cbn [app]. rewrite CHUNK_SEP_cps. cbn [app skipn].
    apply firstn_all2. unfold len. lia.
Qed.

(** X23: the retriever reads back what the indexer wrote.  For every
    document id, also one that itself contains ["_chunk_"], and every
    chunk index, [chunk_id.rsplit('_chunk_', 1)] applied to the id
    [f"{doc_id}_chunk_{idx}"] gives the document id and the decimal
    digits of the index. *)
Theorem split_chunk_id_make doc_id idx :
  split_chunk_id (make_chunk_id doc_id idx) = [doc_id; str_of_nat idx] /\
  nth 0 (split_chunk_id (make_chunk_id doc_id idx)) [] = doc_id.
Proof. rewrite split_chunk_id_make_aux. split; reflexivity. Qed.

(** X24: chunk ids do not collide.  Two ids built by
    [f"{doc_id}_chunk_{idx}"] are equal only when they were built from
    the same document id and the same index, so the chunks of a
    document, numbered by [enumerate], get pairwise different ids. *)
Theorem make_chunk_id_inj doc_id1 idx1 doc_id2 idx2 :
  make_chunk_id doc_id1 idx1 = make_chunk_id doc_id2 idx2 <->
  doc_id1 = doc_id2 /\ idx1 = idx2.
Proof.
  split; [|now intros [-> ->]].
  intros E. apply (f_equal split_chunk_id) in E.
  rewrite !split_chunk_id_make_aux in E. injection E as -> E.
  split; [reflexivity | now apply str_of_nat_inj].
Qed.

End ChunkIdProofs.

(** ** Properties of the keyword extraction *)

Module KeywordProofs.
Import Embedder Retriever KeywordSpec.

Lemma str_eqb_eq a b : str_eqb a b = true <-> a = b.
Proof.
  revert b. induction a as [|x a IH]; intros [|y b]; simpl; split; try congruence.
  - intros E. apply andb_true_iff in E. destruct E as [E1 E2].
    apply N.eqb_eq in E1. apply IH in E2. congruence.
  - intros [= -> ->]. rewrite N.eqb_refl. now apply IH.
Qed.

Lemma str_eqb_refl a : str_eqb a a = true.
Proof. now apply str_eqb_eq. Qed.

Lemma str_eqb_neq a b : str_eqb a b = false <-> a <> b.
Proof.
  split.
  - intros E ->. now rewrite str_eqb_refl in E.
  - intros Hne. destruct (str_eqb a b) eqn:E; [|reflexivity].
    apply str_eqb_eq in E. contradiction.
Qed.

Lemma mem_In w l : mem w l = true <-> In w l.
Proof.
  unfold mem. rewrite existsb_exists. split.
  - intros (x & Hx & E). apply str_eqb_eq in E. now subst.
  - intros Hw. exists w. split; [exact Hw | now apply str_eqb_eq].
Qed.

Lemma set_add_ok w kws : keyword_ok w -> keywords_ok kws -> keywords_ok (set_add w kws).
Proof.
  intros Hw [Hnd Hall]. unfold set_add.
  destruct (mem w kws) eqn:E; [now split|]. split.
  - apply NoDup_app. split; [exact Hnd|]. split; [|apply NoDup_singleton].
    intros x Hx Hx'. apply list_elem_of_singleton in Hx'. subst x.
    apply list_elem_of_In, mem_In in Hx. congruence.
  - apply Forall_app. split; [exact Hall|]. now constructor.
Qed.

Lemma add_word_ok word kws :
  (2 <= length word <= 3)%nat -> keywords_ok kws -> keywords_ok (add_word word kws).
Proof.
  intros Hl Hk. unfold add_word.
  destruct (mem word stopwords) eqn:E; [exact Hk|].
  destruct (isascii word); [exact Hk|]. simpl.
  apply set_add_ok; [|exact Hk]. split; [lia|]. split; [exact E | lia].
Qed.

Lemma add_ngrams_ok t : forall kws, keywords_ok kws -> keywords_ok (add_ngrams t kws).
Proof.
  induction t as [|c t IH]; intros kws Hk; [exact Hk|].
  cbn [add_ngrams]. apply IH.
  assert (H2 : keywords_ok (if (2 <=? length (c :: t))%nat
                            then add_word (firstn 2 (c :: t)) kws else kws)).
  { destruct (2 <=? length (c :: t))%nat eqn:E; [|exact Hk].
    apply Nat.leb_le in E. apply add_word_ok; [|exact Hk].
    rewrite length_firstn. lia. }
  destruct (3 <=? length (c :: t))%nat eqn:E; [|exact H2].
  apply Nat.leb_le in E. apply add_word_ok; [|exact H2].
  rewrite length_firstn. lia.
Qed.

Lemma add_token_ok kws token : keywords_ok kws -> keywords_ok (add_token kws token).
Proof.
  intros Hk. unfold add_token.
  destruct (strip token) as [|c r] eqn:Es; [exact Hk|].
  destruct (isascii (c :: r) && (2 <=? length (c :: r))%nat) eqn:E;
    [|now apply add_ngrams_ok].
  apply andb_true_iff in E. destruct E as [Ea El]. apply Nat.leb_le in El.
  destruct (mem (c :: r) stopwords) eqn:Em; [exact Hk|]. simpl.
  apply set_add_ok; [|exact Hk]. split; [exact El|]. split; [exact Em|].
  rewrite Ea. discriminate.
Qed.

(** X22: the keywords that the title boost counts.  For every query,
    the extracted keywords are pairwise different, none of them is a
    stop word, each has at least two characters, and a keyword that is
    not pure ASCII has two or three characters (an n-gram). *)
Theorem keywords_wellformed query_lower :
  NoDup (keywords query_lower) /\
  Forall (fun k => (2 <= length k)%nat /\ mem k stopwords = false /\
                   (isascii k = false -> (length k <= 3)%nat))
    (keywords query_lower).
Proof.
  unfold keywords.
  assert (G : forall tokens kws, keywords_ok kws ->
              keywords_ok (fold_left add_token tokens kws)).
  { induction tokens as [|t tokens IH]; intros kws Hk; [exact Hk|].
    simpl. apply IH. now apply add_token_ok. }
  apply (G (re_split query_lower) []). split; constructor.
Qed.

End KeywordProofs.

(** ** Properties of the citations *)

Module CitationProofs.
Import Embedder Retriever RetrieverSpec Citations SortFacts RetrieverProofs KeywordProofs.

Section Dict.
Context {V : Type}.

Lemma dict_get_set (key k : pystr) (v : V) d :
  dict_get k (dict_set key v d) = if str_eqb key k then Some v else dict_get k d.
Proof.
  induction d as [|[k0 v0] d IH]; simpl.
  - destruct (str_eqb key k); reflexivity.
  - destruct (str_eqb k0 key) eqn:E; simpl.
    + apply str_eqb_eq in E. subst k0. destruct (str_eqb key k); reflexivity.
    + rewrite IH. destruct (str_eqb key k) eqn:E2; [|reflexivity].
      apply str_eqb_eq in E2. subst k. now rewrite E.
Qed.

Lemma dict_get_In (k : pystr) (v : V) d : dict_get k d = Some v -> In (k, v) d.
Proof.
  induction d as [|[k0 v0] d IH]; simpl; [discriminate|].
  destruct (str_eqb k0 k) eqn:E.
  - apply str_eqb_eq in E. intros [= ->]. left. congruence.
  - intros Hg. right. auto.
Qed.

Lemma dict_get_None (k : pystr) d : dict_get (V:=V) k d = None -> ~ In k (map fst d).
Proof.
  induction d as [|[k0 v0] d IH]; simpl; [tauto|].
  destruct (str_eqb k0 k) eqn:E; [discriminate|].
  apply str_eqb_neq in E. intros Hg [Hk | Hk]; [contradiction | now apply IH].
Qed.

Lemma dict_set_keys (key : pystr) (v : V) d :
  map fst (dict_set key v d) =
    match dict_get key d with
    | Some _ => map fst d
    | None => map fst d ++ [key]
    end.
Proof.
  induction d as [|[k0 v0] d IH]; simpl; [reflexivity|].
  destruct (str_eqb k0 key) eqn:E; simpl; [reflexivity|].
  rewrite IH. now destruct (dict_get key d).
Qed.

Lemma dict_set_In_inv (key : pystr) (v : V) d kv :
  NoDup (map fst d) -> In kv (dict_set key v d) ->
  kv = (key, v) \/ (In kv d /\ fst kv <> key).
Proof.
  induction d as [|[k0 v0] d IH]; simpl; intros Hnd.
  - intros [<- | []]. now left.
  - apply NoDup_cons in Hnd. destruct Hnd as [Hk0 Hnd].
    destruct (str_eqb k0 key) eqn:E.
    + apply str_eqb_eq in E. subst k0. intros [<- | Hin]; [now left|].
      right. split; [now right|]. intros Hk. apply Hk0.
      apply list_elem_of_In. rewrite <- Hk. now apply in_map.
    + apply str_eqb_neq in E. intros [<- | Hin]; [right; split; [now left | exact E]|].
      destruct (IH Hnd Hin) as [-> | [Hin' Hne]]; [now left | right; split; [now right | exact Hne]].
Qed.

Lemma dict_entry_unique (k : pystr) (v1 v2 : V) d :
  NoDup (map fst d) -> In (k, v1) d -> In (k, v2) d -> v1 = v2.
Proof.
  induction d as [|[k0 v0] d IH]; simpl; [tauto|]. intros Hnd.
  apply NoDup_cons in Hnd. destruct Hnd as [Hk0 Hnd].
  assert (Hno : forall v, In (k0, v) d -> False).
  { intros v Hv. apply Hk0, list_elem_of_In. now apply (in_map fst) in Hv. }
  intros [E1 | H1] [E2 | H2].
  - congruence.
  - injection E1 as -> _. elim (Hno _ H2).
  - injection E2 as -> _. elim (Hno _ H1).
  - now apply IH.
Qed.

Lemma dict_set_In_new (key : pystr) (v : V) d : In (key, v) (dict_set key v d).
Proof.
  induction d as [|[k0 v0] d IH]; simpl; [now left|].
  destruct (str_eqb k0 key) eqn:E; [|now right].
  apply str_eqb_eq in E. subst. now left.
Qed.

Lemma dict_set_In_old (key : pystr) (v : V) d kv :
  In kv d -> fst kv <> key -> In kv (dict_set key v d).
Proof.
  induction d as [|[k0 v0] d IH]; simpl; [tauto|].
  intros [<- | Hin] Hne.
  - simpl in Hne. apply str_eqb_neq in Hne. rewrite Hne. now left.
  - destruct (str_eqb k0 key); right; auto.
Qed.

Lemma dict_set_NoDup (key : pystr) (v : V) d :
  NoDup (map fst d) -> NoDup (map fst (dict_set key v d)).
Proof.
  intros Hnd. rewrite dict_set_keys.
  destruct (dict_get key d) eqn:E; [exact Hnd|].
  apply NoDup_app. split; [exact Hnd|]. split; [|apply NoDup_singleton].
  intros k Hk Hk'. apply list_elem_of_singleton in Hk'. subst k.
  apply list_elem_of_In in Hk. exact (dict_get_None _ _ E Hk).
Qed.

Lemma dict_set_key_In (key : pystr) (v : V) d k :
  In k (map fst d) \/ k = key -> In k (map fst (dict_set key v d)).
Proof.
  rewrite dict_set_keys. destruct (dict_get key d) eqn:E.
  - intros [Hk | ->]; [exact Hk|].
    apply dict_get_In in E. apply (in_map fst) in E. exact E.
  - rewrite in_app_iff. simpl. intuition.
Qed.

End Dict.

Lemma file_map_step_ok seen file_map result :
  file_map_ok seen file_map ->
  file_map_ok (seen ++ [result]) (file_map_step file_map result).
Proof.
  intros (Hnd & Hent & Hcov). unfold file_map_step.
  destruct (citation_key result) as [key|] eqn:Ek.
  2:{ split; [exact Hnd|]. split.
      - intros k r s Hin. destruct (Hent k r s Hin) as (H1 & H2 & H3 & H4).
        split; [exact H1|]. split; [exact H2|]. split; [apply in_or_app; now left|].
        intros r' Hr' Hk'. apply in_app_or in Hr'. destruct Hr' as [Hr' | [<- | []]];
          [now apply H4 | congruence].
      - intros r k Hr Hk. apply in_app_or in Hr. destruct Hr as [Hr | [<- | []]];
          [eauto | congruence]. }
  assert (Hkeep : forall k r s, In (k, (r, s)) file_map -> k <> key ->
            citation_key r = Some k /\ s = sr_score r /\ In r (seen ++ [result]) /\
            forall r', In r' (seen ++ [result]) -> citation_key r' = Some k ->
                       (sr_score r' <= s)%Q).
  { intros k r s Hin Hne. destruct (Hent k r s Hin) as (H1 & H2 & H3 & H4).
    split; [exact H1|]. split; [exact H2|]. split; [apply in_or_app; now left|].
    intros r' Hr' Hk'. apply in_app_or in Hr'. destruct Hr' as [Hr' | [<- | []]];
      [now apply H4 | congruence]. }
  assert (Hset : forall (old_max : forall r', In r' seen -> citation_key r' = Some key ->
                            (sr_score r' <= sr_score result)%Q),
            file_map_ok (seen ++ [result])
              (dict_set key (result, sr_score result) file_map)).
  { intros Hmax. split; [now apply dict_set_NoDup|]. split.
    - intros k r s Hin. apply dict_set_In_inv in Hin; [|exact Hnd].
      destruct Hin as [[= -> -> ->] | [Hin Hne]]; [|now apply Hkeep].
      split; [exact Ek|]. split; [reflexivity|].
      split; [apply in_or_app; right; now left|].
      intros r' Hr' Hk'. apply in_app_or in Hr'. destruct Hr' as [Hr' | [<- | []]];
        [now apply Hmax | apply Qle_refl].
    - intros r k Hr Hk. apply dict_set_key_In.
      apply in_app_or in Hr. destruct Hr as [Hr | [<- | []]]; [left; eauto|].
      right. congruence. }
  destruct (dict_get key file_map) as [[r0 max_score]|] eqn:Eg.
  - apply dict_get_In in Eg. destruct (Hent _ _ _ Eg) as (H1 & H2 & H3 & H4).
    destruct (Qltb max_score (sr_score result)) eqn:Elt.
    + apply Hset. intros r' Hr' Hk'. apply Qltb_true in Elt.
      eapply Qle_trans; [now apply H4|]. now apply Qlt_le_weak.
    + apply Qltb_false in Elt. split; [exact Hnd|]. split.
      * intros k r s Hin. destruct (decide (k = key)) as [-> | Hne]; [|now apply Hkeep].
        destruct (Hent key r s Hin) as (G1 & G2 & G3 & G4).
        split; [exact G1|]. split; [exact G2|]. split; [apply in_or_app; now left|].
        intros r' Hr' Hk'. apply in_app_or in Hr'. destruct Hr' as [Hr' | [<- | []]];
          [now apply G4|].
        pose proof (dict_entry_unique _ _ _ _ Hnd Hin Eg) as E.
        injection E as -> ->. exact Elt.
      * intros r k Hr Hk. apply in_app_or in Hr. destruct Hr as [Hr | [<- | []]];
          [eauto|]. assert (k = key) as -> by congruence.
        now apply (in_map fst) in Eg.
  - apply Hset. intros r' Hr' Hk'.
    elim (dict_get_None _ _ Eg). eapply Hcov; eauto.
Qed.

Lemma file_map_fold_ok results : forall seen file_map,
  file_map_ok seen file_map ->
  file_map_ok (seen ++ results) (fold_left file_map_step results file_map).
Proof.
  induction results as [|r results IH]; intros seen file_map Hok; simpl.
  - now rewrite app_nil_r.
  - replace (seen ++ r :: results) with ((seen ++ [r]) ++ results)
      by now rewrite <- app_assoc.
    apply IH. now apply file_map_step_ok.
Qed.

Lemma file_map_ok_final results :
  file_map_ok results (fold_left file_map_step results []).
Proof.
  apply (file_map_fold_ok results [] []).
  split; [constructor|]. split; [intros k r s []|intros r k []].
Qed.

Lemma pair_before_asym (x y : SearchResult * Q) :
  Qltb (snd y) (snd x) = true -> Qltb (snd x) (snd y) = false.
Proof. rewrite Qltb_true, Qltb_false. apply Qlt_le_weak. Qed.

Lemma pair_not_after_trans (x y z : SearchResult * Q) :
  Qltb (snd x) (snd y) = false -> Qltb (snd y) (snd z) = false ->
  Qltb (snd x) (snd z) = false.
Proof. rewrite !Qltb_false. intros H1 H2. eapply Qle_trans; eauto. Qed.

(** The results cited are the results held by [file_map]. *)
Lemma unique_results_perm results :
  Permutation (unique_results results)
    (map (fun item => fst (snd item)) (fold_left file_map_step results [])).
Proof.
  unfold unique_results. rewrite stable_sort_perm. now rewrite map_map.
Qed.

Lemma unique_results_In results u :
  In u (unique_results results) <->
  exists k, In (k, (u, sr_score u)) (fold_left file_map_step results []).
Proof.
  destruct (file_map_ok_final results) as (_ & Hent & _).
  split.
  - intros Hu. apply (Permutation_in _ (unique_results_perm results)) in Hu.
    apply in_map_iff in Hu. destruct Hu as ([k [r s]] & <- & Hin). simpl.
    exists k. now destruct (Hent k r s Hin) as (_ & -> & _).
  - intros [k Hin].
    apply (Permutation_in _ (Permutation_sym (unique_results_perm results))).
    apply in_map_iff. now exists (k, (u, sr_score u)).
Qed.

(** X19: [format_citations] cites each file or URL once, by its best
    result.  No two of the results it cites have the same key (the URL
    of a web result, the file path of any other); each is a result of
    the input whose key is not empty and whose score no result of the
    input with the same key exceeds; and every result of the input with
    a key is represented by a cited result with that key. *)
Theorem format_citations_dedup results :
  NoDup (map citation_key (unique_results results)) /\
  (forall u, In u (unique_results results) ->
     In u results /\ citation_key u <> None /\
     forall r, In r results -> citation_key r = citation_key u ->
               (sr_score r <= sr_score u)%Q) /\
  (forall r, In r results -> citation_key r <> None ->
     exists u, In u (unique_results results) /\ citation_key u = citation_key r).
Proof.
  destruct (file_map_ok_final results) as (Hnd & Hent & Hcov).
  split; [|split].
  - apply (NoDup_Permutation_proper _ _
             (Permutation_map citation_key (Permutation_sym (unique_results_perm results)))).
    rewrite map_map.
    rewrite (map_ext_in _ (fun item => Some (fst item))).
    + rewrite <- (map_map fst Some). apply NoDup_fmap_2; [|exact Hnd].
      intros x y [= ->]. reflexivity.
    + intros [k [r s]] Hin. simpl. now destruct (Hent k r s Hin) as (-> & _).
  - intros u Hu. apply unique_results_In in Hu. destruct Hu as [k Hin].
    destruct (Hent _ _ _ Hin) as (Hk & _ & Hr & Hmax).
    split; [exact Hr|]. split; [congruence|].
    intros r Hr' Hkr. apply Hmax; [exact Hr' | congruence].
  - intros r Hr Hk. destruct (citation_key r) as [k|] eqn:Ek; [|congruence].
    pose proof (Hcov r k Hr Ek) as Hin. apply in_map_iff in Hin.
    destruct Hin as ([k' [u s]] & [= ->] & Hin).
    destruct (Hent _ _ _ Hin) as (Hku & -> & _).
    exists u. split; [|exact Hku]. apply unique_results_In. eauto.
Qed.

Lemma format_citations_dedup_aux results :
  NoDup (unique_results results) /\ incl (unique_results results) results.
Proof.
  destruct (file_map_ok_final results) as (Hnd & Hent & _). split.
  - apply (NoDup_fmap_1 citation_key).
    apply (NoDup_Permutation_proper _ _
             (Permutation_map citation_key (Permutation_sym (unique_results_perm results)))).
    rewrite map_map.
    rewrite (map_ext_in _ (fun item => Some (fst item))).
    + rewrite <- (map_map fst Some). apply NoDup_fmap_2; [|exact Hnd].
      intros x y [= ->]. reflexivity.
    + intros [k [r s]] Hin. simpl. now destruct (Hent k r s Hin) as (-> & _).
  - intros u Hu. apply unique_results_In in Hu. destruct Hu as [k Hin].
    now destruct (Hent _ _ _ Hin) as (_ & _ & Hr & _).
Qed.

Lemma unique_results_descending results : descending (unique_results results).
Proof.
  destruct (file_map_ok_final results) as (_ & Hent & _).
  unfold descending, unique_results.
  set (d := fold_left file_map_step results []) in *.
  pose proof (stable_sort_sorted
                (fun a b : SearchResult * Q => Qltb (snd b) (snd a))
                pair_before_asym pair_not_after_trans (map snd d)) as Hs.
  assert (Hall : Forall (fun v : SearchResult * Q => snd v = sr_score (fst v))
                   (stable_sort (fun a b : SearchResult * Q => Qltb (snd b) (snd a))
                      (map snd d))).
  { apply (Permutation_Forall (Permutation_sym (stable_sort_perm _ _))).
    apply List.Forall_forall. intros [r s] Hin. apply in_map_iff in Hin.
    destruct Hin as ([k v] & E & Hin). simpl in E. subst v.
    now destruct (Hent k r s Hin) as (_ & -> & _). }
  induction Hs as [|x l Hs IH Hx]; [constructor|].
  inversion Hall as [|? ? Hx0 Hall']; subst. simpl.
  constructor; [now apply IH|].
  rewrite List.Forall_forall in *. intros y Hy. apply in_map_iff in Hy.
  destruct Hy as (v & <- & Hv). specialize (Hx v Hv). apply Qltb_false in Hx.
  now rewrite <- Hx0, <- (Hall' v Hv).
Qed.

Lemma map_citation_id n l :
  map citation_id (map cite (enumerate_from n l)) = seq n (length l).
Proof.
  revert n. induction l as [|r l IH]; intros n; [reflexivity|]. simpl.
  rewrite IH. f_equal. now destruct (sr_source r).
Qed.

(** X20: the citations are numbered 1, 2, ... in the order of the
    cited results, which is descending by score; there is one citation
    per cited result, and never more citations than results. *)
Theorem format_citations_numbered results :
  map citation_id (format_citations results)
    = seq 1 (length (unique_results results)) /\
  length (format_citations results) = length (unique_results results) /\
  descending (unique_results results) /\
  (length (format_citations results) <= length results)%nat.
Proof.
  assert (Hl : length (format_citations results) = length (unique_results results)).
  { unfold format_citations. rewrite length_map.
    rewrite <- (length_map snd), map_snd_enumerate_from. reflexivity. }
  split; [apply map_citation_id|]. split; [exact Hl|].
  split; [apply unique_results_descending|]. rewrite Hl.
  destruct (format_citations_dedup_aux results) as [Hnd Hin].
  apply NoDup_incl_length; [apply NoDup_ListNoDup; exact Hnd | exact Hin].
Qed.

End CitationProofs.

(** ** Properties of the streamed answer *)

Module AnswerProofs.
Import Embedder Retriever Answer StrFacts EmbedderProofs.

Lemma pieces_concat answer k : 0 < k -> concat (pieces answer k) = answer.
Proof.
  intros Hk. unfold pieces, range_step. rewrite map_map.
  set (c := Z.to_nat ((len answer + k - 1) / k)).
  rewrite (map_ext_in _ (fun j => firstn (Z.to_nat k) (skipn (j * Z.to_nat k) answer))).
  - rewrite concat_take_drop. apply firstn_all2.
    assert (len answer <= Z.of_nat c * k); [|unfold len in *; nia].
    unfold c. rewrite Z2Nat.id by (apply Z.div_pos; unfold len; lia).
    pose proof (Z.mul_div_le (len answer + k - 1) k Hk).
    pose proof (Z.mod_pos_bound (len answer + k - 1) k Hk).
    pose proof (Z.div_mod (len answer + k - 1) k ltac:(lia)).
    nia.
  - intros j _. rewrite slice_nonneg by nia.
    f_equal; [f_equal; lia | f_equal; nia].
Qed.

Lemma pieces_sizes answer k :
  0 < k -> Forall (fun p => 1 <= len p <= k) (pieces answer k).
Proof.
  intros Hk. unfold pieces, range_step. rewrite map_map.
  apply List.Forall_forall. intros p Hp. apply in_map_iff in Hp.
  destruct Hp as (j & <- & Hj). apply in_seq in Hj.
  assert (Hlt : Z.of_nat j * k < len answer).
  { assert (Z.of_nat j + 1 <= (len answer + k - 1) / k).
    { pose proof (len_nonneg answer).
      rewrite <- (Z2Nat.id ((len answer + k - 1) / k)) by (apply Z.div_pos; lia). lia. }
    pose proof (Z.mul_div_le (len answer + k - 1) k Hk). nia. }
  rewrite slice_nonneg by nia. unfold len in *.
  rewrite length_firstn, length_skipn. lia.
Qed.

Section WithLLM.
Variable generate_answer :
  pystr -> list SearchResult -> list SearchResult -> option pystr.
Variable _fallback_answer :
  pystr -> list SearchResult -> list SearchResult -> pystr.


End WithLLM.
End AnswerProofs.
